(** * Gießen events aggregator: date ranges, adapters, deduplication

    A shallow embedding of [index.js] (both revisions found in the
    repository) and [providers/deskline.js], and the properties of the
    aggregator's specification proved or refuted on that embedding.

    Conventions.
    - A JavaScript string is the list of its UTF-16 code units ([jsstr]).
    - [null] and [undefined] are both [None]; a field that always holds a
      string is a plain [jsstr].
    - A [Date] object is its time value: [Some t] for [t] milliseconds
      since the epoch, [None] for an Invalid Date (time value NaN).
    - The local time zone is UTC (the repository's Dockerfile builds on
      [node:20-alpine], which has no other zone), so a calendar day is
      [msPerDay] milliseconds and local midnight is a multiple of it.
    - Event records are heap objects: arrays hold references ([loc]) into
      a [heap], so that in-place updates and aliasing are visible. *)

From Stdlib Require Import ZArith NArith List Bool Lia String Ascii.
From stdpp Require Import base option list sorting.

Local Open Scope Z_scope.

(* ===================================================================== *)
(** ** JavaScript strings *)
(* ===================================================================== *)

Module JS.

Definition jsstr := list N.

(** An ASCII literal as a JavaScript string. *)
Definition lit (s : string) : jsstr :=
  map N_of_ascii (list_ascii_of_string s).

(** [x || d] on a string-or-null value: the empty string is falsy. *)
Definition truthy (v : option jsstr) : bool :=
  match v with
  | Some (_ :: _) => true
  | _ => false
  end.

Definition or_else (v : option jsstr) (d : jsstr) : jsstr :=
  if truthy v then default d v else d.

(** [x || null]. *)
Definition or_null (v : option jsstr) : option jsstr :=
  if truthy v then v else None.

Definition streq (a b : jsstr) : bool := bool_decide (a = b).

(** [v === s] for a value that may be null or undefined. *)
Definition is_str (v : option jsstr) (s : jsstr) : bool :=
  bool_decide (v = Some s).

Fixpoint startsWith (s p : jsstr) : bool :=
  match p, s with
  | [], _ => true
  | c :: p', d :: s' => N.eqb c d && startsWith s' p'
  | _ :: _, [] => false
  end.

(** [s.includes(p)]. *)
Fixpoint includes (s p : jsstr) : bool :=
  startsWith s p ||
  match s with
  | [] => false
  | _ :: s' => includes s' p
  end.

(** [s.split(sep)] for a separator of one code unit. *)
Fixpoint split_on (c : N) (s : jsstr) : list jsstr :=
  match s with
  | [] => [[]]
  | x :: r =>
      if N.eqb x c then [] :: split_on c r
      else match split_on c r with
           | seg :: segs => (x :: seg) :: segs
           | [] => [[x]]
           end
  end.

(** [s.slice(0, n)]. *)
Definition slice0 (n : nat) (s : jsstr) : jsstr := firstn n s.

(** The class [\s] of regular expressions, which is also what [trim]
    strips: WhiteSpace and LineTerminator code points. *)
Definition isSpace (c : N) : bool :=
  ((9 <=? c) && (c <=? 13) || (c =? 32) || (c =? 160) || (c =? 5760)
   || ((8192 <=? c) && (c <=? 8202)) || (c =? 8232) || (c =? 8233)
   || (c =? 8239) || (c =? 8287) || (c =? 12288) || (c =? 65279))%N.

Fixpoint trimStart (s : jsstr) : jsstr :=
  match s with
  | c :: r => if isSpace c then trimStart r else s
  | [] => []
  end.

Fixpoint trimEnd (s : jsstr) : jsstr :=
  match s with
  | [] => []
  | c :: r =>
      match trimEnd r with
      | [] => if isSpace c then [] else [c]
      | r' => c :: r'
      end
  end.

Definition trim (s : jsstr) : jsstr := trimEnd (trimStart s).

Definition isDigit (c : N) : bool := ((48 <=? c) && (c <=? 57))%N.

End JS.

Import JS.

(* ===================================================================== *)
(** ** Dates (ECMAScript time values, date-fns helpers) *)
(* ===================================================================== *)

Module Dates.

Definition msPerDay : Z := 86400000.

(** Largest magnitude of a valid time value (ECMAScript TimeClip). *)
Definition maxTime : Z := 8640000000000000.

Definition Date := option Z.

Definition TimeClip (t : Z) : Date :=
  if Z.abs t <=? maxTime then Some t else None.

(** ECMAScript [Day(t)] and [WeekDay(t)]; 0 is Sunday, 6 is Saturday. *)
Definition Day (t : Z) : Z := t / msPerDay.
Definition WeekDay (t : Z) : Z := (Day t + 4) mod 7.

(** [d.getDay()] on a valid date. *)
Definition getDay (t : Z) : Z := WeekDay t.

(** date-fns [startOfDay]: a copy with [setHours(0, 0, 0, 0)]. *)
Definition startOfDay (d : Date) : Date :=
  t ← d; TimeClip (Day t * msPerDay).

(** date-fns [endOfDay]: a copy with [setHours(23, 59, 59, 999)]. *)
Definition endOfDay (d : Date) : Date :=
  t ← d; TimeClip (Day t * msPerDay + (msPerDay - 1)).

(** date-fns [addDays]: a copy with [setDate(getDate() + amount)]; an
    amount of zero returns the copy unchanged. *)
Definition addDays (d : Date) (amount : Z) : Date :=
  t ← d; if amount =? 0 then Some t else TimeClip (t + amount * msPerDay).

(** [a <= b] on dates, as JavaScript compares them: false as soon as one
    side is an Invalid Date. *)
Definition date_le (a b : Date) : Prop :=
  match a, b with
  | Some x, Some y => x <= y
  | _, _ => False
  end.

Definition isValid (d : Date) : bool :=
  match d with Some _ => true | None => false end.

(** *** A parser for the calendar form YYYY-MM-DD

    date-fns [parseISO] reads many ISO 8601 forms.  The development keeps
    it as a parameter; this function is its behaviour on the one form
    used in the examples: a four-digit year, a month and a day of that
    month, read as local midnight. *)

Definition digitVal (c : N) : Z := Z.of_N c - 48.

Definition isLeap (y : Z) : bool :=
  ((y mod 4 =? 0) && negb (y mod 100 =? 0)) || (y mod 400 =? 0).

Definition daysInMonth (y m : Z) : Z :=
  if m =? 2 then (if isLeap y then 29 else 28)
  else if (m =? 4) || (m =? 6) || (m =? 9) || (m =? 11) then 30
  else 31.

(** Days from 1970-01-01 to the civil date y-m-d. *)
Definition daysFromCivil (y m d : Z) : Z :=
  let y' := if m <=? 2 then y - 1 else y in
  let era := y' / 400 in
  let yoe := y' - era * 400 in
  let mp := (m + 9) mod 12 in
  let doy := (153 * mp + 2) / 5 + d - 1 in
  let doe := yoe * 365 + yoe / 4 - yoe / 100 + doy in
  era * 146097 + doe - 719468.

Definition parseCalendarDate (s : jsstr) : Date :=
  match s with
  | [y1; y2; y3; y4; h1; m1; m2; h2; d1; d2] =>
      if forallb isDigit [y1; y2; y3; y4; m1; m2; d1; d2]
         && (h1 =? 45)%N && (h2 =? 45)%N
      then
        let y := digitVal y1 * 1000 + digitVal y2 * 100
                 + digitVal y3 * 10 + digitVal y4 in
        let m := digitVal m1 * 10 + digitVal m2 in
        let d := digitVal d1 * 10 + digitVal d2 in
        if (1 <=? m) && (m <=? 12) && (1 <=? d) && (d <=? daysInMonth y m)
        then Some (daysFromCivil y m d * msPerDay)
        else None
      else None
  | _ => None
  end.

End Dates.

Import Dates.


(* ===================================================================== *)
(** ** Numbers, completions and the runtime *)
(* ===================================================================== *)

(** The numbers the program computes with: time values, their
    differences, [Infinity] and [NaN]. *)
Inductive num := NaN | NegInf | Fin (z : Z) | PosInf.

(** [a - b].  Time values are integers of magnitude at most [maxTime];
    their difference may be rounded by the floating-point subtraction
    but keeps its sign, which is all the program looks at. *)
Definition num_sub (a b : num) : num :=
  match a, b with
  | NaN, _ | _, NaN => NaN
  | PosInf, PosInf | NegInf, NegInf => NaN
  | PosInf, _ | _, NegInf => PosInf
  | NegInf, _ | _, PosInf => NegInf
  | Fin x, Fin y => Fin (x - y)
  end.

(** [a < b] and [a > b]: false when a side is [NaN]. *)
Definition num_lt (a b : num) : bool :=
  match a, b with
  | NaN, _ | _, NaN => false
  | _, NegInf | PosInf, _ => false
  | NegInf, _ | _, PosInf => true
  | Fin x, Fin y => x <? y
  end.

Definition num_gt (a b : num) : bool := num_lt b a.

(** [d.getTime()]. *)
Definition getTime (d : Date) : num :=
  match d with
  | Some t => Fin t
  | None => NaN
  end.

(** How a call ends: with a value, or with a thrown error of that name. *)
Inductive Completion (A : Type) :=
  | Normal (a : A)
  | Throw (name : string).
Arguments Normal {A} a.
Arguments Throw {A} name.

(** Library and built-in functions whose tables are not reproduced: the
    development holds for whatever they compute. *)
Class Runtime := {
  (** [String.prototype.toLowerCase]. *)
  toLowerCase : jsstr -> jsstr;
  (** The time value of [new Date(s)] for a string [s]; [None] is NaN. *)
  dateParse : jsstr -> Date;
  (** [decodeURIComponent]; [None] when it throws a URIError. *)
  decodeURIComponent : jsstr -> option jsstr;
  (** date-fns [parseISO] on a string; [None] is the Invalid Date it
      returns for what it cannot read.  It does not throw on a string. *)
  parseISO : jsstr -> Date
}.

(** An instance for the examples.  Its lower-casing is that of Latin-1
    text (code units below 256).  The date strings it reads are the
    calendar form YYYY-MM-DD, optionally followed by [T], a time
    HH:MM:SS of the same day and possibly [Z] (local time being UTC,
    the value is the same with or without it); any other string is
    taken as unreadable, which is what [new Date] makes of a string
    without digits. *)
Module Latin1.

Definition lowerUnit (c : N) : N :=
  if ((65 <=? c) && (c <=? 90))%N then (c + 32)%N
  else if ((192 <=? c) && (c <=? 222) && negb (c =? 215))%N then (c + 32)%N
  else c.

Definition lower (s : jsstr) : jsstr := map lowerUnit s.

Definition twoDigits (a b : N) : option Z :=
  if isDigit a && isDigit b then Some (digitVal a * 10 + digitVal b)
  else None.

Definition parseTime (s : jsstr) : option Z :=
  match s with
  | [h1; h2; c1; m1; m2; c2; s1; s2] =>
      if ((c1 =? 58) && (c2 =? 58))%N then
        h ← twoDigits h1 h2; m ← twoDigits m1 m2; sec ← twoDigits s1 s2;
        if (h <=? 23) && (m <=? 59) && (sec <=? 59)
        then Some (((h * 60 + m) * 60 + sec) * 1000) else None
      else None
  | _ => None
  end.

Definition parseDateString (s : jsstr) : Date :=
  match drop 10 s with
  | [] => parseCalendarDate s
  | t :: time =>
      if (t =? 84)%N then
        d ← parseCalendarDate (take 10 s);
        ms ← parseTime (take 8 time);
        if bool_decide (drop 8 time = [] ∨ drop 8 time = [90%N])
        then Some (d + ms) else None
      else None
  end.

Definition hexVal (c : N) : option N :=
  if isDigit c then Some (c - 48)%N
  else if ((65 <=? c) && (c <=? 70))%N then Some (c - 55)%N
  else if ((97 <=? c) && (c <=? 102))%N then Some (c - 87)%N
  else None.

(** An escape [%XX] at the head of [s]: its octet and what follows. *)
Definition escape (s : jsstr) : option (N * jsstr) :=
  match s with
  | 37%N :: a :: b :: r => x ← hexVal a; y ← hexVal b; Some (16 * x + y, r)%N
  | _ => None
  end.

(** An escaped UTF-8 continuation octet: its six payload bits. *)
Definition continuation (s : jsstr) : option (N * jsstr) :=
  '(b, r) ← escape s;
  if ((128 <=? b) && (b <=? 191))%N then Some (b - 128, r)%N else None.

(** Escapes are octets of UTF-8; a sequence that is not the encoding of
    a code point makes the call throw.  [fuel] bounds the number of
    characters read. *)
Fixpoint decodeFrom (fuel : nat) (s : jsstr) : option jsstr :=
  match fuel, s with
  | _, [] => Some []
  | O, _ => None
  | S fuel, c :: r =>
      if negb (c =? 37)%N then cons c <$> decodeFrom fuel r
      else
        '(b, r1) ← escape s;
        if (b <? 128)%N then cons b <$> decodeFrom fuel r1
        else if ((194 <=? b) && (b <=? 223))%N then
          '(c1, r2) ← continuation r1;
          cons ((b - 192) * 64 + c1)%N <$> decodeFrom fuel r2
        else if ((224 <=? b) && (b <=? 239))%N then
          '(c1, r2) ← continuation r1;
          '(c2, r3) ← continuation r2;
          let cp := ((b - 224) * 4096 + c1 * 64 + c2)%N in
          if ((cp <? 2048) || ((55296 <=? cp) && (cp <=? 57343)))%N then None
          else cons cp <$> decodeFrom fuel r3
        else if ((240 <=? b) && (b <=? 244))%N then
          '(c1, r2) ← continuation r1;
          '(c2, r3) ← continuation r2;
          '(c3, r4) ← continuation r3;
          let cp := ((b - 240) * 262144 + c1 * 4096 + c2 * 64 + c3)%N in
          if ((cp <? 65536) || (1114111 <? cp))%N then None
          else
            let v := (cp - 65536)%N in
            (λ rest, (55296 + v / 1024)%N :: (56320 + v mod 1024)%N :: rest)
              <$> decodeFrom fuel r4
        else None
  end.

Definition decode (s : jsstr) : option jsstr := decodeFrom (length s) s.

Definition runtime : Runtime := {|
  toLowerCase := lower;
  dateParse := parseDateString;
  decodeURIComponent := decode;
  parseISO := parseCalendarDate
|}.

End Latin1.

(* ===================================================================== *)
(** ** The date range resolver: [getDateRange] *)
(* ===================================================================== *)

Record DateRange := { start : Date; end_ : Date }.

Section Resolver.
Context `{Runtime}.

(** [parseISO] on a destructured array element, which is [undefined]
    when the array is too short: a non-string argument gives an
    Invalid Date. *)
Definition parseISO_arg (a : option jsstr) : Date :=
  match a with
  | Some s => parseISO s
  | None => None
  end.

(** [(6 - now.getDay() + 7) % 7 || 7]. *)
Definition daysUntilSat (now : Z) : Z :=
  let r := Z.rem (6 - getDay now + 7) 7 in
  if r =? 0 then 7 else r.

(** [getDateRange(dateStr)], with the clock reading [clock] of
    [new Date()] as an argument.  Every path ends in a [return]. *)
Definition getDateRange (clock : Z) (dateStr : option jsstr)
  : Completion DateRange :=
  let now : Date := Some clock in
  if negb (truthy dateStr) then
    Normal {| start := startOfDay now; end_ := endOfDay (addDays now 7) |}
  else
    let dateStr := default [] dateStr in
    if includes dateStr (lit ":") then
      let parts := split_on 58 dateStr in
      let s := parts !! 0%nat in
      let e := parts !! 1%nat in
      Normal {| start := startOfDay (parseISO_arg s);
                end_ := endOfDay (parseISO_arg e) |}
    else if streq dateStr (lit "today") then
      Normal {| start := startOfDay now; end_ := endOfDay now |}
    else if streq dateStr (lit "weekend") then
      let sat := addDays now (daysUntilSat clock) in
      Normal {| start := startOfDay sat; end_ := endOfDay (addDays sat 1) |}
    else
      let d := parseISO dateStr in
      Normal {| start := startOfDay d; end_ := endOfDay d |}.

(** date-fns [format] throws a RangeError on an Invalid Date; [main]
    formats both ends of the range for the cache key right after
    resolving it. *)
Definition formatChecks (d : Date) : Completion unit :=
  if isValid d then Normal tt else Throw "RangeError: Invalid time value".

Definition mainResolve (clock : Z) (optsDate : option jsstr)
  : Completion DateRange :=
  match getDateRange clock optsDate with
  | Throw e => Throw e
  | Normal dateRange =>
      match formatChecks (start dateRange) with
      | Throw e => Throw e
      | Normal _ =>
          match formatChecks (end_ dateRange) with
          | Throw e => Throw e
          | Normal _ => Normal dateRange
          end
      end
  end.

End Resolver.

(* ===================================================================== *)
(** ** Events and the heap they live in *)
(* ===================================================================== *)

(** The record every adapter builds. *)
Record Event := {
  name : option jsstr;
  date : option jsstr;
  venue : option jsstr;
  address : option jsstr;
  type : jsstr;
  url : option jsstr;
  price : option jsstr;
  source : jsstr;
  description : option jsstr
}.

Definition set_price (v : option jsstr) (e : Event) : Event :=
  {| name := name e; date := date e; venue := venue e;
     address := address e; type := type e; url := url e;
     price := v; source := source e; description := description e |}.

Definition set_venue (v : option jsstr) (e : Event) : Event :=
  {| name := name e; date := date e; venue := v;
     address := address e; type := type e; url := url e;
     price := price e; source := source e; description := description e |}.

Definition set_source (v : jsstr) (e : Event) : Event :=
  {| name := name e; date := date e; venue := venue e;
     address := address e; type := type e; url := url e;
     price := price e; source := v; description := description e |}.

(** Objects are referred to by their position in the heap. *)
Abbreviation loc := nat (only parsing).
Abbreviation heap := (list Event) (only parsing).

(** [o.f] for a field holding a string or null. *)
Definition rd (f : Event -> option jsstr) (h : heap) (l : loc)
  : option jsstr :=
  e ← h !! l; f e.

(** [o.source]. *)
Definition rd_source (h : heap) (l : loc) : jsstr :=
  from_option source [] (h !! l).

(** [o.f = v], written as the update [upd] of the record at [l]. *)
Definition assign (h : heap) (l : loc) (upd : Event -> Event) : heap :=
  match h !! l with
  | Some e => <[l := upd e]> h
  | None => h
  end.

(** Status strings of a provider result: [ok (n Events)], [skip (...)],
    [error: message]. *)
Inductive Status :=
  | StatusOk (n : nat)
  | StatusSkip
  | StatusError (message : string).

Record ProviderResult := { events : list Event; status : Status }.

(* ===================================================================== *)
(** ** Deduplicate and sort: [dedup] *)
(* ===================================================================== *)

(** The characters kept by [replace(/[^a-zäöüß0-9]/g, '')]. *)
Definition keyChar (c : N) : bool :=
  (((97 <=? c) && (c <=? 122)) || (c =? 228) || (c =? 246) || (c =? 252)
   || (c =? 223) || ((48 <=? c) && (c <=? 57)))%N.

(** A [Map] from keys to object references, in insertion order. *)
Abbreviation SeenMap := (list (jsstr * loc)) (only parsing).

Fixpoint map_get (seen : SeenMap) (key : jsstr) : option loc :=
  match seen with
  | [] => None
  | (k, l) :: rest => if streq k key then Some l else map_get rest key
  end.

(** [seen.set(key, e)] for a key the map does not have yet. *)
Definition map_set_new (seen : SeenMap) (key : jsstr) (l : loc) : SeenMap :=
  seen ++ [(key, l)].

(** [[...seen.values()]]. *)
Definition map_values (seen : SeenMap) : list loc := seen.*2.

(** A comparison result that puts the first argument after the second:
    a positive number.  [NaN] counts as [+0]. *)
Definition after (c : num) : bool := num_gt c (Fin 0).

(** [Array.prototype.sort] with a comparator.  The sort is stable.  For
    a consistent comparator the language fixes the result, and this
    insertion sort computes it.  For an inconsistent one the language
    leaves the order to the engine, and all that is kept of this
    function then is that its result is a permutation of the array: the
    order it gives need not be the engine's.  The comparator of [dedup]
    is consistent when every date string can be read ([dates_parse]);
    the statements about the order of the result carry that
    hypothesis. *)
Fixpoint sort_insert {A} (comparefn : A -> A -> num) (x : A) (l : list A)
  : list A :=
  match l with
  | [] => [x]
  | y :: r =>
      if after (comparefn x y) then y :: sort_insert comparefn x r
      else x :: y :: r
  end.

Definition sort {A} (comparefn : A -> A -> num) (l : list A) : list A :=
  foldr (sort_insert comparefn) [] l.

Section Dedup.
Context `{Runtime}.

(** The key computed for an event [e]:
    [(e.name || '').toLowerCase().replace(/[^a-zäöüß0-9]/g, '').slice(0, 40)
     + '|' + (e.date || '').slice(0, 10)]. *)
Definition identityKey (e : Event) : jsstr :=
  slice0 40 (List.filter keyChar (toLowerCase (or_else (name e) [])))
  ++ lit "|" ++ slice0 10 (or_else (date e) []).

(** The [else] branch of the loop: the duplicate [e] is merged into the
    record [ex] found under its key.  Every read goes through the heap,
    so [ex] and [e] may be the same object. *)
Definition merge_dup (h : heap) (ex e : loc) : heap :=
  let h1 :=
    if negb (truthy (rd price h ex)) && truthy (rd price h e)
    then assign h ex (set_price (rd price h e)) else h in
  let h2 :=
    if negb (truthy (rd venue h1 ex)) && truthy (rd venue h1 e)
    then assign h1 ex (set_venue (rd venue h1 e)) else h1 in
  assign h2 ex (set_source (rd_source h2 ex ++ lit ", " ++ rd_source h2 e)).

(** One iteration of [for (const e of events)].  A reference always
    designates a live object; the first branch only makes the function
    total. *)
Definition dedup_step (st : SeenMap * heap) (l : loc) : SeenMap * heap :=
  let '(seen, h) := st in
  match h !! l with
  | None => st
  | Some e =>
      let key := identityKey e in
      match map_get seen key with
      | None => (map_set_new seen key l, h)
      | Some ex => (seen, merge_dup h ex l)
      end
  end.

Definition dedup_loop (h : heap) (events : list loc) : SeenMap * heap :=
  foldl dedup_step ([], h) events.

(** [a.date ? new Date(a.date).getTime() : Infinity]. *)
Definition sortTime (h : heap) (a : loc) : num :=
  let d := rd date h a in
  if truthy d then getTime (dateParse (default [] d)) else PosInf.

(** The comparator [(a, b) => da - db]. *)
Definition byDate (h : heap) (a b : loc) : num :=
  num_sub (sortTime h a) (sortTime h b).

(** [dedup(events)]: the returned array and the heap after the call. *)
Definition dedup (h : heap) (events : list loc) : list loc * heap :=
  let '(seen, h') := dedup_loop h events in
  (sort (byDate h') (map_values seen), h').

(** [main] calls [dedup] on the concatenation of the adapters' results:
    every record is an object of its own. *)
Definition dedupFresh (allEvents : list Event) : list loc * heap :=
  dedup allEvents (seq 0 (length allEvents)).

(** The records an array of references designates. *)
Definition deref (h : heap) (ls : list loc) : list Event :=
  omap (λ l, h !! l) ls.

(** The type filter of [main]:
    [if (opts.type !== 'all') allEvents = allEvents.filter(e =>
       e.type === opts.type || e.type === 'other')]. *)
Definition typeFilter (optsType : jsstr) (allEvents : list Event)
  : list Event :=
  if negb (streq optsType (lit "all")) then
    List.filter
      (λ e, streq (type e) optsType || streq (type e) (lit "other"))
      allEvents
  else allEvents.

(** What [main] prints and caches when the cache has no entry, given
    the settled results of the adapters in their configured order. *)
Definition mainEvents (optsType : jsstr) (results : list ProviderResult)
  : list Event :=
  let allEvents := concat (events <$> results) in
  let '(out, h) := dedupFresh allEvents in
  typeFilter optsType (deref h out).

End Dedup.

(* ===================================================================== *)
(** ** Regular expressions of the municipal adapter, as matchers *)
(* ===================================================================== *)

(** Each matcher takes the text at the position tried and the
    continuation for what follows, and backtracks as the engine does:
    greedy quantifiers try the longest run first, lazy ones the
    shortest. *)
Module Rx.

Definition isLineTerminator (c : N) : bool :=
  ((c =? 10) || (c =? 13) || (c =? 8232) || (c =? 8233))%N.

(** A literal. *)
Definition str {A} (p : jsstr) (k : jsstr -> option A) (s : jsstr)
  : option A :=
  if startsWith s p then k (drop (length p) s) else None.

(** [\s+]. *)
Fixpoint spaces1 {A} (k : jsstr -> option A) (s : jsstr) : option A :=
  match s with
  | c :: r =>
      if isSpace c then
        match spaces1 k r with
        | Some a => Some a
        | None => k r
        end
      else None
  | [] => None
  end.

(** [\s*]. *)
Definition spaces0 {A} (k : jsstr -> option A) (s : jsstr) : option A :=
  match spaces1 k s with
  | Some a => Some a
  | None => k s
  end.

(** [(?: ... )?]. *)
Definition opt {A} (m : (jsstr -> option A) -> jsstr -> option A)
    (k : jsstr -> option A) (s : jsstr) : option A :=
  match m k s with
  | Some a => Some a
  | None => k s
  end.

(** The leftmost position at which [m] matches. *)
Fixpoint firstMatch {A} (m : jsstr -> option A) (s : jsstr) : option A :=
  match m s with
  | Some a => Some a
  | None =>
      match s with
      | [] => None
      | _ :: r => firstMatch m r
      end
  end.

(** [(\d{2}\.\d{2}\.\d{4})], passing the capture on. *)
Definition date10 {A} (k : jsstr -> jsstr -> option A) (s : jsstr)
  : option A :=
  match s with
  | d1 :: d2 :: p1 :: m1 :: m2 :: p2 :: y1 :: y2 :: y3 :: y4 :: r =>
      if forallb isDigit [d1; d2; m1; m2; y1; y2; y3; y4]
         && (p1 =? 46)%N && (p2 =? 46)%N
      then k [d1; d2; p1; m1; m2; p2; y1; y2; y3; y4] r
      else None
  | _ => None
  end.

(** [(\d{2}:\d{2})]. *)
Definition time5 {A} (k : jsstr -> jsstr -> option A) (s : jsstr)
  : option A :=
  match s with
  | h1 :: h2 :: c :: m1 :: m2 :: r =>
      if forallb isDigit [h1; h2; m1; m2] && (c =? 58)%N
      then k [h1; h2; c; m1; m2] r
      else None
  | _ => None
  end.

(** [(\d{1,2})] followed by the character [sep]. *)
Definition digits12 {A} (sep : N) (k : jsstr -> jsstr -> option A)
    (s : jsstr) : option A :=
  let one :=
    match s with
    | a :: c :: r => if isDigit a && (c =? sep)%N then k [a] r else None
    | _ => None
    end in
  match s with
  | a :: b :: c :: r =>
      if isDigit a && isDigit b && (c =? sep)%N
      then match k [a; b] r with
           | Some x => Some x
           | None => one
           end
      else one
  | _ => one
  end.

(** [(\d{n})]. *)
Definition digitsN {A} (n : nat) (k : jsstr -> jsstr -> option A)
    (s : jsstr) : option A :=
  if (n <=? length s)%nat && forallb isDigit (take n s)
  then k (take n s) (drop n s) else None.

(** Succeeds at the end of the input. *)
Definition eoi (s : jsstr) : option unit :=
  match s with
  | [] => Some tt
  | _ => None
  end.

End Rx.

(* ===================================================================== *)
(** ** The municipal listing adapter: [fetchGiessenDe] *)
(* ===================================================================== *)

(** What the page gives for one [ul li]: the text of the item and, when
    there is one, the first anchor whose [href] contains
    [/Veranstaltungen/], with its [href] attribute and its text. *)
Record Anchor := { a_href : option jsstr; a_text : jsstr }.
Record ListItem := { li_text : jsstr; li_link : option Anchor }.

(** [s.replace(/\s+/g, ' ')]. *)
Fixpoint collapseFrom (inRun : bool) (s : jsstr) : jsstr :=
  match s with
  | [] => []
  | c :: r =>
      if isSpace c then
        if inRun then collapseFrom true r else 32%N :: collapseFrom true r
      else c :: collapseFrom false r
  end.

Definition collapse (s : jsstr) : jsstr := collapseFrom false s.

Fixpoint span (p : N -> bool) (s : jsstr) : jsstr * jsstr :=
  match s with
  | c :: r => if p c then let '(a, b) := span p r in (c :: a, b) else ([], s)
  | [] => ([], [])
  end.

(** [href.match(/Veranstaltungen\/([^.?]+)/)], the capture. *)
Definition slugChar (c : N) : bool := negb ((c =? 46) || (c =? 63))%N.

Definition slugMatch (href : jsstr) : option jsstr :=
  Rx.firstMatch
    (Rx.str (lit "Veranstaltungen/")
       (λ r, match fst (span slugChar r) with
             | [] => None
             | slug => Some slug
             end))
    href.

(** [s.replace(/-/g, ' ')]. *)
Definition replaceHyphens (s : jsstr) : jsstr :=
  map (λ c, if (c =? 45)%N then 32%N else c) s.

(** [s.replace(/\.php$/, '')]. *)
Definition stripPhp (s : jsstr) : jsstr :=
  if startsWith (rev s) (rev (lit ".php"))
  then take (length s - 4) s else s.

(** [.+?\s{2,}] at the head of [s]: what is left after the match. *)
Fixpoint lazyThenSpaces (s : jsstr) : option jsstr :=
  match s with
  | [] => None
  | c :: r =>
      if Rx.isLineTerminator c then None
      else match r with
           | a :: b :: _ =>
               if isSpace a && isSpace b then Some (trimStart r)
               else lazyThenSpaces r
           | _ => lazyThenSpaces r
           end
  end.

(** [s.replace(/^©\s*.+?\s{2,}/, '')]. *)
Definition stripAttribution (s : jsstr) : jsstr :=
  match s with
  | 169%N :: r => default s (Rx.spaces0 lazyThenSpaces r)
  | _ => s
  end.

(** [s.replace(/^©\s*/, '')]. *)
Definition stripCopyright (s : jsstr) : jsstr :=
  match s with
  | 169%N :: r => trimStart r
  | _ => s
  end.

(** [!name || name.length < 3]. *)
Definition unusable (name : option jsstr) : bool :=
  negb (truthy name) || (length (default [] name) <? 3)%nat.

(** The labels of the navigation pattern, matched with the [i] flag.
    Case folding of a pattern character below 128 only identifies it
    with other characters below 128. *)
Definition navLabels : list string :=
  ["heute"; "morgen"; "diese Woche"; "dieses Wochenende"; "4 Wochen";
   "Veranstaltungen"; "Musikalischer Sommer"; "Raumkataster";
   "index"]%string.

Definition foldCase (c : N) : N :=
  if ((97 <=? c) && (c <=? 122))%N then (c - 32)%N else c.

Definition isNavLabel (name : jsstr) : bool :=
  existsb (λ l, streq (map foldCase name) (map foldCase (lit l))) navLabels.

(** [s.padStart(2, '0')]. *)
Definition padStart2 (s : jsstr) : jsstr :=
  replicate (2 - length s) 48%N ++ s.

(** [parseDateDE(str)]. *)
Definition parseDateDE (str : option jsstr) : option jsstr :=
  if negb (truthy str) then None
  else
    Rx.firstMatch
      (Rx.digits12 46 (λ d,
       Rx.digits12 46 (λ mo,
       Rx.digitsN 4 (λ y rest,
         let out (h min : jsstr) :=
           y ++ lit "-" ++ padStart2 mo ++ lit "-" ++ padStart2 d
             ++ lit "T" ++ padStart2 h ++ lit ":" ++ padStart2 min
             ++ lit ":00" in
         match Rx.spaces1
                 (Rx.digits12 58 (λ h,
                  Rx.digitsN 2 (λ min _, Some (out h min)))) rest with
         | Some r => Some r
         | None => Some (out (lit "00") (lit "00"))
         end))))
      (default [] str).

(** The three date patterns tried on the text of an item, and the
    [date] and [dateEnd] they give. *)
Definition singleMatch (text : jsstr) : option (jsstr * jsstr) :=
  Rx.firstMatch
    (Rx.date10 (λ d,
     Rx.spaces1 (Rx.time5 (λ t,
       Rx.opt (λ k, Rx.spaces1 (Rx.str (lit "bis")
                      (Rx.spaces1 (Rx.time5 (λ _, k)))))
         (Rx.spaces0 (Rx.str (lit "Uhr") (λ _, Some (d, t))))))))
    text.

Definition rangeMatch (text : jsstr) : option (jsstr * jsstr) :=
  Rx.firstMatch
    (Rx.date10 (λ d1,
     Rx.spaces1 (Rx.str (lit "bis")
       (Rx.spaces1 (Rx.date10 (λ d2 _, Some (d1, d2)))))))
    text.

Definition dateOnly (text : jsstr) : option jsstr :=
  Rx.firstMatch (Rx.date10 (λ d _, Some d)) text.

Definition extractDates (text : jsstr) : option jsstr * option jsstr :=
  match singleMatch text with
  | Some (d, t) => (parseDateDE (Some (d ++ lit " " ++ t)), None)
  | None =>
      match rangeMatch text with
      | Some (d1, d2) => (parseDateDE (Some d1), parseDateDE (Some d2))
      | None =>
          match dateOnly text with
          | Some d => (parseDateDE (Some d), None)
          | None => (None, None)
          end
      end
  end.

(** [(.+?)(?:\s+Mehr\s*\.\.\.)?$] at the head of [s], the capture. *)
Definition mehrTail (s : jsstr) : bool :=
  bool_decide
    (is_Some (Rx.spaces1 (Rx.str (lit "Mehr")
                (Rx.spaces0 (Rx.str (lit "...") Rx.eoi))) s)).

Fixpoint lazyToEnd (s : jsstr) : option jsstr :=
  match s with
  | [] => None
  | c :: r =>
      if Rx.isLineTerminator c then None
      else if mehrTail r || bool_decide (r = []) then Some [c]
      else cons c <$> lazyToEnd r
  end.

(** [text.match(/Uhr\s+(.+?)(?:\s+Mehr\s*\.\.\.)?$/)], the capture. *)
Definition descMatch (text : jsstr) : option jsstr :=
  Rx.firstMatch (Rx.str (lit "Uhr") (Rx.spaces1 lazyToEnd)) text.

(** [text.match(/\d{4}\s+(.{10,}?)$/)], the capture. *)
Definition afterDate (text : jsstr) : option jsstr :=
  Rx.firstMatch
    (Rx.digitsN 4 (λ _,
     Rx.spaces1 (λ r,
       if (10 <=? length r)%nat
          && forallb (λ c, negb (Rx.isLineTerminator c)) r
       then Some r else None)))
    text.

Definition extractDescription (text : jsstr) : option jsstr :=
  match descMatch text with
  | Some d => Some (slice0 200 d)
  | None => slice0 200 <$> afterDate text
  end.

(** [name.split(/\d{2}\.\d{2}\.\d{4}/)[0]]. *)
Fixpoint beforeDate (s : jsstr) : jsstr :=
  match Rx.date10 (λ _ _, Some tt) s with
  | Some _ => []
  | None =>
      match s with
      | [] => []
      | c :: r => c :: beforeDate r
      end
  end.

Definition BASE : jsstr := lit "https://www.giessen.de".

(** Gießen. *)
Definition GIESSEN : jsstr := [71; 105; 101; 223; 101; 110]%N.

Section Giessen.
Context `{Runtime}.

(** The name recovered from the slug of the link, if any. *)
Definition slugName (href : option jsstr) : Completion (option jsstr) :=
  if truthy href then
    match slugMatch (default [] href) with
    | Some slug =>
        match decodeURIComponent slug with
        | Some decoded =>
            Normal (Some (trim (stripPhp (replaceHyphens decoded))))
        | None => Throw "URIError"
        end
    | None => Normal None
    end
  else Normal None.

(** The date filter: [true] when the item passes. *)
Definition inRange (startTs endTs : num) (date dateEnd : option jsstr)
  : bool :=
  if truthy date then
    let eventTs := getTime (dateParse (default [] date)) in
    let eventEndTs :=
      if truthy dateEnd then getTime (dateParse (default [] dateEnd))
      else eventTs in
    negb (num_lt eventEndTs startTs || num_gt eventTs endTs)
  else true.

(** The callback of [$('ul li').each]: [Normal None] when it returns
    without pushing, [Normal (Some e)] when it pushes [e]. *)
Definition giessenItem (startTs endTs : num) (el : ListItem)
  : Completion (option Event) :=
  match li_link el with
  | None => Normal None
  | Some link =>
      let text := trim (collapse (li_text el)) in
      let href := a_href link in
      let rawText := trim (collapse (a_text link)) in
      match slugName href with
      | Throw err => Throw err
      | Normal name =>
          let name :=
            if unusable name
            then trim (stripCopyright (stripAttribution rawText))
            else default [] name in
          if unusable (Some name) then Normal None
          else if isNavLabel name then Normal None
          else if truthy href && includes (default [] href) (lit "index.php?")
          then Normal None
          else
            let '(date, dateEnd) := extractDates text in
            if negb (inRange startTs endTs date dateEnd) then Normal None
            else
              let description := extractDescription text in
              let first := trim (beforeDate name) in
              Normal (Some {|
                name := Some (if truthy (Some first) then first else name);
                date := date;
                venue := None;
                address := Some GIESSEN;
                type := lit "other";
                url :=
                  if truthy href then
                    Some (if startsWith (default [] href) (lit "http")
                          then default [] href
                          else BASE ++ default [] href)
                  else None;
                price := None;
                source := lit "giessen.de";
                description := description
              |})
      end
  end.

(** The loop over the items; a throw leaves it. *)
Fixpoint giessenEach (startTs endTs : num) (els : list ListItem)
    (events : list Event) : Completion (list Event) :=
  match els with
  | [] => Normal events
  | el :: rest =>
      match giessenItem startTs endTs el with
      | Throw err => Throw err
      | Normal None => giessenEach startTs endTs rest events
      | Normal (Some e) => giessenEach startTs endTs rest (events ++ [e])
      end
  end.

(** [fetchGiessenDe(dateRange, opts)] on the outcome of the request:
    the list items of the page, or the error of a failed request. *)
Definition fetchGiessenDe (dateRange : DateRange)
    (page : Completion (list ListItem)) : ProviderResult :=
  match page with
  | Throw err => {| events := []; status := StatusError err |}
  | Normal els =>
      let startTs := getTime (start dateRange) in
      let endTs := getTime (end_ dateRange) in
      match giessenEach startTs endTs els [] with
      | Normal events =>
          {| events := events; status := StatusOk (length events) |}
      | Throw err => {| events := []; status := StatusError err |}
      end
  end.

End Giessen.

(* ===================================================================== *)
(** ** The structured API adapter: [fetchTicketmaster] *)
(* ===================================================================== *)

(** The fields read from one item of [data._embedded.events].  A price
    range is given by the text its [min] prints as. *)
Record TmItem := {
  tm_name : option jsstr;
  tm_dateTime : option jsstr;
  tm_localDate : option jsstr;
  tm_venueName : option jsstr;
  tm_line1 : option jsstr;
  tm_cityName : option jsstr;
  tm_segmentName : option jsstr;
  tm_url : option jsstr;
  tm_priceRanges : option (list jsstr);
  tm_info : option jsstr;
  tm_pleaseNote : option jsstr
}.

(** [[a, b].filter(Boolean).join(', ')]. *)
Definition joinParts (a b : option jsstr) : jsstr :=
  match truthy a, truthy b with
  | true, true => default [] a ++ lit ", " ++ default [] b
  | true, false => default [] a
  | false, true => default [] b
  | false, false => []
  end.

(** The euro sign. *)
Definition EURO : N := 8364%N.

Section Ticketmaster.
Context `{Runtime}.

(** The callback of [data._embedded.events.map]. *)
Definition tmEvent (e : TmItem) : Completion Event :=
  match
    match tm_priceRanges e with
    | None => Normal None
    | Some [] => Throw "TypeError"
    | Some (min :: _) => Normal (Some (lit "Ab " ++ min ++ [EURO]))
    end
  with
  | Throw err => Throw err
  | Normal price =>
      Normal {|
        name := tm_name e;
        date := if truthy (tm_dateTime e) then tm_dateTime e
                else or_null (tm_localDate e);
        venue := or_null (tm_venueName e);
        address := Some (joinParts (tm_line1 e) (tm_cityName e));
        type := or_else (toLowerCase <$> tm_segmentName e) (lit "other");
        url := tm_url e;
        price := price;
        source := lit "ticketmaster";
        description :=
          or_null (Some (slice0 200
                           (or_else (tm_info e)
                              (or_else (tm_pleaseNote e) []))))
      |}
  end.

Fixpoint tmMap (items : list TmItem) : Completion (list Event) :=
  match items with
  | [] => Normal []
  | e :: rest =>
      match tmEvent e with
      | Throw err => Throw err
      | Normal ev =>
          match tmMap rest with
          | Throw err => Throw err
          | Normal evs => Normal (ev :: evs)
          end
      end
  end.

(** [fetchTicketmaster(dateRange, opts)] on the configured key and the
    outcome of the request: [Normal None] when the response has no
    [_embedded.events]. *)
Definition fetchTicketmaster (apiKey : option jsstr) (dateRange : DateRange)
    (response : Completion (option (list TmItem))) : ProviderResult :=
  if negb (truthy apiKey) then {| events := []; status := StatusSkip |}
  else if negb (isValid (start dateRange) && isValid (end_ dateRange))
  then {| events := [];
          status := StatusError "Invalid time value" |}
  else
    match response with
    | Throw err => {| events := []; status := StatusError err |}
    | Normal None => {| events := []; status := StatusOk 0 |}
    | Normal (Some items) =>
        match tmMap items with
        | Throw err => {| events := []; status := StatusError err |}
        | Normal events =>
            {| events := events; status := StatusOk (length events) |}
        end
    end.

End Ticketmaster.

(* ===================================================================== *)
(** ** Structured data and cards: [fetchMeetup], [fetchDeskline] *)
(* ===================================================================== *)

(** The fields read from one object of a JSON-LD block. *)
Record LdItem := {
  ld_type : option jsstr;
  ld_name : option jsstr;
  ld_startDate : option jsstr;
  ld_locationName : option jsstr;
  ld_streetAddress : option jsstr;
  ld_url : option jsstr;
  ld_free : bool;
  ld_description : option jsstr
}.

(** A JSON-LD script block: the objects of its content, or [None] when
    [JSON.parse] throws on it (the block is then skipped). *)
Definition LdBlock := option (list LdItem).

(** What the page gives for one card: the text of its first title
    element ([None] when it has none), the first [time] or date element
    with its [datetime] attribute and its text, the text of the venue
    element and the target of the first link. *)
Record TimeEl := { t_datetime : option jsstr; t_text : jsstr }.

Record Card := {
  c_title : option jsstr;
  c_time : option TimeEl;
  c_venue : option jsstr;
  c_link : option jsstr
}.

(** [dateEl?.getAttribute('datetime') || dateEl?.textContent?.trim()
     || null]. *)
Definition cardDate (t : option TimeEl) : option jsstr :=
  if truthy (t ≫= t_datetime) then t ≫= t_datetime
  else or_null (trim <$> (t_text <$> t)).

(** *** Meetup (the earlier revision of [index.js]) *)

Definition MEETUP : jsstr := lit "https://www.meetup.com".

Definition meetupLd (item : LdItem) : option Event :=
  if is_str (ld_type item) (lit "Event")
     || is_str (ld_type item) (lit "SocialEvent")
  then Some {|
    name := ld_name item;
    date := or_null (ld_startDate item);
    venue := or_null (ld_locationName item);
    address := or_null (ld_streetAddress item);
    type := lit "meetup";
    url := or_null (ld_url item);
    price := if ld_free item then Some (lit "Kostenlos") else None;
    source := lit "meetup";
    description := or_null (Some (slice0 200 (or_else (ld_description item) [])))
  |}
  else None.

(** The fallback over the event cards: [if (name) events.push(...)]. *)
Definition meetupCard (c : Card) : option Event :=
  let name := trim (default [] (c_title c)) in
  let link := c_link c in
  let dateText :=
    if truthy (c_time c ≫= t_datetime) then c_time c ≫= t_datetime
    else Some (trim (default [] (t_text <$> c_time c))) in
  if truthy (Some name) then
    Some {|
      name := Some name;
      date := or_null dateText;
      venue := None;
      address := None;
      type := lit "meetup";
      url :=
        if truthy link then
          Some (if startsWith (default [] link) (lit "http")
                then default [] link
                else MEETUP ++ default [] link)
        else None;
      price := None;
      source := lit "meetup";
      description := None
    |}
  else None.

Definition ldEvents (ld : LdItem -> option Event) (blocks : list LdBlock)
  : list Event :=
  omap ld (concat (omap id blocks)).

(** [fetchMeetup(dateRange, opts)] on the outcome of the request: the
    JSON-LD blocks and the event cards of the page. *)
Definition fetchMeetup (page : Completion (list LdBlock * list Card))
  : ProviderResult :=
  match page with
  | Throw err => {| events := []; status := StatusError err |}
  | Normal (blocks, cards) =>
      let events := ldEvents meetupLd blocks in
      let events :=
        if (length events =? 0)%nat then omap meetupCard cards else events in
      {| events := events; status := StatusOk (length events) |}
  end.

(** *** Deskline ([providers/deskline.js]) *)

Record City := { city_name : jsstr; city_source : jsstr }.

Definition CITIES (cityKey : jsstr) : option City :=
  if streq cityKey (lit "marburg") then
    Some {| city_name := lit "Marburg"; city_source := lit "marburg.de" |}
  else if streq cityKey (lit "wetzlar") then
    Some {| city_name := lit "Wetzlar"; city_source := lit "wetzlar.de" |}
  else None.

(** The records built inside the page, before normalisation. *)
Record RawEvent := {
  r_name : option jsstr;
  r_date : option jsstr;
  r_venue : option jsstr;
  r_address : option jsstr;
  r_url : option jsstr;
  r_description : option jsstr
}.

Definition desklineLd (item : LdItem) : option RawEvent :=
  if is_str (ld_type item) (lit "Event")
  then Some {|
    r_name := ld_name item;
    r_date := or_null (ld_startDate item);
    r_venue := or_null (ld_locationName item);
    r_address := or_null (ld_streetAddress item);
    r_url := or_null (ld_url item);
    r_description := Some (slice0 200 (or_else (ld_description item) []))
  |}
  else None.

(** A card of a Deskline frame: [if (!name || name.length < 3) continue]. *)
Definition frameCard (c : Card) : option RawEvent :=
  let name := trim <$> c_title c in
  if unusable name then None
  else Some {|
    r_name := name;
    r_date := cardDate (c_time c);
    r_venue := or_null (trim <$> c_venue c);
    r_address := None;
    r_url := or_null (c_link c);
    r_description := None
  |}.

(** A card of the main page, tried when the frames gave nothing. *)
Definition mainCard (c : Card) : option RawEvent :=
  let name := trim <$> c_title c in
  if unusable name then None
  else Some {|
    r_name := name;
    r_date := cardDate (c_time c);
    r_venue := None;
    r_address := None;
    r_url := or_null (c_link c);
    r_description := None
  |}.

(** What [frame.evaluate] returns for one Deskline frame. *)
Definition frameExtract (frame : list LdBlock * list Card) : list RawEvent :=
  omap desklineLd (concat (omap id (fst frame))) ++ omap frameCard (snd frame).

(** [events.map(e => ({ ... }))]. *)
Definition normalize (city : City) (e : RawEvent) : Event := {|
  name := r_name e;
  date := r_date e;
  venue := r_venue e;
  address := Some (or_else (r_address e) (city_name city));
  type := lit "other";
  url := r_url e;
  price := None;
  source := city_source city;
  description := r_description e
|}.

(** [fetchDeskline(cityKey, dateRange, opts)] on the outcome of the
    browser session: the Deskline frames of the page and the cards of
    the main document. *)
Definition fetchDeskline (cityKey : jsstr)
    (session : Completion (list (list LdBlock * list Card) * list Card))
  : ProviderResult :=
  match CITIES cityKey with
  | None => {| events := []; status := StatusError "unknown city" |}
  | Some city =>
      match session with
      | Throw err => {| events := []; status := StatusError err |}
      | Normal (frames, mainCards) =>
          let events := concat (map frameExtract frames) in
          let events :=
            if (length events =? 0)%nat
            then events ++ omap mainCard mainCards else events in
          let normalized := map (normalize city) events in
          {| events := normalized; status := StatusOk (length normalized) |}
      end
  end.

(* ===================================================================== *)
(** ** Command line and environment: [parseArgs], [loadEnv] *)
(* ===================================================================== *)

(** The options record of [parseArgs]. *)
Record Opts := {
  o_city : jsstr;
  o_radius : num;
  o_type : jsstr;
  o_limit : num;
  o_date : option jsstr;
  o_json : bool
}.

Definition set_o_city (v : jsstr) (o : Opts) : Opts :=
  {| o_city := v; o_radius := o_radius o; o_type := o_type o;
     o_limit := o_limit o; o_date := o_date o; o_json := o_json o |}.

Definition set_o_radius (v : num) (o : Opts) : Opts :=
  {| o_city := o_city o; o_radius := v; o_type := o_type o;
     o_limit := o_limit o; o_date := o_date o; o_json := o_json o |}.

Definition set_o_type (v : jsstr) (o : Opts) : Opts :=
  {| o_city := o_city o; o_radius := o_radius o; o_type := v;
     o_limit := o_limit o; o_date := o_date o; o_json := o_json o |}.

Definition set_o_limit (v : num) (o : Opts) : Opts :=
  {| o_city := o_city o; o_radius := o_radius o; o_type := o_type o;
     o_limit := v; o_date := o_date o; o_json := o_json o |}.

Definition set_o_date (v : option jsstr) (o : Opts) : Opts :=
  {| o_city := o_city o; o_radius := o_radius o; o_type := o_type o;
     o_limit := o_limit o; o_date := v; o_json := o_json o |}.

Section Args.

(** The built-in [parseInt] on a string. *)
Variable parseInt : jsstr -> num.

(** One line of the loop:
    [if (args[i] === flag && args[i+1]) opts.x = ...args[++i]]. *)
Definition takeFlag (args : list jsstr) (flag : string)
    (set : jsstr -> Opts -> Opts) (st : nat * Opts) : nat * Opts :=
  let '(i, opts) := st in
  let next := args !! S i in
  if is_str (args !! i) (lit flag) && truthy next
  then (S i, set (default [] next) opts)
  else (i, opts).

(** The body of the loop: the five lines in turn, each seeing the index
    the one before has left. *)
Definition argsBody (args : list jsstr) (st : nat * Opts) : nat * Opts :=
  let st := takeFlag args "--radius" (λ v, set_o_radius (parseInt v)) st in
  let st := takeFlag args "--type" set_o_type st in
  let st := takeFlag args "--date" (λ v, set_o_date (Some v)) st in
  let st := takeFlag args "--limit" (λ v, set_o_limit (parseInt v)) st in
  takeFlag args "--city" set_o_city st.

(** [for (let i = 0; i < args.length; i++) { ... }], from the index [i].
    The index grows by at least one in every round, so [fuel] rounds
    are enough as soon as [fuel] is the number of arguments left. *)
Fixpoint argsLoop (fuel : nat) (args : list jsstr) (i : nat) (opts : Opts)
  : Opts :=
  match fuel with
  | O => opts
  | S fuel =>
      if (i <? length args)%nat then
        let '(i', opts') := argsBody args (i, opts) in
        argsLoop fuel args (S i') opts'
      else opts
  end.

(** [parseArgs()], on the arguments after the script name and the two
    environment variables it reads. *)
Definition parseArgs (CITY RADIUS_KM : option jsstr) (args : list jsstr)
  : Opts :=
  let opts := {|
    o_city := or_else CITY GIESSEN;
    o_radius := parseInt (or_else RADIUS_KM (lit "30"));
    o_type := lit "all";
    o_limit := Fin 30;
    o_date := None;
    o_json := bool_decide (lit "--json" ∈ args)
  |} in
  argsLoop (length args) args 0 opts.

End Args.

(** The process environment: the assignments made, the latest first. *)
Definition Env := list (jsstr * jsstr).

(** [process.env[name]]. *)
Fixpoint env_get (env : Env) (name : jsstr) : option jsstr :=
  match env with
  | [] => None
  | (k, v) :: rest => if streq k name then Some v else env_get rest name
  end.

(** [process.env[name] = v]. *)
Definition env_set (env : Env) (name v : jsstr) : Env := (name, v) :: env.

Definition isUpper (c : N) : bool := ((65 <=? c) && (c <=? 90))%N.

(** [line.match(re)] for the pattern of [loadEnv]: a name made of a
    capital letter or underscore and then capital letters, digits and
    underscores, the sign [=], and one or more characters other than
    line terminators up to the end of the line.  The two captures. *)
Definition matchLine (line : jsstr) : option (jsstr * jsstr) :=
  match line with
  | c :: r =>
      if isUpper c || (c =? 95)%N then
        let '(name, rest) :=
          span (λ x, isUpper x || isDigit x || (x =? 95)%N) r in
        match rest with
        | eq :: value =>
            if (eq =? 61)%N
               && negb (bool_decide (value = []))
               && forallb (λ x, negb (Rx.isLineTerminator x)) value
            then Some (c :: name, value)
            else None
        | [] => None
        end
      else None
  | [] => None
  end.

(** The body of the inner loop, for one line of a file. *)
Definition loadLine (env : Env) (line : jsstr) : Env :=
  match matchLine line with
  | Some (name, value) =>
      if negb (truthy (env_get env name)) then env_set env name (trim value)
      else env
  | None => env
  end.

(** One file: [None] when it does not exist. *)
Definition loadFile (env : Env) (file : option jsstr) : Env :=
  match file with
  | Some content => foldl loadLine env (split_on 10 content)
  | None => env
  end.

(** [loadEnv()], on the contents of the central secrets file and of the
    local [.env], in that order. *)
Definition loadEnv (env : Env) (secrets local : option jsstr) : Env :=
  loadFile (loadFile env secrets) local.

(* ===================================================================== *)
(** ** The cache: [readCache], [writeCache] *)
(* ===================================================================== *)

Definition CACHE_TTL_MS : Z := 30 * 60 * 1000.

(** What a file of the cache directory holds: the object [writeCache]
    wrote, or something [JSON.parse] throws on. *)
Inductive CacheFile :=
  | Entry (ts : Z) (payload : list Event)
  | Unreadable.

(** The cache directory: the files written, the latest first, under
    their names. *)
Definition CacheDir := list (jsstr * CacheFile).

Fixpoint dir_get (dir : CacheDir) (f : jsstr) : option CacheFile :=
  match dir with
  | [] => None
  | (k, v) :: rest => if streq k f then Some v else dir_get rest f
  end.

(** [fs.writeFileSync(f, ...)] and [fs.unlinkSync(f)]. *)
Definition dir_write (dir : CacheDir) (f : jsstr) (c : CacheFile) : CacheDir :=
  (f, c) :: dir.

Definition dir_unlink (dir : CacheDir) (f : jsstr) : CacheDir :=
  List.filter (λ kv, negb (streq (fst kv) f)) dir.

Section Cache.

(** The hexadecimal MD5 digest of a string. *)
Variable md5 : jsstr -> jsstr.

(** [cacheFile(key)], as the name of the file in the cache directory. *)
Definition cacheFile (key : jsstr) : jsstr := md5 key ++ lit ".json".

(** [readCache(key)] at the time [now] of [Date.now()]: the value
    returned and the directory afterwards. *)
Definition readCache (dir : CacheDir) (now : Z) (key : jsstr)
  : option (list Event) * CacheDir :=
  let f := cacheFile key in
  match dir_get dir f with
  | None => (None, dir)
  | Some Unreadable => (None, dir)
  | Some (Entry ts payload) =>
      if CACHE_TTL_MS <? now - ts then (None, dir_unlink dir f)
      else (Some payload, dir)
  end.

(** [writeCache(key, payload)] at the time [now]. *)
Definition writeCache (dir : CacheDir) (now : Z) (key : jsstr)
    (payload : list Event) : CacheDir :=
  dir_write dir (cacheFile key) (Entry now payload).

End Cache.

(* ===================================================================== *)
(** ** The run: [main] up to the list it prints *)
(* ===================================================================== *)

Section Main.
Context `{Runtime}.

(** The hexadecimal MD5 digest; date-fns [format(d, 'yyyy-MM-dd')] on a
    valid date; the text of a number in a template literal. *)
Variable md5 : jsstr -> jsstr.
Variable formatDay : Z -> jsstr.
Variable numberText : num -> jsstr.

(** [format(d, 'yyyy-MM-dd')], which throws on an Invalid Date. *)
Definition formatKeyDate (d : Date) : Completion jsstr :=
  match d with
  | Some t => Normal (formatDay t)
  | None => Throw "RangeError: Invalid time value"
  end.

(** The template literal of the cache key. *)
Definition cacheKey (opts : Opts) (dateRange : DateRange)
  : Completion jsstr :=
  match formatKeyDate (start dateRange) with
  | Throw e => Throw e
  | Normal s =>
      match formatKeyDate (end_ dateRange) with
      | Throw e => Throw e
      | Normal e =>
          Normal (lit "events_" ++ o_city opts ++ lit "_" ++ s ++ lit "_"
                  ++ e ++ lit "_" ++ numberText (o_radius opts))
      end
  end.

(** The first two statements after [parseArgs]: the range and the key. *)
Definition mainKey (opts : Opts) (clock : Z) : Completion jsstr :=
  match getDateRange clock (o_date opts) with
  | Throw e => Throw e
  | Normal dateRange => cacheKey opts dateRange
  end.

(** [main()] from the options on: the list handed to the output step and
    the cache directory afterwards.  [clock] is the reading of
    [new Date()] in [getDateRange], [tRead] and [tWrite] those of
    [Date.now()] in [readCache] and [writeCache]; [results] are the
    values of the adapters' promises, which are only awaited when the
    cache has nothing. *)
Definition mainRun (opts : Opts) (clock tRead tWrite : Z) (dir : CacheDir)
    (results : list ProviderResult)
  : Completion (list Event * CacheDir) :=
  match mainKey opts clock with
  | Throw e => Throw e
  | Normal key =>
      match readCache md5 dir tRead key with
      | (Some cached, dir) => Normal (cached, dir)
      | (None, dir) =>
          let allEvents := mainEvents (o_type opts) results in
          Normal (allEvents, writeCache md5 dir tWrite key allEvents)
      end
  end.

End Main.

(* ===================================================================== *)
(** ** Predicates used in the statements *)
(* ===================================================================== *)

(** The clock readings for which nine more days are still valid dates. *)
Definition clock_ok (clock : Z) : Prop :=
  - maxTime <= clock <= maxTime - 9 * msPerDay.

(** [a > b] on dates, as JavaScript compares them: false as soon as one
    side is an Invalid Date. *)
Definition date_gt (a b : Date) : Prop :=
  match a, b with
  | Some x, Some y => x > y
  | _, _ => False
  end.

Section ResolverSpec.
Context `{Runtime}.

(** The date expressions the resolver is meant for, the pair form being
    restricted to pairs in calendar order.  [parseISO] decides what an
    ISO date is. *)
Inductive AcceptedInOrder : option jsstr -> Prop :=
  | acc_absent d :
      truthy d = false -> AcceptedInOrder d
  | acc_today :
      AcceptedInOrder (Some (lit "today"))
  | acc_weekend :
      AcceptedInOrder (Some (lit "weekend"))
  | acc_single s t :
      includes s (lit ":") = false ->
      parseISO s = Some t -> - maxTime <= t < maxTime ->
      AcceptedInOrder (Some s)
  | acc_pair s a b ta tb :
      includes s (lit ":") = true ->
      split_on 58 s = [a; b] ->
      parseISO a = Some ta -> parseISO b = Some tb ->
      - maxTime <= ta -> tb < maxTime ->
      Day ta <= Day tb ->
      AcceptedInOrder (Some s).

(** A colon-joined pair of ISO dates whose second date falls on an
    earlier day than the first. *)
Inductive ReversedPair : option jsstr -> Prop :=
  | rev_pair s a b ta tb :
      includes s (lit ":") = true ->
      split_on 58 s = [a; b] ->
      parseISO a = Some ta -> parseISO b = Some tb ->
      - maxTime <= tb -> ta <= maxTime ->
      Day tb < Day ta ->
      ReversedPair (Some s).

(** A date expression that is none of the recognized forms. *)
Definition Malformed (s : jsstr) : Prop :=
  s ≠ [] ∧ s ≠ lit "today" ∧ s ≠ lit "weekend" ∧
  if includes s (lit ":")
  then parseISO_arg (split_on 58 s !! 0%nat) = None
       ∨ parseISO_arg (split_on 58 s !! 1%nat) = None
  else parseISO s = None.

End ResolverSpec.

#[global] Instance num_eq_dec : EqDecision num.
Proof. solve_decision. Defined.

(** [a <= b] on numbers: false when a side is [NaN]. *)
Definition num_le (a b : num) : bool :=
  match a, b with
  | NaN, _ | _, NaN => false
  | NegInf, _ | _, PosInf => true
  | _, NegInf | PosInf, _ => false
  | Fin x, Fin y => x <=? y
  end.

(** [a] may stand right before [b]: it does not compare greater. *)
Definition in_order {A} (comparefn : A -> A -> num) (a b : A) : Prop :=
  after (comparefn a b) = false.

(** The fields [dedup] never assigns agree. *)
Definition same_identity (e e' : Event) : Prop :=
  name e' = name e ∧ date e' = date e ∧ address e' = address e
  ∧ type e' = type e ∧ url e' = url e ∧ description e' = description e.

(** [h'] has the objects of [h], each with the same identity fields. *)
Definition frame (h h' : heap) : Prop :=
  length h' = length h
  ∧ ∀ l e, h !! l = Some e -> ∃ e', h' !! l = Some e' ∧ same_identity e e'.

Section DedupSpec.
Context `{Runtime}.

(** What holds of the map and the heap after the loop of [dedup] has
    gone through the references [seen_so_far] from the heap [h0]. *)
Record loop_inv (h0 : heap) (seen_so_far : list loc)
    (seen : SeenMap) (h : heap) : Prop := {
  inv_frame : frame h0 h;
  inv_untouched : ∀ l, l ∉ map_values seen -> h !! l = h0 !! l;
  inv_sub : sublist (map_values seen) seen_so_far;
  inv_keys : ∀ k l, (k, l) ∈ seen ->
             ∃ e, h0 !! l = Some e ∧ identityKey e = k;
  inv_nodup : NoDup seen.*1
}.

(** The records that stay: the first reference met under each key, in
    the order of the input. *)
Definition firsts (h : heap) (events : list loc) : list loc :=
  map_values (dedup_loop h events).1.

(** The [date] and [dateEnd] extracted from a list item. *)
Definition itemDates (el : ListItem) : option jsstr * option jsstr :=
  extractDates (trim (collapse (li_text el))).

(** A record with a name that is not empty after trimming. *)
Definition named (ev : Event) : Prop :=
  ∃ n, name ev = Some n ∧ trim n ≠ [].

(** The key under which the loop files the record at [l]. *)
Definition keyAt (h : heap) (l : loc) : jsstr :=
  from_option identityKey [] (h !! l).

(** Every date string of the input that counts as a date is one that
    [new Date] can read. *)
Definition dates_parse (h : heap) (events : list loc) : Prop :=
  ∀ l, l ∈ events -> sortTime h l ≠ NaN.

End DedupSpec.

Section KeySpec.
Context `{Runtime}.

(** The two halves of the identity key, left and right of the bar. *)
Definition nameKey (e : Event) : jsstr :=
  slice0 40 (List.filter keyChar (toLowerCase (or_else (name e) []))).

Definition dateKey (e : Event) : jsstr :=
  slice0 10 (or_else (date e) []).

End KeySpec.

(** A record may only change as a merge changes it: its source gets
    longer at the end, and a price or venue it has stays. *)
Definition grows (e e' : Event) : Prop :=
  source e `prefix_of` source e'
  ∧ (truthy (price e) = true -> price e' = price e)
  ∧ (truthy (venue e) = true -> venue e' = venue e).

(** No two whitespace characters stand next to each other. *)
Fixpoint spaced (s : jsstr) : bool :=
  match s with
  | a :: (b :: _) as r => negb (isSpace a && isSpace b) && spaced r
  | _ => true
  end.

(** The shape YYYY-MM-DDTHH:MM:00, every letter a digit. *)
Definition isoLocal (s : jsstr) : bool :=
  match s with
  | [y1; y2; y3; y4; h1; m1; m2; h2; d1; d2; t; hh1; hh2; c1; mi1; mi2;
     c2; z1; z2] =>
      forallb isDigit [y1; y2; y3; y4; m1; m2; d1; d2; hh1; hh2; mi1; mi2]
      && bool_decide ([h1; h2; t; c1; c2; z1; z2] = [45; 45; 84; 58; 58; 48; 48]%N)
  | _ => false
  end.

(** A description of at most 200 code units, or none. *)
Definition short_description (ev : Event) : Prop :=
  (length (default [] (description ev)) <= 200)%nat.

(** A url that starts with http, or none. *)
Definition absolute_url (ev : Event) : Prop :=
  url ev = None ∨ ∃ u, url ev = Some u ∧ startsWith u (lit "http") = true.

(** One or two digits. *)
Definition digits12P (d : jsstr) : Prop :=
  (∃ a, d = [a] ∧ isDigit a = true)
  ∨ (∃ a b, d = [a; b] ∧ isDigit a = true ∧ isDigit b = true).

(** The five options that take a value. *)
Definition valueFlags : list jsstr :=
  [lit "--radius"; lit "--type"; lit "--date"; lit "--limit"; lit "--city"].

Definition isValueFlag (a : jsstr) : bool := bool_decide (a ∈ valueFlags).

(** [v] is a non-empty argument that comes right after [flag]. *)
Definition follows (args : list jsstr) (flag : string) (v : jsstr) : Prop :=
  ∃ i, args !! i = Some (lit flag) ∧ args !! S i = Some v ∧ v ≠ [].

Section ArgsSpec.
Variable parseInt : jsstr -> num.

(** The record before the loop. *)
Definition defaultOpts (CITY RADIUS_KM : option jsstr) (json : bool) : Opts :=
  {| o_city := or_else CITY GIESSEN;
     o_radius := parseInt (or_else RADIUS_KM (lit "30"));
     o_type := lit "all";
     o_limit := Fin 30;
     o_date := None;
     o_json := json |}.

(** What an option followed by the value [v] does to the record. *)
Definition applyFlag (f v : jsstr) (o : Opts) : Opts :=
  if streq f (lit "--radius") then set_o_radius (parseInt v) o
  else if streq f (lit "--type") then set_o_type v o
  else if streq f (lit "--date") then set_o_date (Some v) o
  else if streq f (lit "--limit") then set_o_limit (parseInt v) o
  else if streq f (lit "--city") then set_o_city v o
  else o.

(** The command line read from left to right: an option that takes a
    value and is followed by a non-empty argument consumes it, the last
    occurrence of an option winning; everything else is passed over. *)
Fixpoint readArgs (args : list jsstr) (o : Opts) : Opts :=
  match args with
  | f :: tl =>
      match tl with
      | v :: rest =>
          if isValueFlag f && truthy (Some v)
          then readArgs rest (applyFlag f v o)
          else readArgs tl o
      | [] => o
      end
  | [] => o
  end.

(** No argument consumed as a value is itself one of the five options. *)
Fixpoint valuesAreNotFlags (args : list jsstr) : bool :=
  match args with
  | f :: tl =>
      match tl with
      | v :: rest =>
          if isValueFlag f && truthy (Some v)
          then negb (isValueFlag v) && valuesAreNotFlags rest
          else valuesAreNotFlags tl
      | [] => true
      end
  | [] => true
  end.

(** Every field of [o] is that of [o0] or was taken from the argument
    after its own option. *)
Definition taken_from (args : list jsstr) (o0 o : Opts) : Prop :=
  (o_city o = o_city o0 ∨ follows args "--city" (o_city o))
  ∧ (o_type o = o_type o0 ∨ follows args "--type" (o_type o))
  ∧ (o_date o = o_date o0 ∨ ∃ v, o_date o = Some v ∧ follows args "--date" v)
  ∧ (o_radius o = o_radius o0
     ∨ ∃ v, o_radius o = parseInt v ∧ follows args "--radius" v)
  ∧ (o_limit o = o_limit o0
     ∨ ∃ v, o_limit o = parseInt v ∧ follows args "--limit" v)
  ∧ o_json o = o_json o0.

End ArgsSpec.

(** A decimal reading of [parseInt], exact on strings of digits. *)
Definition parseDigits (s : jsstr) : num :=
  match s with
  | [] => NaN
  | _ =>
      if forallb isDigit s
      then Fin (fold_left (λ acc c, acc * 10 + Z.of_N (c - 48)) s 0)
      else NaN
  end.

(** The names the pattern of [loadEnv] accepts. *)
Definition envName (n : jsstr) : bool :=
  match n with
  | c :: r =>
      (isUpper c || (c =? 95)%N)
      && forallb (λ x, isUpper x || isDigit x || (x =? 95)%N) r
  | [] => false
  end.

(** The lines of a file that may not exist. *)
Definition fileLines (file : option jsstr) : list jsstr :=
  from_option (split_on 10) [] file.

Section GiessenSpec.
Context `{Runtime}.

(** The name an item has when the callback of the municipal adapter
    reaches the date patterns; [Normal None] when the callback has
    returned before that: no link, no usable name, a navigation label or
    a link to the index. *)
Definition itemName (el : ListItem) : Completion (option jsstr) :=
  match li_link el with
  | None => Normal None
  | Some link =>
      let href := a_href link in
      let rawText := trim (collapse (a_text link)) in
      match slugName href with
      | Throw err => Throw err
      | Normal name =>
          let name :=
            if unusable name
            then trim (stripCopyright (stripAttribution rawText))
            else default [] name in
          if unusable (Some name) then Normal None
          else if isNavLabel name then Normal None
          else if truthy href && includes (default [] href) (lit "index.php?")
          then Normal None
          else Normal (Some name)
      end
  end.

(** The start of an item with a date, and its effective end: its own
    end, or its start when it has no end. *)
Definition itemStart (el : ListItem) : num :=
  getTime (dateParse (default [] (itemDates el).1)).

Definition itemEnd (el : ListItem) : num :=
  if truthy (itemDates el).2
  then getTime (dateParse (default [] (itemDates el).2))
  else itemStart el.

End GiessenSpec.

Section FilterSpec.
Context `{Runtime}.

(** The record [e] stands at index [i] of the list the sources returned
    together, and no record before it has its identity key. *)
Definition first_under_key (allEvents : list Event) (i : nat) (e : Event)
  : Prop :=
  allEvents !! i = Some e
  ∧ ∀ j e', (j < i)%nat -> allEvents !! j = Some e' ->
            identityKey e' ≠ identityKey e.

End FilterSpec.

(* ===================================================================== *)
(** ** Concrete inputs *)
(* ===================================================================== *)

(** 2026-02-28 00:00 UTC, a Saturday. *)
Definition saturday : Z := 1772236800000.

(** The two records of the specification's example, the second one with
    more fields filled in. *)
Definition stadtfest_a : Event := {|
  name := Some (lit "Stadtfest");
  date := Some (lit "2026-06-01T18:00:00");
  venue := None;
  address := None;
  type := lit "other";
  url := None;
  price := None;
  source := lit "a";
  description := None
|}.

Definition stadtfest_b : Event := {|
  name := Some (lit "stadtfest!");
  date := Some (lit "2026-06-01T20:00:00");
  venue := Some (lit "Marktplatz");
  address := Some (lit "Marktplatz 1");
  type := lit "other";
  url := Some (lit "https://example.org/stadtfest");
  price := Some (lit "Ab 5");
  source := lit "b";
  description := Some (lit "Live music")
|}.

(** What the first record is after the second has been merged into it. *)
Definition stadtfest_merged : Event := {|
  name := Some (lit "Stadtfest");
  date := Some (lit "2026-06-01T18:00:00");
  venue := Some (lit "Marktplatz");
  address := None;
  type := lit "other";
  url := None;
  price := Some (lit "Ab 5");
  source := lit "a, b";
  description := None
|}.

(** A record with nothing but a name, a date string and a source. *)
Definition plain (n d : string) : Event := {|
  name := Some (lit n);
  date := if (d =? "")%string then None else Some (lit d);
  venue := None;
  address := None;
  type := lit "other";
  url := None;
  price := None;
  source := lit "deskline";
  description := None
|}.

Definition spring : Event := plain "Ostermarkt" "2026-03-01".
Definition unreadable : Event := plain "Lesung" "Termin folgt".
Definition winter : Event := plain "Neujahrskonzert" "2026-01-01".
Definition undated : Event := plain "Flohmarkt" "".

(** A Ticketmaster item whose name is the empty string. *)
Definition tm_nameless : TmItem := {|
  tm_name := Some [];
  tm_dateTime := Some (lit "2026-06-01T18:00:00Z");
  tm_localDate := Some (lit "2026-06-01");
  tm_venueName := Some (lit "Kongresshalle");
  tm_line1 := Some (lit "Berliner Platz 2");
  tm_cityName := Some GIESSEN;
  tm_segmentName := Some (lit "Music");
  tm_url := Some (lit "https://www.ticketmaster.de/event/1");
  tm_priceRanges := Some [lit "25"];
  tm_info := None;
  tm_pleaseNote := None
|}.

(** A JSON-LD event without a name, and one with a name. *)
Definition ld_nameless : LdItem := {|
  ld_type := Some (lit "Event");
  ld_name := None;
  ld_startDate := Some (lit "2026-06-01");
  ld_locationName := None;
  ld_streetAddress := None;
  ld_url := None;
  ld_free := false;
  ld_description := None
|}.

Definition ld_meetup : LdItem := {|
  ld_type := Some (lit "Event");
  ld_name := Some (lit "Rust Meetup");
  ld_startDate := Some (lit "2026-06-01");
  ld_locationName := None;
  ld_streetAddress := None;
  ld_url := None;
  ld_free := true;
  ld_description := None
|}.

(** A range and a list item of the municipal page inside it. *)
Definition june : DateRange :=
  {| start := Some 1780272000000; end_ := Some 1782863999999 |}.

Definition li_konzert : ListItem := {|
  li_text := lit "Sommerkonzert 12.06.2026 19:30 Uhr Musik im Park Mehr ...";
  li_link := Some {|
    a_href := Some (lit "/Erleben/Veranstaltungen/Sommerkonzert.php?id=7");
    a_text := lit "Sommerkonzert"
  |}
|}.

(** The record the municipal adapter builds from that item. *)
Definition konzert : Event := {|
  name := Some (lit "Sommerkonzert");
  date := Some (lit "2026-06-12T19:30:00");
  venue := None;
  address := Some GIESSEN;
  type := lit "other";
  url := Some (lit "https://www.giessen.de/Erleben/Veranstaltungen/Sommerkonzert.php?id=7");
  price := None;
  source := lit "giessen.de";
  description := Some (lit "Musik im Park")
|}.

(** The same item a year earlier, and an item without a date. *)
Definition li_gestern : ListItem := {|
  li_text := lit "Sommerkonzert 12.06.2025 19:30 Uhr Musik im Park Mehr ...";
  li_link := li_link li_konzert
|}.

Definition li_dauer : ListItem := {|
  li_text := lit "Stadtrundgang jeden Samstag";
  li_link := Some {|
    a_href := Some (lit "/Erleben/Veranstaltungen/Stadtrundgang.php");
    a_text := lit "Stadtrundgang"
  |}
|}.

Definition dauer : Event := {|
  name := Some (lit "Stadtrundgang");
  date := None;
  venue := None;
  address := Some GIESSEN;
  type := lit "other";
  url := Some (lit "https://www.giessen.de/Erleben/Veranstaltungen/Stadtrundgang.php");
  price := None;
  source := lit "giessen.de";
  description := None
|}.

(** A list item whose link has a malformed escape in its slug. *)
Definition li_kaputt : ListItem := {|
  li_text := lit "Fest 13.06.2026";
  li_link := Some {|
    a_href := Some (lit "/Erleben/Veranstaltungen/Fest%E0%A4%A.php");
    a_text := lit "Fest"
  |}
|}.

(** Stand-ins for the digest and for the rendering of days and numbers
    in the examples of the cache; the theorems hold for all such
    functions. *)
Definition plainDigest (key : jsstr) : jsstr := key.

Definition dayNumber (t : Z) : jsstr := [Z.to_N (Day t)].

Definition numberUnit (n : num) : jsstr :=
  match n with
  | Fin z => [Z.to_N z]
  | _ => lit "NaN"
  end.

(** The options of a run without arguments, and of one that asks for
    music as JSON. *)
Definition opts_plain : Opts := parseArgs parseDigits None None [].

Definition opts_music : Opts :=
  parseArgs parseDigits None None [lit "--type"; lit "music"; lit "--json"].

(** Midnight of 1 June 2026 and a reading twenty minutes later. *)
Definition midnight : Z := 1780272000000.

Definition later : Z := 1780273200000.

(** An item of the Ticketmaster response for the concert of [li_konzert],
    and the results of the two sources of [main] for it. *)
Definition tm_konzert : TmItem := {|
  tm_name := Some (lit "Sommerkonzert");
  tm_dateTime := None;
  tm_localDate := Some (lit "2026-06-12");
  tm_venueName := Some (lit "Kongresshalle");
  tm_line1 := None;
  tm_cityName := Some GIESSEN;
  tm_segmentName := Some (lit "Music");
  tm_url := None;
  tm_priceRanges := None;
  tm_info := None;
  tm_pleaseNote := None
|}.

Definition ticketmaster_result : ProviderResult :=
  @fetchTicketmaster Latin1.runtime (Some (lit "key")) june
    (Normal (Some [tm_konzert])).

Definition giessen_result (els : list ListItem) : ProviderResult :=
  @fetchGiessenDe Latin1.runtime june (Normal els).

(* ===================================================================== *)
(** * Properties *)
(* ===================================================================== *)

(** ** Dates *)

Lemma TimeClip_valid t :
  - maxTime <= t <= maxTime -> TimeClip t = Some t.
Proof.
  intros Ht. unfold TimeClip.
  destruct (Z.leb_spec (Z.abs t) maxTime) as [_|Hlt]; [reflexivity | lia].
Qed.

Lemma Day_bounds t : Day t * msPerDay <= t < Day t * msPerDay + msPerDay.
Proof.
  unfold Day, msPerDay.
  pose proof (Z.div_mod t 86400000 ltac:(lia)) as Hdm.
  pose proof (Z.mod_pos_bound t 86400000 ltac:(lia)). lia.
Qed.

Lemma Day_shift t n : Day (t + n * msPerDay) = Day t + n.
Proof. unfold Day, msPerDay. apply Z.div_add. lia. Qed.

Lemma Day_of_midnight d k :
  0 <= k < msPerDay -> Day (d * msPerDay + k) = d.
Proof.
  intros Hk. unfold Day. rewrite Z.add_comm, Z.div_add by (unfold msPerDay; lia).
  rewrite Z.div_small by exact Hk. lia.
Qed.

Lemma startOfDay_valid t :
  - maxTime <= t <= maxTime -> startOfDay (Some t) = Some (Day t * msPerDay).
Proof.
  intros Ht. unfold startOfDay. simpl. apply TimeClip_valid.
  pose proof (Day_bounds t) as Hb.
  assert (- 100000000 <= Day t).
  { unfold Day, msPerDay, maxTime in *. apply Z.div_le_lower_bound; lia. }
  unfold msPerDay, maxTime in *. lia.
Qed.

Lemma endOfDay_valid t :
  - maxTime <= t < maxTime ->
  endOfDay (Some t) = Some (Day t * msPerDay + (msPerDay - 1)).
Proof.
  intros Ht. unfold endOfDay. simpl. apply TimeClip_valid.
  pose proof (Day_bounds t) as Hb.
  assert (- 100000000 <= Day t < 100000000).
  { unfold Day, msPerDay, maxTime in *. split.
    - apply Z.div_le_lower_bound; lia.
    - apply Z.div_lt_upper_bound; lia. }
  unfold msPerDay, maxTime in *. lia.
Qed.

Lemma addDays_valid t n :
  - maxTime <= t + n * msPerDay <= maxTime ->
  addDays (Some t) n = Some (t + n * msPerDay).
Proof.
  intros Ht. unfold addDays. simpl.
  destruct (Z.eqb_spec n 0) as [->|_].
  - f_equal. lia.
  - by apply TimeClip_valid.
Qed.

Lemma WeekDay_range t : 0 <= WeekDay t < 7.
Proof. unfold WeekDay. apply Z.mod_pos_bound. lia. Qed.

Lemma daysUntilSat_spec clock :
  1 <= daysUntilSat clock <= 7
  ∧ daysUntilSat clock =
      (let r := (6 - WeekDay clock + 7) mod 7 in if r =? 0 then 7 else r)
  ∧ (WeekDay clock + daysUntilSat clock) mod 7 = 6.
Proof.
  unfold daysUntilSat, getDay.
  pose proof (WeekDay_range clock) as Hw.
  assert (Hcases : WeekDay clock = 0 ∨ WeekDay clock = 1 ∨ WeekDay clock = 2
                   ∨ WeekDay clock = 3 ∨ WeekDay clock = 4
                   ∨ WeekDay clock = 5 ∨ WeekDay clock = 6) by lia.
  destruct Hcases as [-> | [-> | [-> | [-> | [-> | [-> | ->]]]]]];
    vm_compute; repeat split; congruence.
Qed.

(** ** The date range resolver *)

Section ResolverProps.
Context `{Runtime}.

Lemma getDateRange_absent clock d :
  truthy d = false ->
  getDateRange clock d =
    Normal {| start := startOfDay (Some clock);
              end_ := endOfDay (addDays (Some clock) 7) |}.
Proof. intros Hd. unfold getDateRange. by rewrite Hd. Qed.

Lemma getDateRange_today clock :
  getDateRange clock (Some (lit "today")) =
    Normal {| start := startOfDay (Some clock);
              end_ := endOfDay (Some clock) |}.
Proof. reflexivity. Qed.

Lemma getDateRange_weekend clock :
  getDateRange clock (Some (lit "weekend")) =
    let sat := addDays (Some clock) (daysUntilSat clock) in
    Normal {| start := startOfDay sat; end_ := endOfDay (addDays sat 1) |}.
Proof. reflexivity. Qed.

Lemma truthy_nonempty (s : jsstr) : s ≠ [] -> truthy (Some s) = true.
Proof. by destruct s. Qed.

Lemma streq_false (a b : jsstr) : a ≠ b -> streq a b = false.
Proof. intros Hab. unfold streq. by rewrite bool_decide_eq_false. Qed.

Lemma includes_nil_false p : p ≠ [] -> includes [] p = false.
Proof. by destruct p. Qed.

Lemma getDateRange_pair clock s :
  includes s (lit ":") = true ->
  getDateRange clock (Some s) =
    Normal {| start := startOfDay (parseISO_arg (split_on 58 s !! 0%nat));
              end_ := endOfDay (parseISO_arg (split_on 58 s !! 1%nat)) |}.
Proof.
  intros Hs. unfold getDateRange.
  assert (s ≠ []) as Hne by (intros ->; discriminate Hs).
  rewrite truthy_nonempty by done. simpl. by rewrite Hs.
Qed.

Lemma getDateRange_single clock s :
  s ≠ [] -> s ≠ lit "today" -> s ≠ lit "weekend" ->
  includes s (lit ":") = false ->
  getDateRange clock (Some s) =
    Normal {| start := startOfDay (parseISO s);
              end_ := endOfDay (parseISO s) |}.
Proof.
  intros Hne Ht Hw Hs. unfold getDateRange.
  rewrite truthy_nonempty by done. simpl.
  by rewrite Hs, !streq_false.
Qed.

(** The resolver has no failing path. *)
Lemma getDateRange_returns clock d :
  ∃ r, getDateRange clock d = Normal r.
Proof.
  unfold getDateRange.
  repeat match goal with
         | |- context [if ?b then _ else _] => destruct b
         end; eauto.
Qed.

Ltac bounds := unfold clock_ok, msPerDay, maxTime in *; lia.

Lemma weekly_window clock d :
  clock_ok clock -> truthy d = false ->
  getDateRange clock d =
    Normal {| start := Some (Day clock * msPerDay);
              end_ := Some ((Day clock + 7) * msPerDay + (msPerDay - 1)) |}.
Proof.
  intros Hc Hd. pose proof (Day_bounds clock) as Hb.
  rewrite getDateRange_absent by done.
  rewrite addDays_valid by bounds.
  rewrite startOfDay_valid by bounds.
  rewrite endOfDay_valid by bounds.
  by rewrite Day_shift.
Qed.

Lemma today_window clock :
  clock_ok clock ->
  getDateRange clock (Some (lit "today")) =
    Normal {| start := Some (Day clock * msPerDay);
              end_ := Some (Day clock * msPerDay + (msPerDay - 1)) |}.
Proof.
  intros Hc. pose proof (Day_bounds clock) as Hb.
  rewrite getDateRange_today.
  rewrite startOfDay_valid by bounds.
  by rewrite endOfDay_valid by bounds.
Qed.

Lemma weekend_window clock :
  clock_ok clock ->
  getDateRange clock (Some (lit "weekend")) =
    Normal {| start := Some ((Day clock + daysUntilSat clock) * msPerDay);
              end_ := Some ((Day clock + daysUntilSat clock) * msPerDay
                            + 2 * msPerDay - 1) |}.
Proof.
  intros Hc. pose proof (Day_bounds clock) as Hb.
  destruct (daysUntilSat_spec clock) as (Hrange & _).
  rewrite getDateRange_weekend. cbv zeta.
  set (n := daysUntilSat clock) in *.
  rewrite addDays_valid by bounds.
  rewrite startOfDay_valid by bounds.
  rewrite addDays_valid by bounds.
  rewrite endOfDay_valid by bounds.
  rewrite !Day_shift. do 3 f_equal. lia.
Qed.

(** C7.  On a clock reading that leaves room for nine more days, the
    expression "weekend" resolves to the range from the start of a
    Saturday to the last millisecond of the Sunday after it.  That
    Saturday is [daysUntilSat] days after today, which is
    [((6 - weekday(now) + 7) mod 7) or 7]: between one and seven days
    ahead, and seven days ahead when today is a Saturday. *)
Theorem weekend_is_next_saturday clock :
  clock_ok clock ->
  ∃ sat,
    getDateRange clock (Some (lit "weekend")) =
      Normal {| start := Some sat; end_ := Some (sat + 2 * msPerDay - 1) |}
    ∧ sat = (Day clock + daysUntilSat clock) * msPerDay
    ∧ WeekDay sat = 6
    ∧ WeekDay (sat + 2 * msPerDay - 1) = 0
    ∧ daysUntilSat clock =
        (let r := (6 - WeekDay clock + 7) mod 7 in if r =? 0 then 7 else r)
    ∧ 1 <= daysUntilSat clock <= 7
    ∧ (WeekDay clock = 6 -> Day sat = Day clock + 7).
Proof.
  intros Hc. rewrite weekend_window by done.
  destruct (daysUntilSat_spec clock) as (Hrange & Hdef & Hsat).
  set (n := daysUntilSat clock) in *.
  exists ((Day clock + n) * msPerDay).
  assert (Hday : Day ((Day clock + n) * msPerDay) = Day clock + n).
  { rewrite <- (Z.add_0_r (_ * _)). apply Day_of_midnight.
    unfold msPerDay; lia. }
  repeat split; try lia.
  - unfold WeekDay. rewrite Hday.
    replace (Day clock + n + 4) with (Day clock + 4 + n) by lia.
    rewrite <- Zplus_mod_idemp_l. exact Hsat.
  - unfold WeekDay.
    replace ((Day clock + n) * msPerDay + 2 * msPerDay - 1)
      with ((Day clock + n + 1) * msPerDay + (msPerDay - 1)) by lia.
    rewrite Day_of_midnight by (unfold msPerDay; lia).
    replace (Day clock + n + 1 + 4) with (Day clock + 4 + n + 1) by lia.
    rewrite <- Zplus_mod_idemp_l.
    rewrite <- (Zplus_mod_idemp_l (Day clock + 4)).
    unfold WeekDay in Hsat. rewrite Hsat. reflexivity.
  - intros Hw. rewrite Hday. f_equal.
    rewrite Hdef, Hw. reflexivity.
Qed.

(** C4, amended.  For an absent expression, "today", "weekend", a single
    ISO date, and a pair of ISO dates whose second date is not before
    the first, the resolver returns a range with start ≤ end.  For every
    pair of ISO dates whose second date falls on an earlier day than the
    first, it returns a range with start > end. *)
Theorem accepted_range_ordered clock d :
  clock_ok clock ->
  (AcceptedInOrder d ->
   ∃ r, getDateRange clock d = Normal r ∧ date_le (start r) (end_ r))
  ∧ (ReversedPair d ->
     ∃ r, getDateRange clock d = Normal r ∧ date_gt (start r) (end_ r)).
Proof.
  intros Hc. split; intros Hacc.
  2:{ destruct Hacc as [s a b ta tb Hs Hsp Ha Hb Htb Hta Hord].
      eexists. split; [by apply getDateRange_pair|]. cbn [start end_].
      rewrite Hsp. cbn [lookup list_lookup parseISO_arg]. rewrite Ha, Hb.
      pose proof (Day_bounds ta). pose proof (Day_bounds tb).
      rewrite startOfDay_valid, endOfDay_valid by bounds.
      cbn. unfold msPerDay in *. lia. }
  assert (Hweekly : ∀ d', truthy d' = false ->
            ∃ r, getDateRange clock d' = Normal r ∧ date_le (start r) (end_ r)).
  { intros d' Hd'. eexists. split; [by apply weekly_window|].
    cbn. unfold msPerDay. lia. }
  assert (Htoday :
            ∃ r, getDateRange clock (Some (lit "today")) = Normal r
                 ∧ date_le (start r) (end_ r)).
  { eexists. split; [by apply today_window|]. cbn. unfold msPerDay. lia. }
  assert (Hweekend :
            ∃ r, getDateRange clock (Some (lit "weekend")) = Normal r
                 ∧ date_le (start r) (end_ r)).
  { eexists. split; [by apply weekend_window|]. cbn. unfold msPerDay. lia. }
  destruct Hacc as [d Hd| | |s t Hs Ht Hr|s a b ta tb Hs Hsp Ha Hb Hta Htb Hord];
    [by apply Hweekly | done | done | |].
  - destruct (decide (s = lit "today")) as [->|Hnt]; [done|].
    destruct (decide (s = lit "weekend")) as [->|Hnw]; [done|].
    destruct (decide (s = [])) as [->|Hne]; [by apply Hweekly|].
    eexists. split; [by apply getDateRange_single|]. cbn [start end_].
    rewrite Ht, startOfDay_valid, endOfDay_valid by lia.
    cbn. unfold msPerDay. lia.
  - eexists. split; [by apply getDateRange_pair|]. cbn [start end_].
    rewrite Hsp. cbn [lookup list_lookup parseISO_arg]. rewrite Ha, Hb.
    pose proof (Day_bounds ta). pose proof (Day_bounds tb).
    rewrite startOfDay_valid, endOfDay_valid by bounds.
    cbn. unfold msPerDay in *. lia.
Qed.

(** C3, amended.  The resolver does not fail on a malformed expression:
    it returns a range whose start or end is an Invalid Date.  The run
    fails afterwards, with the RangeError date-fns raises when [main]
    formats that range for the cache key. *)
Theorem malformed_gives_invalid_range clock s :
  Malformed s ->
  ∃ r, getDateRange clock (Some s) = Normal r
       ∧ (start r = None ∨ end_ r = None)
       ∧ mainResolve clock (Some s) = Throw "RangeError: Invalid time value".
Proof.
  intros (Hne & Ht & Hw & Hbad).
  destruct (includes s (lit ":")) eqn:Hs.
  - eexists. split; [by apply getDateRange_pair|]. simpl.
    assert (Hinv : startOfDay (parseISO_arg (split_on 58 s !! 0%nat)) = None
                   ∨ endOfDay (parseISO_arg (split_on 58 s !! 1%nat)) = None).
    { destruct Hbad as [-> | ->]; [by left | by right]. }
    split; [exact Hinv|].
    unfold mainResolve. rewrite getDateRange_pair by done. simpl.
    destruct Hinv as [-> | Hend]; [reflexivity|]. rewrite Hend.
    unfold formatChecks. by destruct (isValid _).
  - eexists. split; [by apply getDateRange_single|]. simpl.
    rewrite Hbad. split; [by left|].
    unfold mainResolve. by rewrite getDateRange_single, Hbad.
Qed.

End ResolverProps.

(** *** The resolver on concrete expressions *)

Example weekend_on_a_saturday :
  @getDateRange Latin1.runtime saturday (Some (lit "weekend")) =
    Normal {| start := Some (saturday + 7 * msPerDay);
              end_ := Some (saturday + 9 * msPerDay - 1) |}
  ∧ WeekDay saturday = 6.
Proof. split; reflexivity. Qed.

Lemma weekend_is_next_saturday_witness :
  clock_ok saturday
  ∧ ∃ sat,
      @getDateRange Latin1.runtime saturday (Some (lit "weekend")) =
        Normal {| start := Some sat; end_ := Some (sat + 2 * msPerDay - 1) |}
      ∧ sat = (Day saturday + daysUntilSat saturday) * msPerDay
      ∧ WeekDay sat = 6
      ∧ WeekDay (sat + 2 * msPerDay - 1) = 0
      ∧ daysUntilSat saturday =
          (let r := (6 - WeekDay saturday + 7) mod 7 in
           if r =? 0 then 7 else r)
      ∧ 1 <= daysUntilSat saturday <= 7
      ∧ (WeekDay saturday = 6 -> Day sat = Day saturday + 7).
Proof.
  assert (Hc : clock_ok saturday) by (unfold clock_ok; vm_compute; split; discriminate).
  split; [exact Hc|].
  exact (@weekend_is_next_saturday Latin1.runtime saturday Hc).
Defined.

(** The example of the specification: 2026-02-10 to 2026-02-17. *)
Example pair_in_order :
  @getDateRange Latin1.runtime saturday (Some (lit "2026-02-10:2026-02-17")) =
    Normal {| start := Some 1770681600000; end_ := Some 1771372799999 |}.
Proof. reflexivity. Qed.

Lemma accepted_range_ordered_witness :
  clock_ok saturday
  ∧ @AcceptedInOrder Latin1.runtime (Some (lit "2026-02-10:2026-02-17"))
  ∧ @ReversedPair Latin1.runtime (Some (lit "2026-03-01:2026-02-28"))
  ∧ (∃ r, @getDateRange Latin1.runtime saturday
            (Some (lit "2026-02-10:2026-02-17")) = Normal r
          ∧ date_le (start r) (end_ r))
  ∧ (∃ r, @getDateRange Latin1.runtime saturday
            (Some (lit "2026-03-01:2026-02-28")) = Normal r
          ∧ date_gt (start r) (end_ r)).
Proof.
  assert (Hc : clock_ok saturday)
    by (unfold clock_ok; vm_compute; split; discriminate).
  assert (Ha : @AcceptedInOrder Latin1.runtime
                 (Some (lit "2026-02-10:2026-02-17"))).
  { apply (@acc_pair Latin1.runtime _ (lit "2026-02-10") (lit "2026-02-17")
             1770681600000 1771286400000);
      try reflexivity; vm_compute; discriminate. }
  assert (Hr : @ReversedPair Latin1.runtime
                 (Some (lit "2026-03-01:2026-02-28"))).
  { apply (@rev_pair Latin1.runtime _ (lit "2026-03-01") (lit "2026-02-28")
             1772323200000 1772236800000);
      try reflexivity; vm_compute; discriminate. }
  split; [exact Hc|]. split; [exact Ha|]. split; [exact Hr|].
  split.
  - exact (proj1 (@accepted_range_ordered Latin1.runtime saturday _ Hc) Ha).
  - exact (proj2 (@accepted_range_ordered Latin1.runtime saturday _ Hc) Hr).
Defined.

(** C4 as stated fails: the pair 2026-02-17:2026-02-10 is a colon-joined
    pair of ISO dates, and the range returned for it starts a week after
    it ends. *)
Lemma reversed_pair_gives_inverted_range :
  @getDateRange Latin1.runtime saturday (Some (lit "2026-02-17:2026-02-10")) =
    Normal {| start := Some 1771286400000; end_ := Some 1770767999999 |}
  ∧ ¬ date_le (Some 1771286400000) (Some 1770767999999).
Proof. split; [reflexivity|]. cbn. lia. Qed.

(** C3 as stated fails: "next friday" is malformed, and the resolver
    returns a range for it instead of failing. *)
Lemma malformed_expression_returns_a_range :
  @Malformed Latin1.runtime (lit "next friday")
  ∧ @getDateRange Latin1.runtime saturday (Some (lit "next friday")) =
      Normal {| start := None; end_ := None |}.
Proof.
  split; [|reflexivity].
  repeat split; try discriminate.
Qed.

Lemma malformed_gives_invalid_range_witness :
  @Malformed Latin1.runtime (lit "next friday")
  ∧ ∃ r, @getDateRange Latin1.runtime saturday (Some (lit "next friday"))
         = Normal r
         ∧ (start r = None ∨ end_ r = None)
         ∧ @mainResolve Latin1.runtime saturday (Some (lit "next friday"))
           = Throw "RangeError: Invalid time value".
Proof.
  assert (Hm : @Malformed Latin1.runtime (lit "next friday"))
    by (repeat split; discriminate).
  split; [exact Hm|].
  exact (@malformed_gives_invalid_range Latin1.runtime saturday _ Hm).
Defined.

(** ** Sorting *)

Section Sort.
Context {A : Type} (comparefn : A -> A -> num).

Lemma sort_insert_perm x l : sort_insert comparefn x l ≡ₚ x :: l.
Proof.
  induction l as [|y r IH]; simpl; [done|].
  destruct (after (comparefn x y)); [|done].
  rewrite IH. apply Permutation_swap.
Qed.

Lemma sort_perm l : sort comparefn l ≡ₚ l.
Proof.
  induction l as [|x l IH]; simpl; [done|].
  by rewrite sort_insert_perm, IH.
Qed.

(** The comparator never puts two elements after each other. *)
Hypothesis asym :
  ∀ a b, after (comparefn a b) = true -> after (comparefn b a) = false.

Lemma sort_insert_in_order x l :
  Sorted (in_order comparefn) l -> Sorted (in_order comparefn) (sort_insert comparefn x l).
Proof.
  induction 1 as [|y r Hr IH Hhd]; simpl.
  - repeat constructor.
  - destruct (after (comparefn x y)) eqn:Hxy.
    + constructor; [exact IH|].
      destruct Hhd as [|z r' Hyz]; simpl.
      * constructor. by apply asym.
      * destruct (after (comparefn x z)); constructor; [done | by apply asym].
    + repeat constructor; done.
Qed.

Lemma sort_in_order l : Sorted (in_order comparefn) (sort comparefn l).
Proof.
  induction l as [|x l IH]; simpl; [constructor|].
  by apply sort_insert_in_order.
Qed.

Lemma sort_fixed l : Sorted (in_order comparefn) l -> sort comparefn l = l.
Proof.
  induction 1 as [|x l Hl IH Hhd]; simpl; [done|].
  rewrite IH. destruct Hhd as [|y r Hxy]; simpl; [done|].
  unfold in_order in Hxy. by rewrite Hxy.
Qed.

Lemma sort_idempotent l : sort comparefn (sort comparefn l) = sort comparefn l.
Proof. apply sort_fixed, sort_in_order. Qed.

End Sort.

(** Sorting by a key: the comparator is the difference of the keys. *)
Section SortByKey.
Context {A : Type} (key : A -> num).

Let comparefn (a b : A) : num := num_sub (key a) (key b).

Lemma after_sub_lt a b : after (num_sub a b) = num_lt b a.
Proof.
  destruct a as [| |x|], b as [| |y|]; try reflexivity.
  unfold after, num_gt. simpl.
  destruct (Z.ltb_spec 0 (x - y)), (Z.ltb_spec y x); (reflexivity || lia).
Qed.

Lemma num_lt_asym a b : num_lt a b = true -> num_lt b a = false.
Proof.
  destruct a as [| |x|], b as [| |y|]; try done. simpl.
  intros Hlt%Z.ltb_lt. apply Z.ltb_ge. lia.
Qed.

Lemma num_lt_irrefl a : num_lt a a = false.
Proof. destruct a; try done. apply Z.ltb_irrefl. Qed.

Lemma byKey_asym a b :
  after (comparefn a b) = true -> after (comparefn b a) = false.
Proof. unfold comparefn. rewrite !after_sub_lt. apply num_lt_asym. Qed.

(** An element only moves past elements with another key, so elements
    with equal keys keep their order. *)
Lemma sort_insert_stable t x l :
  filter (λ a, key a = t) (sort_insert comparefn x l)
  = filter (λ a, key a = t) (x :: l).
Proof.
  induction l as [|y r IH]; simpl; [done|].
  destruct (after (comparefn x y)) eqn:Hxy; [|done].
  assert (key x ≠ key y) as Hne.
  { intros Heq. unfold comparefn in Hxy.
    rewrite after_sub_lt, Heq, num_lt_irrefl in Hxy. done. }
  rewrite !filter_cons, IH, !filter_cons.
  destruct (decide (key x = t)), (decide (key y = t)); congruence.
Qed.

Lemma sort_stable t l :
  filter (λ a, key a = t) (sort comparefn l) = filter (λ a, key a = t) l.
Proof.
  induction l as [|x l IH]; [done|]. simpl sort.
  rewrite sort_insert_stable, !filter_cons, IH. done.
Qed.

End SortByKey.

Section SortedByKey.
Context {A : Type} (key : A -> num).

Let comparefn (a b : A) : num := num_sub (key a) (key b).
Let key_le (a b : A) : Prop := num_le (key a) (key b) = true.

Lemma num_le_trans a b c :
  num_le a b = true -> num_le b c = true -> num_le a c = true.
Proof.
  destruct a as [| |x|], b as [| |y|], c as [| |z|]; try done. simpl.
  intros H1%Z.leb_le H2%Z.leb_le. apply Z.leb_le. lia.
Qed.

Lemma num_lt_le a b : num_lt a b = true -> num_le a b = true.
Proof.
  destruct a as [| |x|], b as [| |y|]; try done. simpl.
  intros Hlt%Z.ltb_lt. apply Z.leb_le. lia.
Qed.

Lemma num_not_lt_le a b :
  a ≠ NaN -> b ≠ NaN -> num_lt b a = false -> num_le a b = true.
Proof.
  destruct a as [| |x|], b as [| |y|]; try done. simpl.
  intros _ _ Hge%Z.ltb_ge. apply Z.leb_le. lia.
Qed.

Lemma sort_insert_sorted x l :
  key x ≠ NaN -> Forall (λ a, key a ≠ NaN) l ->
  StronglySorted key_le l ->
  StronglySorted key_le (sort_insert comparefn x l).
Proof.
  intros Hx Hl Hs. induction Hs as [|y r Hr IH Hy]; simpl.
  - repeat constructor.
  - apply Forall_cons in Hl as [Hyn Hrn].
    destruct (after (comparefn x y)) eqn:Hxy.
    + unfold comparefn in Hxy. rewrite after_sub_lt in Hxy.
      constructor; [by apply IH|].
      rewrite sort_insert_perm. constructor; [by apply num_lt_le | done].
    + unfold comparefn in Hxy. rewrite after_sub_lt in Hxy.
      assert (key_le x y) as Hle by by apply num_not_lt_le.
      constructor; [by constructor|].
      constructor; [done|].
      eapply Forall_impl; [exact Hy|]. intros z Hz.
      by eapply num_le_trans.
Qed.

Lemma sort_sorted l :
  Forall (λ a, key a ≠ NaN) l -> StronglySorted key_le (sort comparefn l).
Proof.
  induction 1 as [|x l Hx Hl IH]; simpl; [constructor|].
  apply sort_insert_sorted; [done| |done].
  by rewrite sort_perm.
Qed.



End SortedByKey.

(** ** The heap under [dedup] *)

Lemma same_identity_refl e : same_identity e e.
Proof. by repeat split. Qed.

Lemma same_identity_trans e1 e2 e3 :
  same_identity e1 e2 -> same_identity e2 e3 -> same_identity e1 e3.
Proof.
  intros (?&?&?&?&?&?) (?&?&?&?&?&?). repeat split; congruence.
Qed.

Lemma frame_refl h : frame h h.
Proof. split; [done|]. intros l e He. eauto using same_identity_refl. Qed.

Lemma frame_trans h1 h2 h3 : frame h1 h2 -> frame h2 h3 -> frame h1 h3.
Proof.
  intros [Hl1 H1] [Hl2 H2]. split; [congruence|].
  intros l e He. destruct (H1 l e He) as (e' & He' & Hs).
  destruct (H2 l e' He') as (e'' & He'' & Hs').
  eauto using same_identity_trans.
Qed.

Lemma assign_other h l l' upd : l ≠ l' -> assign h l upd !! l' = h !! l'.
Proof.
  intros Hne. unfold assign. destruct (h !! l); [|done].
  by apply list_lookup_insert_ne.
Qed.

Lemma assign_same h l e upd :
  h !! l = Some e -> assign h l upd !! l = Some (upd e).
Proof.
  intros He. unfold assign. rewrite He.
  apply list_lookup_insert_eq. by eapply lookup_lt_Some.
Qed.

Lemma assign_frame h l upd :
  (∀ e, same_identity e (upd e)) -> frame h (assign h l upd).
Proof.
  intros Hupd. split.
  - unfold assign. destruct (h !! l); [apply length_insert | done].
  - intros l' e He. destruct (decide (l = l')) as [<-|Hne].
    + rewrite (assign_same _ _ e) by done. eauto.
    + rewrite assign_other by done. eauto using same_identity_refl.
Qed.

Section DedupProps.
Context `{Runtime}.

Lemma identityKey_same e e' :
  same_identity e e' -> identityKey e' = identityKey e.
Proof. intros (Hn & Hd & _). unfold identityKey. by rewrite Hn, Hd. Qed.

Lemma merge_dup_other h ex e l :
  l ≠ ex -> merge_dup h ex e !! l = h !! l.
Proof.
  intros Hne. unfold merge_dup.
  rewrite assign_other by done.
  destruct (_ && _); [rewrite assign_other by done|];
    (destruct (_ && _); [by rewrite assign_other by done | done]).
Qed.

Lemma merge_dup_frame h ex e : frame h (merge_dup h ex e).
Proof.
  unfold merge_dup.
  eapply frame_trans; [|apply assign_frame; intros; by repeat split].
  eapply frame_trans; [|destruct (_ && _);
                        [apply assign_frame; intros; by repeat split
                        | apply frame_refl]].
  destruct (_ && _);
    [apply assign_frame; intros; by repeat split | apply frame_refl].
Qed.

Lemma map_get_elem seen k l : map_get seen k = Some l -> (k, l) ∈ seen.
Proof.
  induction seen as [|[k' l'] seen IH]; simpl; [done|].
  unfold streq. case_bool_decide as Hk.
  - intros [= ->]. rewrite Hk. left.
  - intros Hg. right. by apply IH.
Qed.

Lemma map_get_none seen k : map_get seen k = None ↔ k ∉ seen.*1.
Proof.
  induction seen as [|[k' l'] seen IH]; simpl.
  - split; [intros _; apply not_elem_of_nil | done].
  - unfold streq. case_bool_decide as Hk.
    + subst. split; [done|]. intros Hn. exfalso. apply Hn. left.
    + rewrite IH, not_elem_of_cons. split; [by split | by intros []].
Qed.

Lemma map_values_app seen k l :
  map_values (map_set_new seen k l) = map_values seen ++ [l].
Proof. unfold map_values, map_set_new. by rewrite fmap_app. Qed.

Lemma elem_values seen k l : (k, l) ∈ seen -> l ∈ map_values seen.
Proof.
  intros Hin. unfold map_values.
  apply list_elem_of_fmap. by exists (k, l).
Qed.

Lemma loop_inv_init h : loop_inv h [] [] h.
Proof.
  split; [apply frame_refl | done | done | | constructor].
  intros k l Hin. by apply elem_of_nil in Hin.
Qed.

Lemma loop_inv_step h0 pre seen h l :
  loop_inv h0 pre seen h ->
  loop_inv h0 (pre ++ [l]) (dedup_step (seen, h) l).1 (dedup_step (seen, h) l).2.
Proof.
  intros [Hf Hu Hs Hk Hn]. unfold dedup_step.
  destruct (h !! l) as [e|] eqn:He; simpl.
  2:{ split; try done. by apply sublist_inserts_r. }
  destruct (map_get seen (identityKey e)) as [ex|] eqn:Hg; simpl.
  - apply map_get_elem in Hg.
    split; try done.
    + eapply frame_trans; [exact Hf | apply merge_dup_frame].
    + intros l' Hl'. rewrite merge_dup_other; [by apply Hu|].
      intros ->. apply Hl'. by eapply elem_values.
    + by apply sublist_inserts_r.
  - split; try done.
    + intros l' Hl'. apply Hu. rewrite map_values_app in Hl'.
      intros Hin. apply Hl'. apply elem_of_app. by left.
    + rewrite map_values_app. by apply sublist_app.
    + intros k l' [Hin|Hin]%elem_of_app; [by apply Hk|].
      apply list_elem_of_singleton in Hin as [= -> ->].
      destruct Hf as [Hlen Hf].
      destruct (h0 !! l) as [e0|] eqn:He0.
      * destruct (Hf l e0 He0) as (e' & He' & Hsame).
        exists e0. split; [done|].
        pose proof (eq_trans (eq_sym He) He') as [= <-].
        symmetry. by apply identityKey_same.
      * exfalso. apply lookup_ge_None in He0.
        apply lookup_lt_Some in He. lia.
    + unfold map_set_new. rewrite fmap_app. apply NoDup_app.
      split; [done|]. split; [|apply NoDup_singleton].
      intros k Hin Hin'. apply list_elem_of_singleton in Hin'. simpl in Hin'.
      subst. by apply map_get_none in Hg.
Qed.

Lemma loop_inv_foldl h0 events : ∀ pre seen h,
  loop_inv h0 pre seen h ->
  loop_inv h0 (pre ++ events)
    (foldl dedup_step (seen, h) events).1
    (foldl dedup_step (seen, h) events).2.
Proof.
  induction events as [|l events IH]; intros pre seen h Hinv; cbn [foldl].
  - by rewrite app_nil_r.
  - apply (loop_inv_step _ _ _ _ l) in Hinv.
    destruct (dedup_step (seen, h) l) as [seen' h'].
    replace (pre ++ l :: events) with ((pre ++ [l]) ++ events)
      by by rewrite <- app_assoc.
    by apply IH.
Qed.

Lemma dedup_loop_inv h events :
  loop_inv h events (dedup_loop h events).1 (dedup_loop h events).2.
Proof. apply (loop_inv_foldl h events [] [] h), loop_inv_init. Qed.

End DedupProps.

Lemma StronglySorted_lookup_lt {A} (R : relation A) l : ∀ i j a b,
  StronglySorted R l -> (i < j)%nat ->
  l !! i = Some a -> l !! j = Some b -> R a b.
Proof.
  induction l as [|x l IH]; intros i j a b Hs Hij Ha Hb; [done|].
  apply StronglySorted_cons in Hs as [Hx Hs].
  destruct i as [|i], j as [|j]; try lia; simpl in *.
  - injection Ha as ->. rewrite Forall_forall in Hx.
    apply Hx. by eapply list_elem_of_lookup_2.
  - eapply (IH i j); eauto. lia.
Qed.

(** ** Deduplication *)

Section DedupTheorems.
Context `{Runtime}.

Lemma sortTime_frame h h' l : frame h h' -> sortTime h' l = sortTime h l.
Proof.
  intros [Hlen Hf]. unfold sortTime, rd.
  destruct (h !! l) as [e|] eqn:He.
  - destruct (Hf l e He) as (e' & -> & (_ & Hd & _)). simpl. by rewrite Hd.
  - apply lookup_ge_None in He.
    rewrite (proj2 (lookup_ge_None h' l)) by lia. done.
Qed.

Lemma byDate_asym h a b :
  after (byDate h a b) = true -> after (byDate h b a) = false.
Proof. unfold byDate. rewrite !after_sub_lt. apply num_lt_asym. Qed.

Lemma dedup_unfold h events :
  dedup h events =
    (sort (byDate (dedup_loop h events).2) (firsts h events),
     (dedup_loop h events).2).
Proof. unfold dedup, firsts. by destruct (dedup_loop h events). Qed.

Lemma dedup_perm h events : (dedup h events).1 ≡ₚ firsts h events.
Proof. rewrite dedup_unfold. apply sort_perm. Qed.

Lemma firsts_sublist h events : sublist (firsts h events) events.
Proof. apply (inv_sub _ _ _ _ (dedup_loop_inv h events)). Qed.

(** C2, amended.  [dedup] creates no record and returns references to
    records of its input.  It assigns to the price, venue and source of
    records it returns and to nothing else: every record keeps its name,
    date, address, type, url and description, and a record that is not
    returned is left as it was. *)
Theorem dedup_assigns_only_to_returned_records h events :
  frame h (dedup h events).2
  ∧ (∀ l, l ∉ (dedup h events).1 -> (dedup h events).2 !! l = h !! l)
  ∧ (∀ l, l ∈ (dedup h events).1 -> l ∈ events).
Proof.
  pose proof (dedup_loop_inv h events) as [Hf Hu Hs _ _].
  pose proof (dedup_perm h events) as Hp.
  rewrite dedup_unfold in *. simpl in *.
  split; [done|]. split.
  - intros l Hl. apply Hu. fold (firsts h events). by rewrite <- Hp.
  - intros l Hl. rewrite Hp in Hl. by eapply elem_of_sublist.
Qed.

Lemma values_of_pairs (f : loc -> jsstr) ls :
  map_values ((λ l, (f l, l)) <$> ls) = ls.
Proof.
  unfold map_values. induction ls as [|l ls IH]; csimpl; [done|].
  by rewrite IH.
Qed.

Lemma loop_without_duplicates h : ∀ ls seen,
  Forall (λ l, is_Some (h !! l)) ls ->
  NoDup (seen.*1 ++ (keyAt h <$> ls)) ->
  foldl dedup_step (seen, h) ls = (seen ++ ((λ l, (keyAt h l, l)) <$> ls), h).
Proof.
  induction ls as [|l ls IH]; intros seen Hlive Hnd; cbn [foldl];
    rewrite ?fmap_cons, ?fmap_nil in *.
  - by rewrite app_nil_r.
  - apply Forall_cons in Hlive as [[e He] Hlive].
    assert (keyAt h l = identityKey e) as Hk by (unfold keyAt; by rewrite He).
    assert (dedup_step (seen, h) l
            = (map_set_new seen (identityKey e) l, h)) as ->.
    { unfold dedup_step. rewrite He.
      assert (map_get seen (identityKey e) = None) as ->; [|done].
      apply map_get_none. rewrite <- Hk. intros Hin.
      apply NoDup_app in Hnd as (_ & Hdisj & _).
      apply (Hdisj _ Hin). left. }
    unfold map_set_new. rewrite IH; [|done|].
    + rewrite <- app_assoc. csimpl. by rewrite Hk.
    + rewrite fmap_app, <- app_assoc. csimpl. by rewrite <- Hk.
Qed.

Lemma firsts_keys h events :
  let h' := (dedup_loop h events).2 in
  Forall (λ l, is_Some (h' !! l)) (firsts h events)
  ∧ keyAt h' <$> firsts h events = (dedup_loop h events).1.*1.
Proof.
  pose proof (dedup_loop_inv h events) as [[_ Hf] _ _ Hk _].
  unfold firsts, map_values. simpl.
  set (seen := (dedup_loop h events).1) in *.
  set (h' := (dedup_loop h events).2) in *.
  clearbody seen h'.
  induction seen as [|[k l] seen IH]; csimpl; [by split|].
  destruct (Hk k l) as (e & He & Hke); [left|].
  destruct (Hf l e He) as (e' & He' & Hsame).
  destruct IH as [IH1 IH2].
  { intros k' l' Hin. apply Hk. by right. }
  split.
  - constructor; [by exists e' | done].
  - f_equal; [|done]. unfold keyAt. rewrite He'. simpl.
    rewrite <- Hke. by apply identityKey_same.
Qed.


(** C6, amended.  When every date string of the input can be read as a
    date, the result of [dedup] is sorted by ascending start time with
    the undated records last, and records with equal start times (two
    undated ones included) stand in the order in which their first
    occurrences stand in the input. *)
Theorem dedup_sorted_when_dates_parse h events :
  dates_parse h events ->
  let out := (dedup h events).1 in
  let h' := (dedup h events).2 in
  StronglySorted (λ a b, num_le (sortTime h' a) (sortTime h' b) = true) out
  ∧ (∀ i j a b,
       out !! i = Some a -> out !! j = Some b ->
       truthy (rd date h' a) = true -> truthy (rd date h' b) = false ->
       (i < j)%nat)
  ∧ (∀ t, filter (λ l, sortTime h' l = t) out
          = filter (λ l, sortTime h' l = t) (firsts h events))
  ∧ sublist (firsts h events) events.
Proof.
  intros Hparse out h'.
  pose proof (dedup_loop_inv h events) as [Hf _ _ _ _].
  assert (Hsorted :
    StronglySorted (λ a b, num_le (sortTime h' a) (sortTime h' b) = true) out).
  { unfold out, h'. rewrite dedup_unfold. simpl.
    apply (sort_sorted (sortTime (dedup_loop h events).2)).
    apply Forall_forall. intros l Hl.
    rewrite (sortTime_frame h) by done.
    apply Hparse. eapply elem_of_sublist; [exact Hl | apply firsts_sublist]. }
  split; [exact Hsorted|]. split; [|split].
  - intros i j a b Ha Hb Hda Hdb.
    destruct (Nat.lt_trichotomy i j) as [Hlt|[->|Hgt]]; [done| |].
    + rewrite Ha in Hb. injection Hb as ->. congruence.
    + pose proof (StronglySorted_lookup_lt _ _ _ _ _ _ Hsorted Hgt Hb Ha) as Hle.
      simpl in Hle. unfold sortTime in Hle. rewrite Hda, Hdb in Hle.
      by destruct (dateParse _).
  - intros t. unfold out, h'. rewrite dedup_unfold. simpl.
    apply (sort_stable (sortTime (dedup_loop h events).2)).
  - apply firsts_sublist.
Qed.

End DedupTheorems.

Section MergeTheorem.
Context `{Runtime}.

Lemma dedupFresh_pair e1 e2 :
  identityKey e1 = identityKey e2 ->
  dedupFresh [e1; e2] = ([0%nat], merge_dup [e1; e2] 0 1).
Proof.
  intros Hk. unfold dedupFresh, dedup, dedup_loop. cbn [length seq foldl].
  unfold dedup_step. cbn [lookup list_lookup map_get map_set_new app].
  rewrite <- Hk. unfold streq. rewrite bool_decide_eq_true_2 by done.
  reflexivity.
Qed.

(** C1, amended.  When two records with the same identity key are
    merged, the merged record is the first one with its name, date,
    address, type, url and description as they were; its price and its
    venue are those of the first record, or those of the second when the
    first has none and the second has one; its source is the two sources
    joined.  So no field of the first record is lost, and a price or
    venue of the second is not lost either. *)
Theorem merge_keeps_first_and_fills_price_venue e1 e2 :
  identityKey e1 = identityKey e2 ->
  ∃ m, dedupFresh [e1; e2] = ([0%nat], [m; e2])
       ∧ same_identity e1 m
       ∧ price m = (if negb (truthy (price e1)) && truthy (price e2)
                    then price e2 else price e1)
       ∧ venue m = (if negb (truthy (venue e1)) && truthy (venue e2)
                    then venue e2 else venue e1)
       ∧ source m = source e1 ++ lit ", " ++ source e2
       ∧ (is_Some (price e1) -> is_Some (price m))
       ∧ (is_Some (venue e1) -> is_Some (venue m))
       ∧ (truthy (price e2) = true -> truthy (price m) = true)
       ∧ (truthy (venue e2) = true -> truthy (venue m) = true).
Proof.
  intros Hk. rewrite dedupFresh_pair by done.
  unfold merge_dup, rd, rd_source, assign.
  cbn [lookup list_lookup mbind option_bind from_option].
  destruct (truthy (price e1)) eqn:Hp1, (truthy (price e2)) eqn:Hp2;
    cbn -[lit];
    destruct (truthy (venue e1)) eqn:Hv1, (truthy (venue e2)) eqn:Hv2;
    cbn -[lit]; eexists; (split; [reflexivity|]);
    cbn -[lit]; rewrite ?Hp1, ?Hp2, ?Hv1, ?Hv2;
    repeat split; try done;
    try (intros _; by destruct (price e2));
    try (intros _; by destruct (venue e2)).
Qed.

End MergeTheorem.

(** *** [dedup] on concrete records *)

(** The example of the specification: one merged record, sources a, b. *)
Example stadtfest_merges :
  @dedupFresh Latin1.runtime [stadtfest_a; stadtfest_b] =
    ([0%nat], [stadtfest_merged; stadtfest_b]).
Proof. reflexivity. Qed.

Lemma merge_keeps_first_and_fills_price_venue_witness :
  @identityKey Latin1.runtime stadtfest_a
  = @identityKey Latin1.runtime stadtfest_b
  ∧ ∃ m, @dedupFresh Latin1.runtime [stadtfest_a; stadtfest_b]
         = ([0%nat], [m; stadtfest_b])
       ∧ same_identity stadtfest_a m
       ∧ price m = (if negb (truthy (price stadtfest_a))
                       && truthy (price stadtfest_b)
                    then price stadtfest_b else price stadtfest_a)
       ∧ venue m = (if negb (truthy (venue stadtfest_a))
                       && truthy (venue stadtfest_b)
                    then venue stadtfest_b else venue stadtfest_a)
       ∧ source m = source stadtfest_a ++ lit ", " ++ source stadtfest_b
       ∧ (is_Some (price stadtfest_a) -> is_Some (price m))
       ∧ (is_Some (venue stadtfest_a) -> is_Some (venue m))
       ∧ (truthy (price stadtfest_b) = true -> truthy (price m) = true)
       ∧ (truthy (venue stadtfest_b) = true -> truthy (venue m) = true).
Proof.
  assert (Hk : @identityKey Latin1.runtime stadtfest_a
               = @identityKey Latin1.runtime stadtfest_b) by reflexivity.
  split; [exact Hk|].
  exact (@merge_keeps_first_and_fills_price_venue Latin1.runtime _ _ Hk).
Defined.

(** C1 as stated fails: the two records have the same identity key, the
    second has a url, an address and a description, and the merged
    record has none of them. *)
Lemma merge_drops_url_address_description :
  @identityKey Latin1.runtime stadtfest_a
  = @identityKey Latin1.runtime stadtfest_b
  ∧ is_Some (url stadtfest_b)
  ∧ is_Some (address stadtfest_b)
  ∧ is_Some (description stadtfest_b)
  ∧ deref (@dedupFresh Latin1.runtime [stadtfest_a; stadtfest_b]).2
      (@dedupFresh Latin1.runtime [stadtfest_a; stadtfest_b]).1
    = [stadtfest_merged]
  ∧ url stadtfest_merged = None
  ∧ address stadtfest_merged = None
  ∧ description stadtfest_merged = None.
Proof. repeat split; (reflexivity || by eexists). Qed.

(** C2 as stated fails: after the call the first input record, at
    reference 0, has another venue, price and source than before. *)
Lemma dedup_mutates_first_occurrence :
  [stadtfest_a; stadtfest_b] !! 0%nat = Some stadtfest_a
  ∧ (@dedupFresh Latin1.runtime [stadtfest_a; stadtfest_b]).2 !! 0%nat
    = Some stadtfest_merged
  ∧ source stadtfest_a = lit "a"
  ∧ source stadtfest_merged = lit "a, b"
  ∧ stadtfest_merged ≠ stadtfest_a.
Proof. repeat split; try reflexivity. discriminate. Qed.

(** C6 as stated fails: with a date string in the input that cannot be
    read as a date, the March record is returned before the January
    one. *)
Lemma unreadable_date_breaks_order :
  @dedupFresh Latin1.runtime [spring; unreadable; winter] =
    ([0; 1; 2]%nat, [spring; unreadable; winter])
  ∧ @sortTime Latin1.runtime [spring; unreadable; winter] 0 = Fin 1772323200000
  ∧ @sortTime Latin1.runtime [spring; unreadable; winter] 1 = NaN
  ∧ @sortTime Latin1.runtime [spring; unreadable; winter] 2 = Fin 1767225600000
  ∧ num_lt (Fin 1767225600000) (Fin 1772323200000) = true
  ∧ ¬ StronglySorted
        (λ a b, num_le (@sortTime Latin1.runtime [spring; unreadable; winter] a)
                       (@sortTime Latin1.runtime [spring; unreadable; winter] b)
                = true)
        (@dedupFresh Latin1.runtime [spring; unreadable; winter]).1.
Proof.
  repeat split; try reflexivity.
  intros Hs.
  pose proof (StronglySorted_lookup_lt _ _ 0%nat 2%nat 0%nat 2%nat Hs
                ltac:(lia) eq_refl eq_refl) as Hle.
  vm_compute in Hle. discriminate.
Qed.

Example dedup_sorts_undated_last :
  @dedupFresh Latin1.runtime [undated; spring; winter] =
    ([2; 1; 0]%nat, [undated; spring; winter]).
Proof. reflexivity. Qed.

Lemma dedup_sorted_when_dates_parse_witness :
  @dates_parse Latin1.runtime [undated; spring; winter] [0; 1; 2]%nat
  ∧ let out := (@dedup Latin1.runtime [undated; spring; winter] [0; 1; 2]%nat).1 in
    let h' := (@dedup Latin1.runtime [undated; spring; winter] [0; 1; 2]%nat).2 in
    StronglySorted
      (λ a b, num_le (@sortTime Latin1.runtime h' a)
                     (@sortTime Latin1.runtime h' b) = true) out
    ∧ (∀ i j a b,
         out !! i = Some a -> out !! j = Some b ->
         truthy (rd date h' a) = true -> truthy (rd date h' b) = false ->
         (i < j)%nat)
    ∧ (∀ t, filter (λ l, @sortTime Latin1.runtime h' l = t) out
            = filter (λ l, @sortTime Latin1.runtime h' l = t)
                (@firsts Latin1.runtime [undated; spring; winter] [0; 1; 2]%nat))
    ∧ sublist (@firsts Latin1.runtime [undated; spring; winter] [0; 1; 2]%nat)
        [0; 1; 2]%nat.
Proof.
  assert (Hd : @dates_parse Latin1.runtime [undated; spring; winter]
                 [0; 1; 2]%nat).
  { intros l Hl.
    repeat (apply elem_of_cons in Hl as [->|Hl]); try discriminate.
    by apply elem_of_nil in Hl. }
  split; [exact Hd|].
  exact (@dedup_sorted_when_dates_parse Latin1.runtime _ _ Hd).
Defined.


(** ** Trimming *)

Lemma trimStart_head s :
  trimStart s = [] ∨ ∃ c r, trimStart s = c :: r ∧ isSpace c = false.
Proof.
  induction s as [|c r IH]; simpl; [by left|].
  destruct (isSpace c) eqn:Hc; [exact IH|]. right. eauto.
Qed.

Lemma trimStart_fixed c r : isSpace c = false -> trimStart (c :: r) = c :: r.
Proof. intros Hc. simpl. by rewrite Hc. Qed.

Lemma trimEnd_head c r :
  isSpace c = false -> ∃ r', trimEnd (c :: r) = c :: r'.
Proof. intros Hc. simpl. rewrite Hc. destruct (trimEnd r); eauto. Qed.

Lemma trimEnd_cons c r :
  trimEnd (c :: r) =
    match trimEnd r with
    | [] => if isSpace c then [] else [c]
    | r' => c :: r'
    end.
Proof. reflexivity. Qed.

Lemma trimEnd_idempotent s : trimEnd (trimEnd s) = trimEnd s.
Proof.
  induction s as [|c r IH]; [done|]. rewrite trimEnd_cons.
  destruct (trimEnd r) as [|d r'] eqn:Hr.
  - destruct (isSpace c) eqn:Hc; simpl; [done|]. by rewrite Hc.
  - by rewrite trimEnd_cons, IH.
Qed.

Lemma trimStart_trim s : trimStart (trim s) = trim s.
Proof.
  unfold trim. destruct (trimStart_head s) as [->|(c & r & -> & Hc)]; [done|].
  destruct (trimEnd_head c r Hc) as [r' ->]. by apply trimStart_fixed.
Qed.

Lemma trim_idempotent s : trim (trim s) = trim s.
Proof.
  unfold trim at 1. rewrite trimStart_trim.
  unfold trim. apply trimEnd_idempotent.
Qed.

Lemma truthy_Some (s : jsstr) : truthy (Some s) = true ↔ s ≠ [].
Proof. destruct s; simpl; split; (done || congruence). Qed.

Lemma usable_nonempty n : unusable (Some n) = false -> n ≠ [].
Proof. unfold unusable. by destruct n. Qed.

Lemma named_trimmed ev s :
  name ev = Some (trim s) -> trim s ≠ [] -> named ev.
Proof. intros Hn Hne. exists (trim s). by rewrite trim_idempotent. Qed.

(** ** The adapters *)

Section AdapterProps.
Context `{Runtime}.

Lemma slugName_trimmed href name :
  slugName href = Normal name -> name = None ∨ ∃ y, name = Some (trim y).
Proof.
  unfold slugName. destruct (truthy href); [|intros [= <-]; by left].
  destruct (slugMatch _); [|intros [= <-]; by left].
  destruct (decodeURIComponent _); [|done].
  intros [= <-]. right. eauto.
Qed.

(** What is known of a pushed record. *)
Lemma giessenItem_pushed startTs endTs el ev :
  giessenItem startTs endTs el = Normal (Some ev) ->
  named ev
  ∧ type ev = lit "other"
  ∧ date ev = (itemDates el).1
  ∧ inRange startTs endTs (itemDates el).1 (itemDates el).2 = true.
Proof.
  unfold giessenItem, itemDates.
  destruct (li_link el) as [link|]; [|done].
  destruct (slugName (a_href link)) as [name0|] eqn:Hslug; [|done].
  set (fallback := trim _).
  assert (∃ y, (if unusable name0 then fallback else default [] name0)
               = trim y) as [y Hy].
  { destruct (unusable name0) eqn:Hu; [by eexists|].
    apply slugName_trimmed in Hslug as [->|[y ->]]; [done | by eexists]. }
  rewrite Hy.
  destruct (unusable (Some (trim y))) eqn:Hu; [done|].
  apply usable_nonempty in Hu.
  destruct (isNavLabel _); [done|].
  destruct (_ && _); [done|].
  destruct (extractDates _) as [d de].
  destruct (inRange startTs endTs d de) eqn:Hr; [|done].
  cbn [negb fst snd].
  destruct (truthy (Some (trim (beforeDate (trim y))))) eqn:Ht;
    intros [= <-]; (split; [|by repeat split]).
  - apply (named_trimmed _ (beforeDate (trim y))); [done|].
    by apply truthy_Some.
  - by apply (named_trimmed _ y).
Qed.

(** The range only enters through the date filter. *)
Lemma giessenItem_range startTs endTs startTs' endTs' el :
  inRange startTs endTs (itemDates el).1 (itemDates el).2
  = inRange startTs' endTs' (itemDates el).1 (itemDates el).2 ->
  giessenItem startTs endTs el = giessenItem startTs' endTs' el.
Proof.
  unfold giessenItem, itemDates.
  destruct (li_link el) as [link|]; [|done].
  destruct (slugName (a_href link)) as [name0|]; [|done].
  destruct (unusable (Some _)); [done|].
  destruct (isNavLabel _); [done|].
  destruct (_ && _); [done|].
  destruct (extractDates _) as [d de]. cbn [fst snd].
  by intros ->.
Qed.

(** An item that reaches the date patterns is pushed exactly when it
    passes the date filter. *)
Lemma giessenItem_candidate startTs endTs el name :
  itemName el = Normal (Some name) ->
  inRange startTs endTs (itemDates el).1 (itemDates el).2 = true ->
  ∃ ev, giessenItem startTs endTs el = Normal (Some ev)
        ∧ date ev = (itemDates el).1.
Proof.
  unfold itemName, giessenItem, itemDates.
  destruct (li_link el) as [link|]; [|done]. cbv zeta.
  destruct (slugName (a_href link)) as [name0|]; [|done].
  destruct (unusable (Some _)); [done|].
  destruct (isNavLabel _); [done|].
  destruct (_ && _); [done|].
  intros _. destruct (extractDates _) as [d de]. cbn [fst snd].
  intros ->. cbn [negb]. by eexists.
Qed.

Lemma inRange_spec startTs endTs el :
  inRange startTs endTs (itemDates el).1 (itemDates el).2 = true
  ↔ truthy (itemDates el).1 = false
    ∨ (truthy (itemDates el).1 = true
       ∧ num_lt (itemEnd el) startTs = false
       ∧ num_gt (itemStart el) endTs = false).
Proof.
  unfold inRange, itemEnd, itemStart.
  destruct (truthy (itemDates el).1); [|by split; [left|]].
  rewrite negb_true_iff, orb_false_iff. split.
  - intros [? ?]. by right.
  - by intros [|(_ & ? & ?)].
Qed.

(** The records of the loop are those already there and those pushed
    for an item. *)
Lemma giessenEach_elem startTs endTs : ∀ els acc evs,
  giessenEach startTs endTs els acc = Normal evs ->
  ∀ ev, ev ∈ evs
        ↔ ev ∈ acc
          ∨ ∃ el, el ∈ els ∧ giessenItem startTs endTs el = Normal (Some ev).
Proof.
  induction els as [|el els IH]; intros acc evs; cbn [giessenEach].
  - intros [= <-] ev. split; [by left|].
    intros [|(el & Hel & _)]; [done | by apply elem_of_nil in Hel].
  - destruct (giessenItem startTs endTs el) as [[e|]|] eqn:Hel; [| |done];
      intros Hrest ev; rewrite (IH _ _ Hrest ev).
    + rewrite elem_of_app, list_elem_of_singleton. split.
      * intros [[Hacc| ->]|(el' & Hin & Hpush)]; [by left | |].
        -- right. exists el. split; [left | done].
        -- right. exists el'. split; [by right | done].
      * intros [Hacc|(el' & Hin & Hpush)]; [by left; left|].
        apply elem_of_cons in Hin as [->|Hin].
        -- left. right. congruence.
        -- right. by exists el'.
    + split.
      * intros [Hacc|(el' & Hin & Hpush)]; [by left|].
        right. exists el'. split; [by right | done].
      * intros [Hacc|(el' & Hin & Hpush)]; [by left|].
        apply elem_of_cons in Hin as [->|Hin]; [congruence|].
        right. by exists el'.
Qed.

(** C9.  When the municipal adapter runs through, every record it
    returns was pushed for an item of the page and has the date
    extracted from that item; when that date is not empty, the item's
    effective end (its end date, or its start when it has no end) is not
    before the start of the range and its start is not after the end of
    the range.  And the date filter takes away nothing else: every item
    that reaches the date patterns and has no extracted date, or has one
    that meets the two conditions, has its record in the result,
    whatever the range is. *)
Theorem giessen_date_filter dateRange els n :
  let startTs := getTime (start dateRange) in
  let endTs := getTime (end_ dateRange) in
  let evs := events (fetchGiessenDe dateRange (Normal els)) in
  status (fetchGiessenDe dateRange (Normal els)) = StatusOk n ->
  (∀ ev, ev ∈ evs ->
     ∃ el, el ∈ els ∧ giessenItem startTs endTs el = Normal (Some ev)
           ∧ date ev = (itemDates el).1
           ∧ (truthy (date ev) = true ->
              num_lt (itemEnd el) startTs = false
              ∧ num_gt (itemStart el) endTs = false))
  ∧ (∀ el name,
       el ∈ els -> itemName el = Normal (Some name) ->
       truthy (itemDates el).1 = false
       ∨ (num_lt (itemEnd el) startTs = false
          ∧ num_gt (itemStart el) endTs = false) ->
       ∃ ev, ev ∈ evs ∧ giessenItem startTs endTs el = Normal (Some ev)
             ∧ date ev = (itemDates el).1).
Proof.
  cbv zeta. unfold fetchGiessenDe.
  destruct (giessenEach _ _ els []) as [evs|] eqn:Hloop; [|done].
  cbn [events status]. intros _.
  pose proof (giessenEach_elem _ _ _ _ _ Hloop) as Hmem.
  split.
  - intros ev Hev. apply Hmem in Hev as [Hnil|(el & Hin & Hpush)];
      [by apply elem_of_nil in Hnil|].
    exists el. split; [done|]. split; [done|].
    destruct (giessenItem_pushed _ _ _ _ Hpush) as (_ & _ & Hd & Hr).
    split; [done|]. rewrite Hd. intros Ht.
    apply inRange_spec in Hr as [Hu|(_ & ? & ?)]; [congruence | done].
  - intros el name Hin Hname Hpass.
    destruct (giessenItem_candidate (getTime (start dateRange))
                (getTime (end_ dateRange)) el name Hname) as (ev & Hpush & Hd).
    { apply inRange_spec. destruct Hpass as [Hu|[? ?]]; [by left|].
      destruct (truthy (itemDates el).1); [by right | by left]. }
    exists ev. split; [|done]. apply Hmem. right. by exists el.
Qed.

Lemma giessenEach_events P startTs endTs : ∀ els acc evs,
  (∀ el ev, giessenItem startTs endTs el = Normal (Some ev) -> P ev) ->
  Forall P acc ->
  giessenEach startTs endTs els acc = Normal evs -> Forall P evs.
Proof.
  induction els as [|el els IH]; intros acc evs HP Hacc; simpl.
  - by intros [= <-].
  - destruct (giessenItem startTs endTs el) as [[ev|]|] eqn:Hel; [| |done].
    + apply IH; [done|]. apply Forall_app. split; [done|].
      constructor; [by eapply HP | constructor].
    + by apply IH.
Qed.

Lemma fetchGiessenDe_events P dateRange page :
  (∀ s e el ev, giessenItem s e el = Normal (Some ev) -> P ev) ->
  Forall P (events (fetchGiessenDe dateRange page)).
Proof.
  intros HP. unfold fetchGiessenDe. destruct page as [els|]; [|constructor].
  destruct (giessenEach _ _ els []) as [evs|] eqn:Hevs; [|constructor].
  simpl. eapply giessenEach_events; [by eauto | constructor | exact Hevs].
Qed.

Lemma card_name_usable (t : option jsstr) :
  unusable (trim <$> t) = false ->
  ∃ s, trim <$> t = Some (trim s) ∧ trim s ≠ [].
Proof.
  destruct t as [s|]; [|done]. simpl. intros Hu.
  exists s. split; [done|]. by apply usable_nonempty.
Qed.

(** C8, amended.  Every record returned by the municipal adapter, built
    from a card by the Meetup adapter, or built from a card by the
    Deskline adapter (in a frame or on the main page) has a name that is
    not empty after trimming.  The structured API adapter hands the name
    of the API on as it is. *)
Theorem card_records_are_named :
  (∀ dateRange page ev,
     ev ∈ events (fetchGiessenDe dateRange page) -> named ev)
  ∧ (∀ c ev, meetupCard c = Some ev -> named ev)
  ∧ (∀ city c r, frameCard c = Some r -> named (normalize city r))
  ∧ (∀ city c r, mainCard c = Some r -> named (normalize city r))
  ∧ (∀ e ev, tmEvent e = Normal ev -> name ev = tm_name e).
Proof.
  repeat split.
  - intros dateRange page ev Hev.
    pose proof (fetchGiessenDe_events named dateRange page) as Hall.
    rewrite Forall_forall in Hall. apply Hall; [|done].
    intros s e el ev' Hpush. by apply giessenItem_pushed in Hpush as [? _].
  - intros c ev. unfold meetupCard.
    destruct (truthy (Some (trim _))) eqn:Ht; [|done].
    intros [= <-]. eapply named_trimmed; [done|]. by apply truthy_Some.
  - intros city c r. unfold frameCard.
    destruct (unusable _) eqn:Hu; [done|]. intros [= <-].
    destruct (card_name_usable _ Hu) as (s & Hs & Hne).
    by eapply named_trimmed.
  - intros city c r. unfold mainCard.
    destruct (unusable _) eqn:Hu; [done|]. intros [= <-].
    destruct (card_name_usable _ Hu) as (s & Hs & Hne).
    by eapply named_trimmed.
  - intros e ev. unfold tmEvent.
    destruct (tm_priceRanges e) as [[|min rest]|]; [done| |];
      by intros [= <-].
Qed.

Lemma typeFilter_spec optsType allEvents e :
  optsType ≠ lit "all" ->
  e ∈ typeFilter optsType allEvents
  ↔ e ∈ allEvents ∧ (type e = optsType ∨ type e = lit "other").
Proof.
  intros Hne. unfold typeFilter. rewrite streq_false by done. cbn [negb].
  rewrite list_elem_of_In, filter_In, <- list_elem_of_In.
  unfold streq. rewrite orb_true_iff, !bool_decide_eq_true. done.
Qed.

Lemma typeFilter_keeps_other optsType allEvents :
  Forall (λ e, type e = lit "other") allEvents ->
  typeFilter optsType allEvents = allEvents.
Proof.
  intros Hall. unfold typeFilter. destruct (negb _); [|done].
  induction Hall as [|e evs He Hevs IH]; simpl; [done|].
  rewrite He, IH. unfold streq at 2.
  rewrite bool_decide_eq_true_2 by done. by rewrite orb_true_r.
Qed.

Lemma frame_lookup_back h h' l e' :
  frame h h' -> h' !! l = Some e' ->
  ∃ e, h !! l = Some e ∧ same_identity e e'.
Proof.
  intros [Hlen Hf] He'. destruct (h !! l) as [e|] eqn:He.
  - destruct (Hf l e He) as (e'' & He'' & Hsame).
    exists e. split; [done|]. congruence.
  - apply lookup_ge_None in He. apply lookup_lt_Some in He'. lia.
Qed.

(** Records of type "other" are still of that type after [dedup]. *)
Lemma dedup_keeps_other allEvents :
  Forall (λ e, type e = lit "other") allEvents ->
  Forall (λ e, type e = lit "other")
    (deref (dedupFresh allEvents).2 (dedupFresh allEvents).1).
Proof.
  intros Hall. unfold dedupFresh. rewrite dedup_unfold. simpl.
  pose proof (dedup_loop_inv allEvents (seq 0 (length allEvents)))
    as [Hf _ _ _ _].
  apply Forall_forall. intros e' Hin. unfold deref in Hin.
  apply list_elem_of_omap in Hin as (l & _ & He').
  destruct (frame_lookup_back _ _ _ _ Hf He') as (e & He & (_&_&_&Ht&_)).
  rewrite Ht. rewrite Forall_forall in Hall. apply Hall.
  by eapply list_elem_of_lookup_2.
Qed.

(** An entry of the map stays in it to the end of the loop. *)
Lemma foldl_pairs_grow events : ∀ seen h kl,
  kl ∈ seen -> kl ∈ (foldl dedup_step (seen, h) events).1.
Proof.
  induction events as [|l events IH]; intros seen h kl Hin; cbn [foldl];
    [done|].
  destruct (dedup_step (seen, h) l) as [seen' h'] eqn:Hstep.
  apply IH. unfold dedup_step in Hstep.
  destruct (h !! l) as [e|]; [|by injection Hstep as <- _].
  destruct (map_get seen _); injection Hstep as <- _; [done|].
  unfold map_set_new. apply elem_of_app. by left.
Qed.

(** The first reference under a key is one of those that stay. *)
Lemma first_of_key_stays h pre l post e :
  h !! l = Some e ->
  (∀ l' e', l' ∈ pre -> h !! l' = Some e' ->
            identityKey e' ≠ identityKey e) ->
  l ∈ firsts h (pre ++ l :: post).
Proof.
  intros He Hfirst. unfold firsts, dedup_loop. rewrite foldl_app. cbn [foldl].
  pose proof (loop_inv_foldl h pre [] [] h (loop_inv_init h)) as Hinv.
  cbn [app] in Hinv.
  destruct (foldl dedup_step ([], h) pre) as [seen1 h1]. cbn [fst snd] in Hinv.
  destruct Hinv as [[_ Hf] _ Hsub Hkeys _].
  destruct (Hf l e He) as (e1 & He1 & Hsame).
  assert (Hnew : map_get seen1 (identityKey e1) = None).
  { apply map_get_none. intros Hin.
    apply list_elem_of_fmap in Hin as ([k l'] & Hk & Hin). simpl in Hk.
    destruct (Hkeys k l' Hin) as (e' & He' & Hke').
    apply (Hfirst l' e'); [|done|].
    - eapply elem_of_sublist; [by eapply elem_values | done].
    - rewrite Hke', <- Hk. by apply identityKey_same. }
  assert (dedup_step (seen1, h1) l
          = (map_set_new seen1 (identityKey e1) l, h1)) as ->.
  { unfold dedup_step. by rewrite He1, Hnew. }
  apply (elem_values _ (identityKey e1)), foldl_pairs_grow.
  unfold map_set_new. apply elem_of_app. right. left.
Qed.

Lemma NoDup_fmap_elem {A B} (f : A -> B) (l : list A) x y :
  NoDup (f <$> l) -> x ∈ l -> y ∈ l -> f x = f y -> x = y.
Proof.
  induction l as [|a l IH]; intros Hnd Hx Hy Hxy;
    [by apply elem_of_nil in Hx|].
  rewrite fmap_cons in Hnd. apply NoDup_cons in Hnd as [Ha Hnd].
  apply elem_of_cons in Hx as [->|Hx]; apply elem_of_cons in Hy as [->|Hy].
  - done.
  - exfalso. apply Ha. rewrite Hxy. by apply list_elem_of_fmap_2.
  - exfalso. apply Ha. rewrite <- Hxy. by apply list_elem_of_fmap_2.
  - by apply IH.
Qed.

(** What [dedup] makes of the list the sources returned together: the
    record that is first under its key stays, with its identity fields,
    and it is the only record with that key. *)
Lemma first_under_key_stays allEvents i e :
  first_under_key allEvents i e ->
  let out := (dedupFresh allEvents).1 in
  let h' := (dedupFresh allEvents).2 in
  ∃ e', h' !! i = Some e' ∧ same_identity e e' ∧ e' ∈ deref h' out
        ∧ ∀ e'', e'' ∈ deref h' out ->
                 identityKey e'' = identityKey e -> e'' = e'.
Proof.
  intros [He Hfirst]. cbv zeta. unfold dedupFresh.
  set (refs := seq 0 (length allEvents)).
  pose proof (dedup_loop_inv allEvents refs) as [Hframe _ _ _ _].
  destruct (firsts_keys allEvents refs) as [Hlive Hkeys].
  simpl in Hlive, Hkeys.
  pose proof (dedup_loop_inv allEvents refs) as [_ _ _ _ Hnd].
  pose proof (dedup_perm allEvents refs) as Hp.
  assert (Hin : i ∈ firsts allEvents refs).
  { assert (Hlt : (i < length allEvents)%nat) by (by eapply lookup_lt_Some).
    assert (refs = seq 0 i ++ i :: seq (S i) (length allEvents - S i)) as ->.
    { unfold refs.
      replace (length allEvents) with (i + S (length allEvents - S i))%nat
        at 1 by lia.
      by rewrite seq_app. }
    apply (first_of_key_stays _ _ _ _ e He).
    intros j e' Hj He'. apply (Hfirst j e'); [|done].
    apply elem_of_seq in Hj. lia. }
  rewrite (dedup_unfold allEvents refs) in *. cbn [fst snd] in *.
  set (h' := (dedup_loop allEvents refs).2) in *.
  set (out := sort (byDate h') (firsts allEvents refs)) in *.
  destruct Hframe as [Hlen Hf].
  destruct (Hf i e He) as (e' & He' & Hsame).
  assert (Hout : i ∈ out) by (by rewrite Hp).
  exists e'. split; [done|]. split; [done|]. split.
  - unfold deref. apply list_elem_of_omap. by exists i.
  - intros e'' Hin'' Hkey. unfold deref in Hin''.
    apply list_elem_of_omap in Hin'' as (l & Hl & Hl'').
    assert (l = i) as ->; [|congruence].
    apply (NoDup_fmap_elem (keyAt h') out); [by rewrite Hp, Hkeys|done|done|].
    unfold keyAt. rewrite Hl'', He'. cbn.
    rewrite Hkey. symmetry. by apply identityKey_same.
Qed.

(** C10, amended.  With a type other than "all" requested, the filter
    keeps exactly the records whose type is the requested one or
    "other", and what [main] builds when the cache has nothing is the
    deduplicated list passed through that filter.  The municipal adapter
    and the Deskline adapter give every record the type "other", the
    Meetup adapter the type "meetup".  A record that is the first of the
    run under its identity key is in the final list, with its identity
    fields, when its type is the requested one or "other"; when its type
    is neither, nothing with its key is in the final list, so a record
    of type "other" that comes later under that key, and was merged into
    it, is gone with it.  On a cache hit [main] returns the cached list
    as it is, without the filter. *)
Theorem type_filter_keeps_requested_and_other :
  (∀ optsType allEvents e,
     optsType ≠ lit "all" ->
     e ∈ typeFilter optsType allEvents
     ↔ e ∈ allEvents ∧ (type e = optsType ∨ type e = lit "other"))
  ∧ (∀ optsType results,
       mainEvents optsType results
       = typeFilter optsType (mainEvents (lit "all") results))
  ∧ (∀ dateRange page,
       Forall (λ e, type e = lit "other")
         (events (fetchGiessenDe dateRange page)))
  ∧ (∀ cityKey session,
       Forall (λ e, type e = lit "other")
         (events (fetchDeskline cityKey session)))
  ∧ (∀ page,
       Forall (λ e, type e = lit "meetup") (events (fetchMeetup page)))
  ∧ (∀ optsType results i e,
       first_under_key (concat (events <$> results)) i e ->
       optsType = lit "all" ∨ type e = optsType ∨ type e = lit "other" ->
       ∃ e', e' ∈ mainEvents optsType results ∧ same_identity e e')
  ∧ (∀ optsType results i e,
       optsType ≠ lit "all" ->
       first_under_key (concat (events <$> results)) i e ->
       type e ≠ optsType -> type e ≠ lit "other" ->
       ∀ e', e' ∈ mainEvents optsType results ->
             identityKey e' ≠ identityKey e)
  ∧ (∀ md5 formatDay numberText opts clock tRead tWrite dir results
       key cached dir',
       mainKey formatDay numberText opts clock = Normal key ->
       readCache md5 dir tRead key = (Some cached, dir') ->
       mainRun md5 formatDay numberText opts clock tRead tWrite dir results
       = Normal (cached, dir')).
Proof.
  assert (Hall : ∀ results,
            mainEvents (lit "all") results
            = deref (dedupFresh (concat (events <$> results))).2
                (dedupFresh (concat (events <$> results))).1).
  { intros results. unfold mainEvents.
    by destruct (dedupFresh (concat (events <$> results))). }
  assert (Hmain : ∀ optsType results,
            mainEvents optsType results
            = typeFilter optsType (mainEvents (lit "all") results)).
  { intros optsType results. rewrite Hall. unfold mainEvents.
    by destruct (dedupFresh (concat (events <$> results))). }
  split; [apply typeFilter_spec|]. split; [exact Hmain|].
  split.
  { intros. apply fetchGiessenDe_events.
    intros s e el ev Hpush.
    by apply giessenItem_pushed in Hpush as (_ & ? & _). }
  split.
  { intros cityKey session. unfold fetchDeskline.
    destruct (CITIES cityKey) as [city|]; [|constructor].
    destruct session as [[frames mainCards]|]; [|constructor].
    simpl. apply Forall_fmap, Forall_true. done. }
  split.
  { intros page. unfold fetchMeetup.
    destruct page as [[blocks cards]|]; [|constructor]. cbn [events].
    assert (Hld : Forall (λ e, type e = lit "meetup")
                    (ldEvents meetupLd blocks)).
    { unfold ldEvents. apply Forall_forall. intros ev Hev.
      apply list_elem_of_omap in Hev as (item & _ & Hitem).
      unfold meetupLd in Hitem. destruct (_ || _); [|done].
      by injection Hitem as <-. }
    destruct (length (ldEvents meetupLd blocks) =? 0)%nat; [|done].
    apply Forall_forall. intros ev Hev.
    apply list_elem_of_omap in Hev as (c & _ & Hc).
    unfold meetupCard in Hc. destruct (truthy (Some _)); [|done].
    by injection Hc as <-. }
  split.
  { intros optsType results i e Hfirst Hty.
    destruct (first_under_key_stays _ _ _ Hfirst)
      as (e' & _ & Hsame & Hin & _).
    exists e'. split; [|done]. rewrite Hmain, Hall.
    destruct (decide (optsType = lit "all")) as [->|Hne].
    { by replace (typeFilter (lit "all")
                    (deref (dedupFresh (concat (events <$> results))).2
                       (dedupFresh (concat (events <$> results))).1))
        with (deref (dedupFresh (concat (events <$> results))).2
                (dedupFresh (concat (events <$> results))).1)
        by reflexivity. }
    apply typeFilter_spec; [done|]. split; [done|].
    destruct Hsame as (_ & _ & _ & -> & _).
    by destruct Hty as [?|Hty]. }
  split.
  { intros optsType results i e Hne Hfirst Ht1 Ht2 e' Hin Hkey.
    destruct (first_under_key_stays _ _ _ Hfirst)
      as (e1 & _ & Hsame & _ & Honly).
    rewrite Hmain, Hall in Hin.
    apply typeFilter_spec in Hin as [Hin Hty]; [|done].
    rewrite (Honly e' Hin Hkey) in Hty.
    destruct Hsame as (_ & _ & _ & Ht & _). rewrite Ht in Hty.
    by destruct Hty. }
  intros md5 formatDay numberText opts clock tRead tWrite dir results
    key cached dir' Hkey Hread.
  unfold mainRun. by rewrite Hkey, Hread.
Qed.

End AdapterProps.

(** *** The adapters on concrete pages *)

Example konzert_is_pushed :
  @giessenItem Latin1.runtime (getTime (start june)) (getTime (end_ june))
    li_konzert = Normal (Some konzert).
Proof. reflexivity. Qed.

Example last_year_is_skipped :
  @giessenItem Latin1.runtime (getTime (start june)) (getTime (end_ june))
    li_gestern = Normal None.
Proof. reflexivity. Qed.

Example undated_is_pushed :
  @giessenItem Latin1.runtime (Fin 0) (Fin 0) li_dauer = Normal (Some dauer).
Proof. reflexivity. Qed.

Lemma giessen_date_filter_witness :
  status (@fetchGiessenDe Latin1.runtime june
            (Normal [li_konzert; li_gestern; li_dauer])) = StatusOk 2
  ∧ li_dauer ∈ [li_konzert; li_gestern; li_dauer]
  ∧ @itemName Latin1.runtime li_dauer = Normal (Some (lit "Stadtrundgang"))
  ∧ truthy (itemDates li_dauer).1 = false
  ∧ ∃ ev, ev ∈ events (@fetchGiessenDe Latin1.runtime june
                         (Normal [li_konzert; li_gestern; li_dauer]))
          ∧ @giessenItem Latin1.runtime (getTime (start june))
              (getTime (end_ june)) li_dauer = Normal (Some ev)
          ∧ date ev = (itemDates li_dauer).1.
Proof.
  assert (Hs : status (@fetchGiessenDe Latin1.runtime june
                         (Normal [li_konzert; li_gestern; li_dauer]))
               = StatusOk 2) by reflexivity.
  assert (Hin : li_dauer ∈ [li_konzert; li_gestern; li_dauer])
    by (right; right; left).
  assert (Hn : @itemName Latin1.runtime li_dauer
               = Normal (Some (lit "Stadtrundgang"))) by reflexivity.
  assert (Hd : truthy (itemDates li_dauer).1 = false) by reflexivity.
  split; [exact Hs|]. split; [exact Hin|]. split; [exact Hn|].
  split; [exact Hd|].
  exact (proj2 (@giessen_date_filter Latin1.runtime june
                  [li_konzert; li_gestern; li_dauer] 2%nat Hs)
           li_dauer _ Hin Hn (or_introl Hd)).
Defined.

Lemma card_records_are_named_witness :
  konzert ∈ events (@fetchGiessenDe Latin1.runtime june (Normal [li_konzert]))
  ∧ named konzert.
Proof.
  assert (Hin : konzert ∈ events (@fetchGiessenDe Latin1.runtime june
                                    (Normal [li_konzert])))
    by (change (konzert ∈ [konzert]); left).
  split; [exact Hin|].
  exact (proj1 (@card_records_are_named Latin1.runtime) june _ konzert Hin).
Defined.

(** C8 as stated fails: a Ticketmaster item with an empty name and a
    JSON-LD event without a name both come out of their adapter as
    records. *)
Lemma nameless_records_leave_adapters :
  name <$> events (@fetchTicketmaster Latin1.runtime (Some (lit "key")) june
                     (Normal (Some [tm_nameless])))
  = [Some []]
  ∧ name <$> events (fetchDeskline (lit "marburg")
                       (Normal ([([Some [ld_nameless]], [])], [])))
    = [None].
Proof. split; reflexivity. Qed.

Lemma type_filter_keeps_requested_and_other_witness :
  @first_under_key Latin1.runtime
    (concat (events <$> [ticketmaster_result; giessen_result [li_dauer]]))
    1 dauer
  ∧ type dauer = lit "other"
  ∧ ∃ e', e' ∈ @mainEvents Latin1.runtime (lit "sports")
                 [ticketmaster_result; giessen_result [li_dauer]]
          ∧ same_identity dauer e'.
Proof.
  assert (Hf : @first_under_key Latin1.runtime
                 (concat (events <$>
                            [ticketmaster_result; giessen_result [li_dauer]]))
                 1 dauer).
  { split; [reflexivity|]. intros j e' Hj.
    destruct j as [|j]; [|lia]. intros [= <-]. vm_compute. discriminate. }
  split; [exact Hf|]. split; [reflexivity|].
  exact (proj1 (proj2 (proj2 (proj2 (proj2 (proj2
           (@type_filter_keeps_requested_and_other Latin1.runtime))))))
           (lit "sports") _ 1%nat dauer Hf (or_intror (or_intror eq_refl))).
Defined.

(** Under the two sources of [main], a record of the municipal adapter
    that has the key of a Ticketmaster record before it is merged into
    that record, and goes with it when the filter asks for another
    type. *)
Example municipal_record_goes_with_the_music_record :
  type <$> events ticketmaster_result = [lit "music"]
  ∧ events (giessen_result [li_konzert]) = [konzert]
  ∧ type konzert = lit "other"
  ∧ @mainEvents Latin1.runtime (lit "sports")
      [ticketmaster_result; giessen_result [li_konzert]] = [].
Proof. repeat split; reflexivity. Qed.

(** C10 as stated fails: the Meetup adapter scrapes its events from a
    page and gives them the type "meetup", and the filter for "music"
    removes them. *)
Lemma type_filter_removes_meetup_events :
  type <$> events (fetchMeetup (Normal ([Some [ld_meetup]], [])))
  = [lit "meetup"]
  ∧ @mainEvents Latin1.runtime (lit "music")
      [fetchMeetup (Normal ([Some [ld_meetup]], []))] = [].
Proof. split; reflexivity. Qed.

Lemma dedup_assigns_only_to_returned_records_witness :
  (1%nat ∉ (@dedup Latin1.runtime [stadtfest_a; stadtfest_b] [0; 1]%nat).1)
  ∧ (@dedup Latin1.runtime [stadtfest_a; stadtfest_b] [0; 1]%nat).2 !! 1%nat
    = [stadtfest_a; stadtfest_b] !! 1%nat.
Proof.
  assert (Hout : 1%nat ∉ ((@dedup Latin1.runtime [stadtfest_a; stadtfest_b]
                             [0; 1]%nat).1)).
  { change (1%nat ∉ [0%nat]). intros Hin.
    apply list_elem_of_singleton in Hin. discriminate. }
  split; [exact Hout|].
  exact (proj1 (proj2 (@dedup_assigns_only_to_returned_records Latin1.runtime
                         [stadtfest_a; stadtfest_b] [0; 1]%nat)) 1%nat Hout).
Defined.

(* ===================================================================== *)
(** * Further properties of the code *)
(* ===================================================================== *)

(** ** Identity keys and merging *)

Lemma split_at_bar (a a' b b' : jsstr) :
  Forall (λ c, c ≠ 124%N) a -> Forall (λ c, c ≠ 124%N) a' ->
  a ++ 124%N :: b = a' ++ 124%N :: b' -> a = a' ∧ b = b'.
Proof.
  intros Ha. revert a'. induction Ha as [|x a Hx Ha IH]; intros a' Ha' Heq.
  - destruct Ha' as [|y a' Hy _]; simpl in Heq.
    + by injection Heq as ->.
    + injection Heq as <- _. done.
  - destruct Ha' as [|y a' Hy Ha']; simpl in Heq.
    + injection Heq as -> _. done.
    + injection Heq as -> Heq. destruct (IH _ Ha' Heq) as [-> ->]. done.
Qed.

Section KeyProps.
Context `{Runtime}.

Lemma nameKey_no_bar e : Forall (λ c, c ≠ 124%N) (nameKey e).
Proof.
  apply Forall_forall. intros c Hc Heq. subst c.
  unfold nameKey, slice0 in Hc.
  pose proof (elem_of_sublist _ _ _ Hc (sublist_take _ _)) as Hin.
  apply list_elem_of_In, filter_In in Hin as [_ Hk]. discriminate.
Qed.

(** X1.  Two records have the same identity key exactly when their
    normalized names agree on the first 40 kept characters and their
    date strings agree on the first 10 characters: the bar between the
    two halves cannot be mistaken, because no kept character is a
    bar. *)
Theorem identityKey_eq_iff e1 e2 :
  identityKey e1 = identityKey e2
  ↔ nameKey e1 = nameKey e2 ∧ dateKey e1 = dateKey e2.
Proof.
  change (identityKey e1) with (nameKey e1 ++ 124%N :: dateKey e1).
  change (identityKey e2) with (nameKey e2 ++ 124%N :: dateKey e2).
  split.
  - apply split_at_bar; apply nameKey_no_bar.
  - by intros [-> ->].
Qed.

Lemma foldl_keys_grow events : ∀ seen h k,
  k ∈ seen.*1 -> k ∈ (foldl dedup_step (seen, h) events).1.*1.
Proof.
  induction events as [|l events IH]; intros seen h k Hk; cbn [foldl]; [done|].
  destruct (dedup_step (seen, h) l) as [seen' h'] eqn:Hstep.
  apply IH. unfold dedup_step in Hstep.
  destruct (h !! l) as [e|]; [|by injection Hstep as <- _].
  destruct (map_get seen _); injection Hstep as <- _; [done|].
  unfold map_set_new. rewrite fmap_app. apply elem_of_app. by left.
Qed.

Lemma foldl_keys_cover h0 events : ∀ pre seen h,
  loop_inv h0 pre seen h ->
  ∀ l e, l ∈ events -> h0 !! l = Some e ->
         identityKey e ∈ (foldl dedup_step (seen, h) events).1.*1.
Proof.
  induction events as [|l' events IH]; intros pre seen h Hinv l e Hl He;
    [by apply elem_of_nil in Hl|].
  cbn [foldl].
  pose proof (loop_inv_step _ _ _ _ l' Hinv) as Hinv'.
  destruct (dedup_step (seen, h) l') as [seen' h'] eqn:Hstep.
  apply elem_of_cons in Hl as [->|Hl]; [|by eapply IH].
  apply foldl_keys_grow.
  destruct Hinv as [[_ Hf] _ _ _ _].
  destruct (Hf l' e He) as (e' & He' & Hsame).
  unfold dedup_step in Hstep. rewrite He' in Hstep.
  rewrite (identityKey_same _ _ Hsame) in Hstep.
  destruct (map_get seen (identityKey e)) as [ex|] eqn:Hg;
    injection Hstep as <- _.
  - apply map_get_elem in Hg. apply list_elem_of_fmap.
    by exists (identityKey e, ex).
  - unfold map_set_new. rewrite fmap_app. apply elem_of_app. right. left.
Qed.

(** X2.  After [dedup] no two returned records have the same identity
    key, every record of the input has its key among those of the
    returned records, and the result is no longer than the input. *)
Theorem dedup_keys_distinct_and_cover h events :
  NoDup (keyAt (dedup h events).2 <$> (dedup h events).1)
  ∧ (∀ l e, l ∈ events -> h !! l = Some e ->
       ∃ l0, l0 ∈ (dedup h events).1
             ∧ keyAt (dedup h events).2 l0 = identityKey e)
  ∧ (length (dedup h events).1 <= length events)%nat.
Proof.
  pose proof (dedup_loop_inv h events) as [_ _ Hsub _ Hnd].
  destruct (firsts_keys h events) as [_ Hkeys]. simpl in Hkeys.
  pose proof (dedup_perm h events) as Hp.
  rewrite (dedup_unfold h events) in *. cbn [fst snd] in *.
  split; [by rewrite Hp, Hkeys|]. split.
  - intros l e Hl He.
    pose proof (foldl_keys_cover h events [] [] h (loop_inv_init h) l e Hl He)
      as Hin.
    fold (dedup_loop h events) in Hin. rewrite <- Hkeys in Hin.
    apply list_elem_of_fmap in Hin as (l0 & Hk & Hl0).
    exists l0. split; [by rewrite Hp | done].
  - rewrite Hp. by apply sublist_length.
Qed.

(** X3.  When every date string of the input can be read as a date
    and no two records of the input have the same identity key, [dedup]
    changes no record and returns the references of the input in
    ascending order of their start times. *)
Theorem dedup_of_distinct_keys h events :
  dates_parse h events ->
  Forall (λ l, is_Some (h !! l)) events ->
  NoDup (keyAt h <$> events) ->
  dedup h events = (sort (byDate h) events, h)
  ∧ (dedup h events).1 ≡ₚ events
  ∧ StronglySorted (λ a b, num_le (sortTime h a) (sortTime h b) = true)
      (dedup h events).1.
Proof.
  intros Hparse Hlive Hnd.
  assert (Heq : dedup h events = (sort (byDate h) events, h)).
  { unfold dedup, dedup_loop.
    rewrite loop_without_duplicates by done.
    cbn [app]. by rewrite values_of_pairs. }
  rewrite Heq. cbn [fst]. split; [done|]. split; [apply sort_perm|].
  apply (sort_sorted (sortTime h)).
  apply Forall_forall. intros l Hl. by apply Hparse.
Qed.

End KeyProps.

Lemma grows_refl e : grows e e.
Proof. by repeat split. Qed.

Lemma grows_trans e1 e2 e3 : grows e1 e2 -> grows e2 e3 -> grows e1 e3.
Proof.
  intros (Hs & Hp & Hv) (Hs' & Hp' & Hv'). repeat split.
  - by etrans.
  - intros Ht. rewrite Hp', Hp; try done. by rewrite Hp.
  - intros Ht. rewrite Hv', Hv; try done. by rewrite Hv.
Qed.

Lemma assign_grows (h : heap) l upd :
  (∀ x, h !! l = Some x -> grows x (upd x)) ->
  ∀ l' x x', h !! l' = Some x -> assign h l upd !! l' = Some x' -> grows x x'.
Proof.
  intros Hupd l' x x' Hx Hx'. destruct (decide (l = l')) as [<-|Hne].
  - rewrite (assign_same _ _ x) in Hx' by done. injection Hx' as <-. by apply Hupd.
  - rewrite assign_other in Hx' by done.
    pose proof (eq_trans (eq_sym Hx) Hx') as [= <-]. apply grows_refl.
Qed.

Section GrowProps.
Context `{Runtime}.

Lemma cond_assign_frame (c : bool) (h : heap) l upd :
  (∀ e, same_identity e (upd e)) ->
  frame h (if c then assign h l upd else h).
Proof. destruct c; [apply assign_frame | intros; apply frame_refl]. Qed.

Lemma cond_assign_grows (c : bool) (h : heap) l upd :
  (c = true -> ∀ x, h !! l = Some x -> grows x (upd x)) ->
  ∀ l' x x', h !! l' = Some x ->
             (if c then assign h l upd else h) !! l' = Some x' -> grows x x'.
Proof.
  destruct c; intros Hupd l' x x' Hx Hx'.
  - eapply assign_grows; eauto.
  - pose proof (eq_trans (eq_sym Hx) Hx') as [= <-]. apply grows_refl.
Qed.

Lemma merge_dup_grows h ex e l x x' :
  h !! l = Some x -> merge_dup h ex e !! l = Some x' -> grows x x'.
Proof.
  intros Hx Hx'. unfold merge_dup in Hx'. cbv zeta in Hx'.
  remember (if negb (truthy (rd price h ex)) && truthy (rd price h e)
            then assign h ex (set_price (rd price h e)) else h) as h1 eqn:E1.
  remember (if negb (truthy (rd venue h1 ex)) && truthy (rd venue h1 e)
            then assign h1 ex (set_venue (rd venue h1 e)) else h1)
    as h2 eqn:E2.
  assert (Hf1 : frame h h1)
    by (subst h1; apply cond_assign_frame; intros; by repeat split).
  assert (Hf2 : frame h1 h2)
    by (subst h2; apply cond_assign_frame; intros; by repeat split).
  destruct (proj2 Hf1 l x Hx) as (x1 & Hx1 & _).
  destruct (proj2 Hf2 l x1 Hx1) as (x2 & Hx2 & _).
  assert (G1 : grows x x1).
  { rewrite E1 in Hx1. revert Hx1. apply cond_assign_grows; [|done].
    intros [Hp _]%andb_true_iff y Hy.
    unfold rd in Hp. rewrite Hy in Hp. simpl in Hp.
    apply negb_true_iff in Hp. repeat split; simpl; try done. congruence. }
  assert (G2 : grows x1 x2).
  { rewrite E2 in Hx2. revert Hx2. apply cond_assign_grows; [|done].
    intros [Hv _]%andb_true_iff y Hy.
    unfold rd in Hv. rewrite Hy in Hv. simpl in Hv.
    apply negb_true_iff in Hv. repeat split; simpl; try done. congruence. }
  assert (G3 : grows x2 x').
  { revert Hx'. apply assign_grows; [|done]. intros y Hy.
    repeat split; simpl; try done.
    unfold rd_source. rewrite Hy. simpl. by apply prefix_app_r. }
  eauto using grows_trans.
Qed.

Lemma dedup_step_grows seen h l' l x x' :
  h !! l = Some x -> (dedup_step (seen, h) l').2 !! l = Some x' -> grows x x'.
Proof.
  unfold dedup_step. intros Hx.
  destruct (h !! l') as [e|]; simpl.
  2:{ intros Hx'. pose proof (eq_trans (eq_sym Hx) Hx') as [= <-].
      apply grows_refl. }
  destruct (map_get seen _) as [ex|]; simpl.
  - by apply merge_dup_grows.
  - intros Hx'. pose proof (eq_trans (eq_sym Hx) Hx') as [= <-].
    apply grows_refl.
Qed.

Lemma foldl_grows h0 events : ∀ pre seen h l x x',
  loop_inv h0 pre seen h ->
  h !! l = Some x ->
  (foldl dedup_step (seen, h) events).2 !! l = Some x' -> grows x x'.
Proof.
  induction events as [|l' events IH]; intros pre seen h l x x' Hinv Hx Hx';
    cbn [foldl] in Hx'.
  - simpl in Hx'. pose proof (eq_trans (eq_sym Hx) Hx') as [= <-].
    apply grows_refl.
  - pose proof (loop_inv_step _ _ _ _ l' Hinv) as Hinv'.
    pose proof (dedup_step_grows seen h l' l x) as Hstep.
    destruct (dedup_step (seen, h) l') as [seen' h'] eqn:Hs.
    cbn [fst snd] in *.
    destruct (h' !! l) as [x1|] eqn:Hx1.
    + eapply grows_trans; [by apply Hstep|]. by eapply IH.
    + exfalso.
      destruct Hinv as [[Hl _] _ _ _ _], Hinv' as [[Hl' _] _ _ _ _].
      apply lookup_ge_None in Hx1. apply lookup_lt_Some in Hx. lia.
Qed.

(** X4.  [dedup] never shortens or rewrites a source: the source a
    record has before the call is a prefix of the source it has after.
    A record that has a price keeps it, and a record that has a venue
    keeps it. *)
Theorem dedup_source_only_grows h events l e e' :
  h !! l = Some e ->
  (dedup h events).2 !! l = Some e' ->
  source e `prefix_of` source e'
  ∧ (truthy (price e) = true -> price e' = price e)
  ∧ (truthy (venue e) = true -> venue e' = venue e).
Proof.
  intros He He'. rewrite dedup_unfold in He'. cbn [snd] in He'.
  exact (foldl_grows h events [] [] h l e e' (loop_inv_init h) He He').
Qed.

(** X5.  When the same object stands twice in the input, it is merged
    into itself: it is returned once, its source is followed by a comma
    and the same source again, and nothing else changes. *)
Theorem dedup_of_an_alias h l e :
  h !! l = Some e ->
  dedup h [l; l]
  = ([l], <[l := set_source (source e ++ lit ", " ++ source e) e]> h).
Proof.
  intros He. unfold dedup, dedup_loop. cbn [foldl].
  assert (dedup_step ([], h) l = ([(identityKey e, l)], h)) as ->.
  { unfold dedup_step. by rewrite He. }
  assert (dedup_step ([(identityKey e, l)], h) l
          = ([(identityKey e, l)], merge_dup h l l)) as ->.
  { unfold dedup_step. rewrite He. cbn [map_get]. unfold streq.
    by rewrite bool_decide_eq_true_2. }
  f_equal. unfold merge_dup. cbv zeta.
  repeat (rewrite andb_negb_l; cbv iota).
  unfold assign, rd_source. by rewrite He.
Qed.

End GrowProps.

Lemma dedup_of_distinct_keys_witness :
  @dates_parse Latin1.runtime [undated; spring; winter] [0; 1; 2]%nat
  ∧ Forall (λ l, is_Some ([undated; spring; winter] !! l)) [0; 1; 2]%nat
  ∧ NoDup (@keyAt Latin1.runtime [undated; spring; winter] <$> [0; 1; 2]%nat)
  ∧ @dedup Latin1.runtime [undated; spring; winter] [0; 1; 2]%nat
    = (sort (@byDate Latin1.runtime [undated; spring; winter]) [0; 1; 2]%nat,
       [undated; spring; winter]).
Proof.
  assert (Hd : @dates_parse Latin1.runtime [undated; spring; winter]
                 [0; 1; 2]%nat).
  { intros l Hl.
    repeat (apply elem_of_cons in Hl as [->|Hl]); try discriminate.
    by apply elem_of_nil in Hl. }
  assert (Hl : Forall (λ l, is_Some ([undated; spring; winter] !! l))
                 [0; 1; 2]%nat)
    by (repeat constructor; by eexists).
  assert (Hn : NoDup (@keyAt Latin1.runtime [undated; spring; winter]
                        <$> [0; 1; 2]%nat)).
  { apply NoDup_ListNoDup. vm_compute.
    repeat constructor; cbn; intuition discriminate. }
  split; [exact Hd|]. split; [exact Hl|]. split; [exact Hn|].
  exact (proj1 (@dedup_of_distinct_keys Latin1.runtime _ _ Hd Hl Hn)).
Defined.

Lemma dedup_source_only_grows_witness :
  [stadtfest_a; stadtfest_b] !! 0%nat = Some stadtfest_a
  ∧ (@dedup Latin1.runtime [stadtfest_a; stadtfest_b] [0; 1]%nat).2 !! 0%nat
    = Some stadtfest_merged
  ∧ source stadtfest_a `prefix_of` source stadtfest_merged
  ∧ (truthy (price stadtfest_a) = true ->
     price stadtfest_merged = price stadtfest_a)
  ∧ (truthy (venue stadtfest_a) = true ->
     venue stadtfest_merged = venue stadtfest_a).
Proof.
  assert (H0 : [stadtfest_a; stadtfest_b] !! 0%nat = Some stadtfest_a)
    by reflexivity.
  assert (H1 : (@dedup Latin1.runtime [stadtfest_a; stadtfest_b]
                  [0; 1]%nat).2 !! 0%nat = Some stadtfest_merged)
    by reflexivity.
  split; [exact H0|]. split; [exact H1|].
  exact (@dedup_source_only_grows Latin1.runtime _ _ _ _ _ H0 H1).
Defined.

Lemma dedup_of_an_alias_witness :
  [stadtfest_a] !! 0%nat = Some stadtfest_a
  ∧ @dedup Latin1.runtime [stadtfest_a] [0; 0]%nat
    = ([0%nat],
       <[0%nat := set_source (source stadtfest_a ++ lit ", "
                               ++ source stadtfest_a) stadtfest_a]>
         [stadtfest_a]).
Proof.
  assert (H0 : [stadtfest_a] !! 0%nat = Some stadtfest_a) by reflexivity.
  split; [exact H0|].
  exact (@dedup_of_an_alias Latin1.runtime _ _ _ H0).
Defined.

(** ** The resolver: windows and colons *)

Lemma split_on_app c (a r : jsstr) :
  c ∉ a -> split_on c (a ++ c :: r) = a :: split_on c r.
Proof.
  induction a as [|x a IH]; intros Hc; simpl.
  - by rewrite N.eqb_refl.
  - apply not_elem_of_cons in Hc as [Hx Ha].
    rewrite (proj2 (N.eqb_neq x c)) by congruence.
    by rewrite IH.
Qed.

Lemma split_on_none c (a : jsstr) : c ∉ a -> split_on c a = [a].
Proof.
  induction a as [|x a IH]; intros Hc; simpl; [done|].
  apply not_elem_of_cons in Hc as [Hx Ha].
  rewrite (proj2 (N.eqb_neq x c)) by congruence.
  by rewrite IH.
Qed.

Lemma includes_colon (a r : jsstr) : includes (a ++ 58%N :: r) (lit ":") = true.
Proof.
  induction a as [|x a IH]; [by destruct r|].
  cbn [app includes]. rewrite IH. apply orb_true_r.
Qed.

Section WindowProps.
Context `{Runtime}.

(** X6.  With no date expression the range starts at today's midnight
    and ends with the last millisecond of the seventh day after today,
    eight calendar days in all; with "today" it is today from midnight
    to the last millisecond.  The clock reading lies in the first day
    of both. *)
Theorem default_and_today_windows clock d :
  clock_ok clock -> truthy d = false ->
  ∃ s, s mod msPerDay = 0
       ∧ s <= clock < s + msPerDay
       ∧ getDateRange clock d
         = Normal {| start := Some s; end_ := Some (s + 8 * msPerDay - 1) |}
       ∧ getDateRange clock (Some (lit "today"))
         = Normal {| start := Some s; end_ := Some (s + msPerDay - 1) |}.
Proof.
  intros Hc Hd. exists (Day clock * msPerDay).
  pose proof (Day_bounds clock) as Hb.
  split; [apply Z.mod_mul; unfold msPerDay; lia|]. split; [lia|].
  rewrite weekly_window, today_window by done.
  split; do 3 f_equal; lia.
Qed.

(** X7.  In an expression with more than one colon, only the text
    before the first colon and the text between the first two colons are
    read; what follows the second colon is ignored. *)
Theorem text_after_second_colon_is_ignored clock (a b c : jsstr) :
  58%N ∉ a -> 58%N ∉ b ->
  getDateRange clock (Some (a ++ 58%N :: b ++ 58%N :: c))
  = getDateRange clock (Some (a ++ 58%N :: b))
  ∧ getDateRange clock (Some (a ++ 58%N :: b))
    = Normal {| start := startOfDay (parseISO a);
                end_ := endOfDay (parseISO b) |}.
Proof.
  intros Ha Hb.
  rewrite !getDateRange_pair by apply includes_colon.
  rewrite !split_on_app by done.
  by rewrite (split_on_none _ b) by done.
Qed.

End WindowProps.

Lemma default_and_today_windows_witness :
  clock_ok saturday ∧ truthy None = false
  ∧ ∃ s, s mod msPerDay = 0
       ∧ s <= saturday < s + msPerDay
       ∧ @getDateRange Latin1.runtime saturday None
         = Normal {| start := Some s; end_ := Some (s + 8 * msPerDay - 1) |}
       ∧ @getDateRange Latin1.runtime saturday (Some (lit "today"))
         = Normal {| start := Some s; end_ := Some (s + msPerDay - 1) |}.
Proof.
  assert (Hc : clock_ok saturday)
    by (unfold clock_ok; vm_compute; split; discriminate).
  split; [exact Hc|]. split; [reflexivity|].
  exact (@default_and_today_windows Latin1.runtime saturday None Hc eq_refl).
Defined.

Lemma text_after_second_colon_is_ignored_witness :
  (58%N ∉ lit "2026-02-10") ∧ (58%N ∉ lit "2026-02-17")
  ∧ @getDateRange Latin1.runtime saturday
      (Some (lit "2026-02-10" ++ 58%N :: lit "2026-02-17" ++ 58%N :: lit "30"))
    = @getDateRange Latin1.runtime saturday
        (Some (lit "2026-02-10" ++ 58%N :: lit "2026-02-17")).
Proof.
  assert (Ha : 58%N ∉ lit "2026-02-10")
    by (rewrite list_elem_of_In; cbn; intuition discriminate).
  assert (Hb : 58%N ∉ lit "2026-02-17")
    by (rewrite list_elem_of_In; cbn; intuition discriminate).
  split; [exact Ha|]. split; [exact Hb|].
  exact (proj1 (@text_after_second_colon_is_ignored Latin1.runtime saturday
                  _ _ (lit "30") Ha Hb)).
Defined.

(** ** The municipal adapter: whitespace and dates *)

Lemma spaced_cons2 a b r :
  spaced (a :: b :: r) = negb (isSpace a && isSpace b) && spaced (b :: r).
Proof. reflexivity. Qed.

Lemma collapseFrom_run_head s :
  match collapseFrom true s with
  | c :: _ => isSpace c = false
  | [] => True
  end.
Proof.
  induction s as [|c r IH]; simpl; [done|].
  destruct (isSpace c) eqn:Hc; [exact IH | exact Hc].
Qed.

Lemma spaced_collapseFrom s : ∀ b, spaced (collapseFrom b s) = true.
Proof.
  induction s as [|c r IH]; intros b; simpl; [done|].
  destruct (isSpace c) eqn:Hc.
  - destruct b; [apply IH|].
    pose proof (collapseFrom_run_head r) as Hh. specialize (IH true).
    destruct (collapseFrom true r) as [|d r']; [done|].
    rewrite spaced_cons2, Hh, IH. by rewrite andb_false_r.
  - specialize (IH false).
    destruct (collapseFrom false r) as [|d r']; [done|].
    by rewrite spaced_cons2, Hc, IH.
Qed.

Lemma spaced_tail a s : spaced (a :: s) = true -> spaced s = true.
Proof. destruct s; [done|]. rewrite spaced_cons2. by intros [_ ?]%andb_true_iff. Qed.

Lemma spaced_trimStart s : spaced s = true -> spaced (trimStart s) = true.
Proof.
  induction s as [|c r IH]; [done|]. intros Hs. simpl.
  destruct (isSpace c); [|done]. apply IH. by eapply spaced_tail.
Qed.

Lemma trimEnd_first r d r' : trimEnd r = d :: r' -> ∃ r0, r = d :: r0.
Proof.
  destruct r as [|c r]; [done|]. rewrite trimEnd_cons.
  destruct (trimEnd r); [destruct (isSpace c)|]; intros [= -> _]; eauto.
Qed.

Lemma spaced_trimEnd s : spaced s = true -> spaced (trimEnd s) = true.
Proof.
  induction s as [|c r IH]; [done|]. intros Hs. rewrite trimEnd_cons.
  destruct (trimEnd r) as [|d r'] eqn:Hr; [by destruct (isSpace c)|].
  destruct (trimEnd_first _ _ _ Hr) as [r0 ->].
  rewrite spaced_cons2 in Hs. apply andb_true_iff in Hs as [Hcd Hs].
  rewrite spaced_cons2, Hcd. simpl. by apply IH.
Qed.

Lemma spaced_text t : spaced (trim (collapse t)) = true.
Proof. apply spaced_trimEnd, spaced_trimStart, spaced_collapseFrom. Qed.

Lemma lazyThenSpaces_spaced s : spaced s = true -> lazyThenSpaces s = None.
Proof.
  induction s as [|c r IH]; [done|]. intros Hs. simpl.
  destruct (Rx.isLineTerminator c); [done|].
  apply spaced_tail in Hs as Hr.
  destruct r as [|a [|b r']]; [done | by apply IH |].
  rewrite spaced_cons2 in Hr. apply andb_true_iff in Hr as [Hab Hr'].
  apply negb_true_iff in Hab. rewrite Hab. apply IH.
  by rewrite spaced_cons2, Hab, Hr'.
Qed.

Lemma spaces_lazy_spaced s :
  spaced s = true -> Rx.spaces0 lazyThenSpaces s = None.
Proof.
  intros Hs. unfold Rx.spaces0. rewrite lazyThenSpaces_spaced by done.
  assert (Rx.spaces1 lazyThenSpaces s = None) as ->; [|done].
  induction s as [|c r IH]; [done|]. simpl.
  apply spaced_tail in Hs.
  destruct (isSpace c); [|done].
  by rewrite IH, lazyThenSpaces_spaced.
Qed.

(** X8.  The pattern that is to strip a "© author" in front of a title
    needs two whitespace characters in a row, and the link text it is
    applied to has had every run of whitespace replaced by one space:
    on that text the replacement changes nothing. *)
Theorem attribution_is_never_stripped t :
  spaced (trim (collapse t)) = true
  ∧ stripAttribution (trim (collapse t)) = trim (collapse t).
Proof.
  pose proof (spaced_text t) as Hs. split; [done|].
  destruct (trim (collapse t)) as [|c r]; [done|].
  apply spaced_tail in Hs. apply spaces_lazy_spaced in Hs.
  unfold stripAttribution.
  destruct c as [|p]; [done|].
  do 8 (try destruct p as [p|p|]; try done).
  by rewrite Hs.
Qed.

Lemma firstMatch_inv {A} (m : jsstr -> option A) s r :
  Rx.firstMatch m s = Some r -> ∃ s', m s' = Some r.
Proof.
  induction s as [|c s IH]; simpl.
  - destruct (m []) eqn:Hm; [|done]. intros [= <-]. eauto.
  - destruct (m (c :: s)) eqn:Hm; [intros [= <-]; eauto | exact IH].
Qed.

Lemma spaces1_inv {A} (k : jsstr -> option A) s r :
  Rx.spaces1 k s = Some r -> ∃ s', k s' = Some r.
Proof.
  induction s as [|c s IH]; simpl; [done|].
  destruct (isSpace c); [|done].
  destruct (Rx.spaces1 k s) eqn:Hk; [intros [= <-]; by apply IH | eauto].
Qed.

Lemma digits12_inv {A} sep (k : jsstr -> jsstr -> option A) s r :
  Rx.digits12 sep k s = Some r ->
  ∃ d rest, k d rest = Some r ∧ digits12P d.
Proof.
  unfold Rx.digits12, digits12P. intros Hm.
  assert (Hone :
    match s with
    | a :: c :: r0 => if isDigit a && (c =? sep)%N then k [a] r0 else None
    | _ => None
    end = Some r -> ∃ d rest, k d rest = Some r ∧ digits12P d).
  { destruct s as [|a [|c r0]]; try done.
    destruct (isDigit a) eqn:Ha; [|done]. simpl.
    destruct (c =? sep)%N; [|done]. intros Hk.
    exists [a], r0. split; [done|]. left. eauto. }
  destruct s as [|a [|b [|c r0]]]; try (by apply Hone).
  destruct (isDigit a && isDigit b && (c =? sep)%N) eqn:Hab;
    [|by apply Hone].
  destruct (k [a; b] r0) eqn:Hk; [|by apply Hone].
  injection Hm as <-.
  apply andb_true_iff in Hab as [[Ha Hb]%andb_true_iff _].
  exists [a; b], r0. split; [done|]. right. eauto.
Qed.

Lemma digitsN_inv {A} n (k : jsstr -> jsstr -> option A) s r :
  Rx.digitsN n k s = Some r ->
  ∃ d rest, k d rest = Some r ∧ length d = n ∧ forallb isDigit d = true.
Proof.
  unfold Rx.digitsN.
  destruct ((n <=? length s)%nat && forallb isDigit (take n s)) eqn:Hn; [|done].
  apply andb_true_iff in Hn as [Hlen%Nat.leb_le Hd]. intros Hk.
  exists (take n s), (drop n s). split; [done|]. split; [|done].
  rewrite length_take. lia.
Qed.

Lemma isoLocal_out y mo d h min :
  length y = 4%nat -> forallb isDigit y = true ->
  digits12P mo -> digits12P d -> digits12P h ->
  length min = 2%nat -> forallb isDigit min = true ->
  isoLocal (y ++ lit "-" ++ padStart2 mo ++ lit "-" ++ padStart2 d
              ++ lit "T" ++ padStart2 h ++ lit ":" ++ padStart2 min
              ++ lit ":00") = true.
Proof.
  intros Hy Hyd Hmo Hd Hh Hmin Hmind.
  destruct y as [|y1 [|y2 [|y3 [|y4 [|]]]]]; try done.
  destruct min as [|n1 [|n2 [|]]]; try done.
  cbn in Hyd, Hmind.
  repeat match goal with
         | H : _ && _ = true |- _ => apply andb_true_iff in H as [? ?]
         end.
  destruct Hmo as [(a & -> & ?)|(a & b & -> & ? & ?)],
           Hd as [(a' & -> & ?)|(a' & b' & -> & ? & ?)],
           Hh as [(a'' & -> & ?)|(a'' & b'' & -> & ? & ?)];
    cbn;
    repeat match goal with
           | H : isDigit _ = true |- _ => rewrite H; clear H
           end; reflexivity.
Qed.

(** X9.  [parseDateDE] gives null or a string of the shape
    YYYY-MM-DDTHH:MM:00 with a digit in every place: a day, month or
    hour written with one digit is padded, and a missing time is
    00:00. *)
Theorem parseDateDE_shape str r :
  parseDateDE str = Some r -> isoLocal r = true ∧ length r = 19%nat.
Proof.
  intros Hp.
  assert (Hiso : isoLocal r = true).
  { unfold parseDateDE in Hp. destruct (negb (truthy str)); [done|].
    apply firstMatch_inv in Hp as [s' Hp].
    apply digits12_inv in Hp as (d & s1 & Hp & Hd).
    apply digits12_inv in Hp as (mo & s2 & Hp & Hmo).
    apply digitsN_inv in Hp as (y & s3 & Hp & Hy & Hyd).
    destruct (Rx.spaces1 _ s3) as [r'|] eqn:Hs; injection Hp as <-.
    - apply spaces1_inv in Hs as [s4 Hs].
      apply digits12_inv in Hs as (h & s5 & Hs & Hh).
      apply digitsN_inv in Hs as (min & s6 & Hs & Hmin & Hmind).
      injection Hs as <-. by apply isoLocal_out.
    - apply (isoLocal_out y mo d (lit "00") (lit "00")); try done.
      right. by exists 48%N, 48%N. }
  split; [done|]. unfold isoLocal in Hiso.
  do 20 (destruct r as [|? r]; try done).
Qed.

Lemma parseDateDE_shape_witness :
  parseDateDE (Some (lit "Sa, 5.2.2026 9:05")) = Some (lit "2026-02-05T09:05:00")
  ∧ isoLocal (lit "2026-02-05T09:05:00") = true
  ∧ length (lit "2026-02-05T09:05:00") = 19%nat.
Proof.
  assert (Hp : parseDateDE (Some (lit "Sa, 5.2.2026 9:05"))
               = Some (lit "2026-02-05T09:05:00")) by reflexivity.
  split; [exact Hp|].
  exact (parseDateDE_shape _ _ Hp).
Defined.

(** ** The adapters: what every returned record has *)

Lemma Normal_inj {A} (a b : A) : Normal a = Normal b -> a = b.
Proof. congruence. Qed.

Lemma slice0_short n (s : jsstr) : (length (slice0 n s) <= n)%nat.
Proof. unfold slice0. rewrite length_take. lia. Qed.

Lemma or_null_short (s : jsstr) :
  (length s <= 200)%nat -> (length (default [] (or_null (Some s))) <= 200)%nat.
Proof.
  intros Hs. unfold or_null.
  destruct (truthy (Some s)); [exact Hs | exact (Nat.le_0_l 200)].
Qed.

Lemma extractDescription_short text :
  (length (default [] (extractDescription text)) <= 200)%nat.
Proof.
  unfold extractDescription. destruct (descMatch text) as [d|].
  - exact (slice0_short 200 d).
  - destruct (afterDate text) as [d|];
      [exact (slice0_short 200 d) | exact (Nat.le_0_l 200)].
Qed.

Section RecordProps.
Context `{Runtime}.

(** The fields of a pushed record that do not depend on the page. *)
Lemma giessenItem_fields startTs endTs el ev :
  giessenItem startTs endTs el = Normal (Some ev) ->
  source ev = lit "giessen.de"
  ∧ address ev = Some GIESSEN
  ∧ venue ev = None
  ∧ price ev = None
  ∧ absolute_url ev
  ∧ short_description ev.
Proof.
  unfold giessenItem.
  destruct (li_link el) as [link|]; [|done].
  destruct (slugName (a_href link)) as [name0|]; [|done].
  destruct (unusable (Some _)); [done|].
  destruct (isNavLabel _); [done|].
  destruct (_ && _); [done|].
  destruct (extractDates _) as [d de].
  destruct (negb _); [done|].
  destruct (truthy (a_href link)) eqn:Hh;
    [destruct (startsWith (default [] (a_href link)) (lit "http")) eqn:Hs|];
    intros Heq%Normal_inj; apply (inj Some) in Heq as <-;
    unfold absolute_url, short_description;
    cbn [source address venue price url description];
    (repeat split; [eauto .. | apply extractDescription_short]).
Qed.

Lemma tmMap_events P items : ∀ evs,
  (∀ e ev, tmEvent e = Normal ev -> P ev) ->
  tmMap items = Normal evs -> Forall P evs.
Proof.
  induction items as [|e items IH]; intros evs HP; simpl.
  - by intros [= <-].
  - destruct (tmEvent e) as [ev|] eqn:He; [|done].
    destruct (tmMap items) as [evs'|]; [|done].
    intros [= <-]. constructor; [by eapply HP | by apply IH].
Qed.

Lemma fetchTicketmaster_events P apiKey dateRange response :
  (∀ e ev, tmEvent e = Normal ev -> P ev) ->
  Forall P (events (fetchTicketmaster apiKey dateRange response)).
Proof.
  intros HP. unfold fetchTicketmaster.
  destruct (negb (truthy apiKey)); [constructor|].
  destruct (negb _); [constructor|].
  destruct response as [[items|]|]; try constructor.
  destruct (tmMap items) as [evs|] eqn:Hm; [|constructor].
  by eapply tmMap_events.
Qed.

Lemma tmEvent_short e ev : tmEvent e = Normal ev -> short_description ev.
Proof.
  unfold tmEvent.
  destruct (tm_priceRanges e) as [[|min rest]|]; [done| |];
    intros <-%Normal_inj; apply or_null_short, slice0_short.
Qed.

(** X10.  In every record that an adapter returns, the description is
    at most 200 code units long. *)
Theorem descriptions_are_at_most_200 :
  (∀ apiKey dateRange response,
     Forall short_description
       (events (fetchTicketmaster apiKey dateRange response)))
  ∧ (∀ dateRange page,
       Forall short_description (events (fetchGiessenDe dateRange page)))
  ∧ (∀ page, Forall short_description (events (fetchMeetup page)))
  ∧ (∀ cityKey session,
       Forall short_description (events (fetchDeskline cityKey session))).
Proof.
  split; [|split; [|split]].
  - intros. apply fetchTicketmaster_events, tmEvent_short.
  - intros. apply fetchGiessenDe_events.
    intros s e el ev Hev. by apply giessenItem_fields in Hev as (_&_&_&_&_&?).
  - intros [[blocks cards]|]; [|constructor]. unfold fetchMeetup.
    assert (Hld : Forall short_description (ldEvents meetupLd blocks)).
    { apply Forall_forall. intros ev Hev. unfold ldEvents in Hev.
      apply list_elem_of_omap in Hev as (item & _ & Hitem).
      unfold meetupLd in Hitem. destruct (_ || _); [|done].
      apply (inj Some) in Hitem as <-. apply or_null_short, slice0_short. }
    cbn [events]. destruct (_ =? _)%nat; [|done].
    apply Forall_forall. intros ev Hev.
    apply list_elem_of_omap in Hev as (c & _ & Hc).
    unfold meetupCard in Hc. destruct (truthy (Some _)); [|done].
    apply (inj Some) in Hc as <-. exact (Nat.le_0_l 200).
  - intros cityKey session. unfold fetchDeskline.
    destruct (CITIES cityKey) as [city|]; [|constructor].
    destruct session as [[frames mainCards]|]; [|constructor].
    cbn [events]. apply Forall_fmap.
    assert (Hraw : ∀ r, (∃ i, desklineLd i = Some r) ∨ (∃ c, frameCard c = Some r)
                        ∨ (∃ c, mainCard c = Some r) ->
                        short_description (normalize city r)).
    { unfold short_description. intros r [[i Hi]|[[c Hc]|[c Hc]]].
      - unfold desklineLd in Hi. destruct (is_str _ _); [|done].
        apply (inj Some) in Hi as <-. exact (slice0_short 200 _).
      - unfold frameCard in Hc. destruct (unusable _); [done|].
        apply (inj Some) in Hc as <-. exact (Nat.le_0_l 200).
      - unfold mainCard in Hc. destruct (unusable _); [done|].
        apply (inj Some) in Hc as <-. exact (Nat.le_0_l 200). }
    assert (Hframes : Forall (λ r, short_description (normalize city r))
                        (concat (map frameExtract frames))).
    { apply Forall_concat, Forall_forall. intros rs Hrs.
      apply list_elem_of_In, in_map_iff in Hrs as (frame & <- & _).
      unfold frameExtract. apply Forall_app. split; apply Forall_forall;
        intros r Hr; apply list_elem_of_omap in Hr as (x & _ & Hx);
        apply Hraw; eauto. }
    destruct (_ =? _)%nat; [|done].
    apply Forall_app. split; [done|].
    apply Forall_forall. intros r Hr.
    apply list_elem_of_omap in Hr as (x & _ & Hx). apply Hraw; eauto.
Qed.

(** X11.  Every record of the municipal adapter has the source
    giessen.de, the address Gießen, no venue and no price, and a url
    that is null or starts with http: a relative link is prefixed with
    the address of the site. *)
Theorem giessen_records_are_uniform dateRange page :
  Forall (λ ev, source ev = lit "giessen.de"
                ∧ address ev = Some GIESSEN
                ∧ venue ev = None
                ∧ price ev = None
                ∧ absolute_url ev)
    (events (fetchGiessenDe dateRange page)).
Proof.
  apply fetchGiessenDe_events. intros s e el ev Hev.
  apply giessenItem_fields in Hev as (?&?&?&?&?&_). done.
Qed.

Lemma giessenItem_throws startTs endTs el err :
  giessenItem startTs endTs el = Throw err -> err = "URIError"%string.
Proof.
  unfold giessenItem, slugName.
  destruct (li_link el) as [link|]; [|done].
  destruct (truthy (a_href link)); [destruct (slugMatch _);
    [destruct (decodeURIComponent _)|]|];
    repeat (case_match; try done); by intros [= <-].
Qed.

Lemma giessenEach_throws startTs endTs els : ∀ acc el err,
  el ∈ els -> giessenItem startTs endTs el = Throw err ->
  giessenEach startTs endTs els acc = Throw "URIError".
Proof.
  induction els as [|el' els IH]; intros acc el err Hin Hthrow;
    [by apply elem_of_nil in Hin|].
  simpl. destruct (giessenItem startTs endTs el') as [[ev|]|err'] eqn:Hel'.
  - apply elem_of_cons in Hin as [->|Hin]; [congruence | by eapply IH].
  - apply elem_of_cons in Hin as [->|Hin]; [congruence | by eapply IH].
  - by rewrite (giessenItem_throws _ _ _ _ Hel').
Qed.

Lemma tmMap_throws items e :
  e ∈ items -> tm_priceRanges e = Some [] -> tmMap items = Throw "TypeError".
Proof.
  induction items as [|e' items IH]; intros Hin He;
    [by apply elem_of_nil in Hin|].
  simpl. destruct (tmEvent e') as [ev|err] eqn:He'.
  - apply elem_of_cons in Hin as [->|Hin].
    + unfold tmEvent in He'. by rewrite He in He'.
    + by rewrite IH.
  - unfold tmEvent in He'.
    destruct (tm_priceRanges e') as [[|min rest]|];
      [by injection He' as <- | done | done].
Qed.

(** X12.  One item is enough to lose a whole source: when the price
    ranges of one Ticketmaster item are an empty array, or the link of
    one list item of the municipal page has a slug that cannot be
    decoded, the adapter returns an error and no records at all,
    whatever the other items are. *)
Theorem one_bad_item_voids_the_source :
  (∀ apiKey dateRange items e,
     truthy apiKey = true ->
     isValid (start dateRange) && isValid (end_ dateRange) = true ->
     e ∈ items -> tm_priceRanges e = Some [] ->
     fetchTicketmaster apiKey dateRange (Normal (Some items))
     = {| events := []; status := StatusError "TypeError" |})
  ∧ (∀ dateRange els el err,
       el ∈ els ->
       giessenItem (getTime (start dateRange)) (getTime (end_ dateRange)) el
       = Throw err ->
       fetchGiessenDe dateRange (Normal els)
       = {| events := []; status := StatusError "URIError" |}).
Proof.
  split.
  - intros apiKey dateRange items e Hkey Hvalid Hin He.
    unfold fetchTicketmaster. rewrite Hkey, Hvalid. cbn [negb].
    by rewrite (tmMap_throws items e).
  - intros dateRange els el err Hin Hthrow. unfold fetchGiessenDe.
    by rewrite (giessenEach_throws _ _ els [] el err).
Qed.

Lemma tmMap_all items :
  Forall (λ e, tm_priceRanges e ≠ Some []) items ->
  ∃ evs, tmMap items = Normal evs
         ∧ name <$> evs = tm_name <$> items
         ∧ Forall (λ ev, source ev = lit "ticketmaster") evs.
Proof.
  induction 1 as [|e items He Hitems (evs & Hm & Hn & Hs)]; simpl.
  - by exists [].
  - assert (∃ ev, tmEvent e = Normal ev ∧ name ev = tm_name e
                  ∧ source ev = lit "ticketmaster") as (ev & -> & Hev & Hsrc).
    { unfold tmEvent. destruct (tm_priceRanges e) as [[|min rest]|];
        [done| |]; by eexists. }
    rewrite Hm. exists (ev :: evs). split; [done|]. split.
    + rewrite !fmap_cons. by rewrite Hev, Hn.
    + by constructor.
Qed.

(** X13.  With a key configured, a valid range and a response in which
    no item has an empty array of price ranges, the structured API
    adapter returns one record for every item of the response, in the
    order of the response and with the item's name. *)
Theorem ticketmaster_keeps_every_item apiKey dateRange items :
  truthy apiKey = true ->
  isValid (start dateRange) && isValid (end_ dateRange) = true ->
  Forall (λ e, tm_priceRanges e ≠ Some []) items ->
  status (fetchTicketmaster apiKey dateRange (Normal (Some items)))
  = StatusOk (length items)
  ∧ name <$> events (fetchTicketmaster apiKey dateRange (Normal (Some items)))
    = tm_name <$> items
  ∧ Forall (λ ev, source ev = lit "ticketmaster")
      (events (fetchTicketmaster apiKey dateRange (Normal (Some items)))).
Proof.
  intros Hkey Hvalid Hitems. unfold fetchTicketmaster.
  rewrite Hkey, Hvalid. cbn [negb].
  destruct (tmMap_all items Hitems) as (evs & -> & Hn & Hs).
  cbn [events status]. split; [|done].
  f_equal. rewrite <- (length_fmap name), Hn. apply length_fmap.
Qed.

End RecordProps.

Example bad_slug_throws :
  @giessenItem Latin1.runtime (getTime (start june)) (getTime (end_ june))
    li_kaputt = Throw "URIError".
Proof. reflexivity. Qed.

Lemma one_bad_item_voids_the_source_witness :
  li_kaputt ∈ [li_konzert; li_kaputt]
  ∧ @giessenItem Latin1.runtime (getTime (start june)) (getTime (end_ june))
      li_kaputt = Throw "URIError"
  ∧ @fetchGiessenDe Latin1.runtime june (Normal [li_konzert; li_kaputt])
    = {| events := []; status := StatusError "URIError" |}.
Proof.
  assert (Hin : li_kaputt ∈ [li_konzert; li_kaputt]) by (right; left).
  assert (Ht : @giessenItem Latin1.runtime (getTime (start june))
                 (getTime (end_ june)) li_kaputt = Throw "URIError")
    by reflexivity.
  split; [exact Hin|]. split; [exact Ht|].
  exact (proj2 (@one_bad_item_voids_the_source Latin1.runtime)
           june _ _ _ Hin Ht).
Defined.

Lemma ticketmaster_keeps_every_item_witness :
  truthy (Some (lit "key")) = true
  ∧ isValid (start june) && isValid (end_ june) = true
  ∧ Forall (λ e, tm_priceRanges e ≠ Some []) [tm_nameless]
  ∧ status (@fetchTicketmaster Latin1.runtime (Some (lit "key")) june
              (Normal (Some [tm_nameless])))
    = StatusOk 1.
Proof.
  assert (Hf : Forall (λ e, tm_priceRanges e ≠ Some []) [tm_nameless])
    by (repeat constructor; discriminate).
  split; [reflexivity|]. split; [reflexivity|]. split; [exact Hf|].
  exact (proj1 (@ticketmaster_keeps_every_item Latin1.runtime
                  (Some (lit "key")) june [tm_nameless] eq_refl eq_refl Hf)).
Defined.

(* ===================================================================== *)
(** ** The command line *)
(* ===================================================================== *)

Section ArgsProps.
Variable parseInt : jsstr -> num.

Lemma takeFlag_hit args flag set i o v :
  args !! i = Some (lit flag) -> args !! S i = Some v ->
  truthy (Some v) = true ->
  takeFlag args flag set (i, o) = (S i, set v o).
Proof.
  intros H0 H1 Hv. unfold takeFlag, is_str.
  cbv zeta. rewrite H0, H1, Hv. by rewrite bool_decide_eq_true_2.
Qed.

Lemma takeFlag_miss args flag set i o :
  args !! i ≠ Some (lit flag) -> takeFlag args flag set (i, o) = (i, o).
Proof.
  intros H0. unfold takeFlag, is_str.
  by rewrite bool_decide_eq_false_2 by done.
Qed.

Lemma takeFlag_novalue args flag set i o :
  truthy (args !! S i) = false -> takeFlag args flag set (i, o) = (i, o).
Proof. intros H1. unfold takeFlag. cbv zeta. by rewrite H1, andb_false_r. Qed.

(** One line of the loop either does nothing or consumes the argument
    after its option. *)
Lemma takeFlag_cases args flag set st :
  takeFlag args flag set st = st
  ∨ ∃ v, follows args flag v
         ∧ takeFlag args flag set st = (S st.1, set v st.2).
Proof.
  destruct st as [i o]. unfold takeFlag, is_str. cbv zeta.
  destruct (bool_decide_reflect (args !! i = Some (lit flag))) as [H0|];
    [|by left].
  destruct (args !! S i) as [v|] eqn:H1; [|by left].
  destruct (truthy (Some v)) eqn:Hv; [|by left].
  right. exists v. split; [|done].
  exists i. split; [done|]. split; [done|]. intros ->. discriminate Hv.
Qed.

Lemma taken_refl args o : taken_from parseInt args o o.
Proof. unfold taken_from. tauto. Qed.

Lemma takeFlag_taken args flag set o0 st :
  (∀ v p, follows args flag v -> taken_from parseInt args o0 p ->
          taken_from parseInt args o0 (set v p)) ->
  taken_from parseInt args o0 st.2 ->
  (st.1 <= (takeFlag args flag set st).1)%nat
  ∧ taken_from parseInt args o0 (takeFlag args flag set st).2.
Proof.
  intros Hset Ht.
  destruct (takeFlag_cases args flag set st) as [->|(v & Hf & ->)];
    [done|].
  cbn [fst snd]. split; [lia | by apply Hset].
Qed.

Lemma argsBody_taken args o0 st :
  taken_from parseInt args o0 st.2 ->
  (st.1 <= (argsBody parseInt args st).1)%nat
  ∧ taken_from parseInt args o0 (argsBody parseInt args st).2.
Proof.
  intros Ht. unfold argsBody. cbv zeta.
  pose proof (takeFlag_taken args "--radius"
                (λ v, set_o_radius (parseInt v)) o0 st) as [L1 T1];
    [ |done|].
  { intros v p Hf (? & ? & ? & ? & ? & ?). unfold taken_from. cbn.
    repeat split; try done. right. by exists v. }
  set (st1 := takeFlag args "--radius" _ st) in *.
  pose proof (takeFlag_taken args "--type" set_o_type o0 st1) as [L2 T2];
    [ |done|].
  { intros v p Hf (? & ? & ? & ? & ? & ?). unfold taken_from. cbn.
    repeat split; try done. by right. }
  set (st2 := takeFlag args "--type" _ st1) in *.
  pose proof (takeFlag_taken args "--date" (λ v, set_o_date (Some v)) o0 st2)
    as [L3 T3]; [ |done|].
  { intros v p Hf (? & ? & ? & ? & ? & ?). unfold taken_from. cbn.
    repeat split; try done. right. by exists v. }
  set (st3 := takeFlag args "--date" _ st2) in *.
  pose proof (takeFlag_taken args "--limit"
                (λ v, set_o_limit (parseInt v)) o0 st3) as [L4 T4];
    [ |done|].
  { intros v p Hf (? & ? & ? & ? & ? & ?). unfold taken_from. cbn.
    repeat split; try done. right. by exists v. }
  set (st4 := takeFlag args "--limit" _ st3) in *.
  pose proof (takeFlag_taken args "--city" set_o_city o0 st4) as [L5 T5];
    [ |done|].
  { intros v p Hf (? & ? & ? & ? & ? & ?). unfold taken_from. cbn.
    repeat split; try done. by right. }
  split; [lia|done].
Qed.

Lemma argsLoop_taken args o0 fuel : ∀ i o,
  taken_from parseInt args o0 o ->
  taken_from parseInt args o0 (argsLoop parseInt fuel args i o).
Proof.
  induction fuel as [|fuel IH]; intros i o Ht; [done|].
  cbn [argsLoop]. destruct (i <? length args)%nat; [|done].
  destruct (argsBody_taken args o0 (i, o) Ht) as [_ Ht'].
  destruct (argsBody parseInt args (i, o)) as [i' o']. by apply IH.
Qed.

(** The loop has come to its end as soon as the fuel covers the
    arguments left: more fuel changes nothing. *)
Lemma argsLoop_fuel args fuel1 : ∀ fuel2 i o,
  (length args - i <= fuel1)%nat -> (length args - i <= fuel2)%nat ->
  argsLoop parseInt fuel1 args i o = argsLoop parseInt fuel2 args i o.
Proof.
  induction fuel1 as [|fuel1 IH]; intros [|fuel2] i o H1 H2; cbn [argsLoop];
    try done.
  - by rewrite (proj2 (Nat.ltb_ge _ _)) by lia.
  - by rewrite (proj2 (Nat.ltb_ge _ _)) by lia.
  - destruct (Nat.ltb_spec i (length args)); [|done].
    destruct (argsBody_taken args o (i, o) (taken_refl _ _)) as [Hle _].
    destruct (argsBody parseInt args (i, o)) as [i' o']. cbn [fst] in Hle.
    apply IH; lia.
Qed.

Lemma isValueFlag_false v :
  isValueFlag v = false ->
  v ≠ lit "--radius" ∧ v ≠ lit "--type" ∧ v ≠ lit "--date"
  ∧ v ≠ lit "--limit" ∧ v ≠ lit "--city".
Proof.
  unfold isValueFlag, valueFlags. rewrite bool_decide_eq_false.
  rewrite !not_elem_of_cons. tauto.
Qed.

Lemma isValueFlag_true f :
  isValueFlag f = true ->
  f = lit "--radius" ∨ f = lit "--type" ∨ f = lit "--date"
  ∨ f = lit "--limit" ∨ f = lit "--city".
Proof.
  unfold isValueFlag, valueFlags. rewrite bool_decide_eq_true.
  rewrite !elem_of_cons, elem_of_nil. tauto.
Qed.

Lemma argsBody_skip args i o :
  (∀ f, args !! i = Some f -> isValueFlag f = true ->
        truthy (args !! S i) = false) ->
  argsBody parseInt args (i, o) = (i, o).
Proof.
  intros Hskip. unfold argsBody. cbv zeta.
  destruct (args !! i) as [f|] eqn:H0.
  - destruct (isValueFlag f) eqn:Hf.
    + by rewrite !takeFlag_novalue by by apply (Hskip f).
    + apply isValueFlag_false in Hf as (? & ? & ? & ? & ?).
      by rewrite !takeFlag_miss by (rewrite H0; by intros [= ?]).
  - by rewrite !takeFlag_miss by by rewrite H0.
Qed.

Lemma argsBody_pair args i o f v :
  args !! i = Some f -> args !! S i = Some v ->
  isValueFlag f = true -> truthy (Some v) = true ->
  isValueFlag v = false ->
  argsBody parseInt args (i, o) = (S i, applyFlag parseInt f v o).
Proof.
  intros H0 H1 Hf Hv Hnf.
  apply isValueFlag_false in Hnf as (? & ? & ? & ? & ?).
  unfold argsBody. cbv zeta.
  apply isValueFlag_true in Hf as [-> | [-> | [-> | [-> | ->]]]];
    repeat first
      [ rewrite (takeFlag_hit args _ _ i o v H0 H1 Hv)
      | rewrite (takeFlag_miss args _ _ i)
          by (rewrite H0; intros E; vm_compute in E; discriminate E)
      | rewrite (takeFlag_miss args _ _ (S i)) by (rewrite H1; by intros [= ?]) ];
    reflexivity.
Qed.

Lemma argsLoop_reads n : ∀ rest pre o fuel,
  (length rest <= n)%nat -> (length rest <= fuel)%nat ->
  valuesAreNotFlags rest = true ->
  argsLoop parseInt fuel (pre ++ rest) (length pre) o
  = readArgs parseInt rest o.
Proof.
  induction n as [|n IH]; intros rest pre o fuel Hn Hfuel Hwf.
  { destruct rest; [|simpl in Hn; lia]. rewrite app_nil_r.
    destruct fuel; [done|]. cbn [argsLoop readArgs].
    by rewrite Nat.ltb_irrefl. }
  destruct rest as [|f tl].
  { rewrite app_nil_r. destruct fuel; [done|]. cbn [argsLoop readArgs].
    by rewrite Nat.ltb_irrefl. }
  destruct fuel as [|fuel]; [simpl in Hfuel; lia|].
  cbn [argsLoop]. rewrite (proj2 (Nat.ltb_lt _ _))
    by (rewrite length_app; simpl; lia).
  assert (H0 : (pre ++ f :: tl) !! length pre = Some f)
    by (by rewrite lookup_app_r, Nat.sub_diag by lia).
  assert (H1 : (pre ++ f :: tl) !! S (length pre) = tl !! 0%nat).
  { rewrite lookup_app_r by lia.
    by replace (S (length pre) - length pre)%nat with 1%nat by lia. }
  simpl in Hn, Hfuel.
  destruct tl as [|v rest].
  - rewrite argsBody_skip by (intros; by rewrite H1).
    rewrite (cons_middle f pre []), app_assoc.
    replace (S (length pre)) with (length (pre ++ [f]))
      by (rewrite length_app; simpl; lia).
    by rewrite (IH [] (pre ++ [f]) o fuel) by (simpl; lia || done).
  - cbn [readArgs]. cbn [valuesAreNotFlags] in Hwf.
    cbn [lookup list_lookup] in H1. simpl in Hn, Hfuel.
    destruct (isValueFlag f && truthy (Some v)) eqn:Hc.
    + apply andb_true_iff in Hc as [Hf Hv].
      apply andb_true_iff in Hwf as [Hnf Hwf].
      apply negb_true_iff in Hnf.
      rewrite (argsBody_pair _ _ _ f v H0 H1 Hf Hv Hnf).
      replace (pre ++ f :: v :: rest) with ((pre ++ [f; v]) ++ rest)
        by (by rewrite <- app_assoc).
      replace (S (S (length pre))) with (length (pre ++ [f; v]))
        by (rewrite length_app; simpl; lia).
      apply IH; [lia | lia | done].
    + rewrite argsBody_skip.
      2:{ intros f' Hf' Hflag. rewrite H0 in Hf'. injection Hf' as <-.
          rewrite Hflag in Hc. rewrite H1. exact Hc. }
      replace (pre ++ f :: v :: rest) with ((pre ++ [f]) ++ v :: rest)
        by (by rewrite <- app_assoc).
      replace (S (length pre)) with (length (pre ++ [f]))
        by (rewrite length_app; simpl; lia).
      apply IH; [simpl; lia | simpl; lia | done].
Qed.

(** X14.  On a command line where no argument consumed as a value is
    itself one of the five options, [parseArgs] reads the arguments from
    left to right: an option followed by a non-empty argument takes it as
    its value, a later occurrence replacing an earlier one, and every
    other argument is passed over. *)
Theorem parseArgs_reads_left_to_right CITY RADIUS_KM args :
  valuesAreNotFlags args = true ->
  parseArgs parseInt CITY RADIUS_KM args
  = readArgs parseInt args
      (defaultOpts parseInt CITY RADIUS_KM (bool_decide (lit "--json" ∈ args))).
Proof.
  intros Hwf. unfold parseArgs.
  exact (argsLoop_reads (length args) args [] _ (length args)
           (le_n _) (le_n _) Hwf).
Qed.

(** X15.  Whatever the command line, the options [parseArgs] returns
    have a non-empty city and type and a date that is null or non-empty;
    each of city, type, date, radius and limit is its default or was
    taken from the non-empty argument right after its own option; and
    [json] is set exactly when [--json] is somewhere on the line, also
    where it stands as the value of another option. *)
Theorem parseArgs_values_follow_their_options CITY RADIUS_KM args :
  let o := parseArgs parseInt CITY RADIUS_KM args in
  (o_json o = true ↔ lit "--json" ∈ args)
  ∧ o_city o ≠ [] ∧ o_type o ≠ [] ∧ o_date o ≠ Some []
  ∧ (o_city o = or_else CITY GIESSEN ∨ follows args "--city" (o_city o))
  ∧ (o_type o = lit "all" ∨ follows args "--type" (o_type o))
  ∧ (o_date o = None ∨ ∃ v, o_date o = Some v ∧ follows args "--date" v)
  ∧ (o_radius o = parseInt (or_else RADIUS_KM (lit "30"))
     ∨ ∃ v, o_radius o = parseInt v ∧ follows args "--radius" v)
  ∧ (o_limit o = Fin 30
     ∨ ∃ v, o_limit o = parseInt v ∧ follows args "--limit" v).
Proof.
  cbv zeta. unfold parseArgs.
  match goal with
  | |- context [argsLoop _ _ _ _ ?o0] =>
      pose proof (argsLoop_taken args o0 (length args) 0 o0
                    (taken_refl args o0)) as Ht;
      set (o := argsLoop parseInt (length args) args 0 o0) in *
  end.
  destruct Ht as (Hc & Hty & Hd & Hr & Hl & Hj). cbn in Hc, Hty, Hd, Hr, Hl, Hj.
  assert (Hfol : ∀ flag v, follows args flag v -> v ≠ [])
    by (by intros flag v (i & _ & _ & Hv)).
  split; [by rewrite Hj, bool_decide_eq_true|].
  split.
  { destruct Hc as [-> | Hf]; [|by eapply Hfol].
    unfold or_else. destruct CITY as [[|c r]|]; done. }
  split.
  { destruct Hty as [-> | Hf]; [done | by eapply Hfol]. }
  split.
  { destruct Hd as [-> | (v & -> & Hf)]; [done|].
    intros [= ->]. by eapply Hfol. }
  done.
Qed.

End ArgsProps.

(** One round of the loop can consume three arguments: an option taken
    as the value of [--radius] is then read as an option itself. *)
Example value_read_again_as_option :
  let o := parseArgs parseDigits None None
             [lit "--radius"; lit "--type"; lit "music"] in
  o_radius o = NaN ∧ o_type o = lit "music"
  ∧ valuesAreNotFlags [lit "--radius"; lit "--type"; lit "music"] = false.
Proof. by vm_compute. Qed.

Lemma parseArgs_reads_left_to_right_witness :
  valuesAreNotFlags
    [lit "--date"; lit "today"; lit "--json"; lit "--date"; lit "weekend"]
  = true
  ∧ o_date (parseArgs parseDigits None None
              [lit "--date"; lit "today"; lit "--json"; lit "--date";
               lit "weekend"])
    = Some (lit "weekend").
Proof.
  assert (Hwf : valuesAreNotFlags
                  [lit "--date"; lit "today"; lit "--json"; lit "--date";
                   lit "weekend"] = true) by reflexivity.
  split; [exact Hwf|].
  rewrite (parseArgs_reads_left_to_right parseDigits None None _ Hwf).
  reflexivity.
Defined.

(* ===================================================================== *)
(** ** The environment files *)
(* ===================================================================== *)

Lemma span_app p s : ∀ a b,
  span p s = (a, b) ->
  s = a ++ b ∧ forallb p a = true ∧ (∀ x r, b = x :: r -> p x = false).
Proof.
  induction s as [|c s IH]; intros a b Hs; cbn [span] in Hs.
  - by injection Hs as <- <-.
  - destruct (p c) eqn:Hc.
    + destruct (span p s) as [a' b'] eqn:Hs'. injection Hs as <- <-.
      destruct (IH a' b' eq_refl) as (-> & Ha & Hb).
      split; [done|]. split; [|done]. cbn [forallb]. by rewrite Hc, Ha.
    + injection Hs as <- <-. split; [done|]. split; [done|].
      by intros x r [= <- <-].
Qed.

Lemma span_stop p a : ∀ x b,
  forallb p a = true -> p x = false -> span p (a ++ x :: b) = (a, x :: b).
Proof.
  induction a as [|c a IH]; intros x b Ha Hx; cbn [span app].
  - by rewrite Hx.
  - cbn [forallb] in Ha. apply andb_true_iff in Ha as [Hc Ha].
    by rewrite Hc, (IH x b Ha Hx).
Qed.

Lemma matchLine_inv line n v :
  matchLine line = Some (n, v) ->
  line = n ++ 61%N :: v ∧ envName n = true ∧ v ≠ []
  ∧ forallb (λ x, negb (Rx.isLineTerminator x)) v = true.
Proof.
  unfold matchLine. destruct line as [|c r]; [done|].
  destruct (isUpper c || (c =? 95)%N) eqn:Hc; [|done].
  destruct (span _ r) as [name rest] eqn:Hs.
  apply span_app in Hs as (-> & Hname & _).
  destruct rest as [|e value]; [done|].
  destruct (N.eqb_spec e 61) as [->|]; [|done]. cbn [andb].
  destruct (bool_decide_reflect (value = [])) as [|Hne]; [done|]. cbn [negb andb].
  destruct (forallb _ value) eqn:Hv; [|done].
  intros [= <- <-]. split; [done|]. split; [|done].
  cbn [envName]. by rewrite Hc, Hname.
Qed.

Lemma matchLine_intro n v :
  envName n = true -> v ≠ [] ->
  forallb (λ x, negb (Rx.isLineTerminator x)) v = true ->
  matchLine (n ++ 61%N :: v) = Some (n, v).
Proof.
  intros Hn Hne Hv. destruct n as [|c r]; [done|].
  cbn [envName] in Hn. apply andb_true_iff in Hn as [Hc Hr].
  cbn [app matchLine]. rewrite Hc.
  rewrite (span_stop _ r 61%N v Hr) by reflexivity.
  cbn [N.eqb andb]. rewrite Hv.
  by rewrite bool_decide_eq_false_2 by done.
Qed.

(** X16.  What the pattern of [loadEnv] accepts: exactly the lines made
    of a name (a capital letter or underscore, then capital letters,
    digits and underscores), the sign [=] and a non-empty value without
    line terminators; the captures are the name and the value. *)
Theorem matchLine_spec line n v :
  matchLine line = Some (n, v)
  ↔ line = n ++ 61%N :: v ∧ envName n = true ∧ v ≠ []
    ∧ forallb (λ x, negb (Rx.isLineTerminator x)) v = true.
Proof.
  split; [apply matchLine_inv|].
  intros (-> & Hn & Hne & Hv). by apply matchLine_intro.
Qed.

Lemma envName_no_terminator n c :
  envName n = true -> c ∈ n -> Rx.isLineTerminator c = false.
Proof.
  intros Hn Hc.
  assert (Hall : forallb (λ x, isUpper x || isDigit x || (x =? 95)%N) n = true).
  { destruct n as [|x r]; [done|]. cbn [envName] in Hn.
    apply andb_true_iff in Hn as [Hx Hr]. cbn [forallb].
    rewrite Hr, andb_true_r. apply orb_true_iff in Hx as [->| ->]; [done|].
    by rewrite orb_true_r. }
  rewrite forallb_forall in Hall. apply list_elem_of_In, Hall in Hc.
  unfold isUpper, isDigit, Rx.isLineTerminator in *.
  repeat match goal with
         | |- context [(?a =? ?b)%N] => destruct (N.eqb_spec a b)
         | H : context [(?a =? ?b)%N] |- _ => destruct (N.eqb_spec a b)
         | H : context [(?a <=? ?b)%N] |- _ => destruct (N.leb_spec a b)
         end; cbn in *; first [done | lia].
Qed.

Lemma matchLine_terminator line c :
  c ∈ line -> Rx.isLineTerminator c = true -> matchLine line = None.
Proof.
  intros Hc Ht. destruct (matchLine line) as [[n v]|] eqn:Hm; [|done].
  apply matchLine_inv in Hm as (-> & Hn & _ & Hv).
  apply elem_of_app in Hc as [Hc|Hc].
  - by rewrite (envName_no_terminator n c Hn Hc) in Ht.
  - apply elem_of_cons in Hc as [->|Hc]; [done|].
    rewrite forallb_forall in Hv. apply list_elem_of_In, Hv in Hc.
    by rewrite Ht in Hc.
Qed.

Lemma foldl_loadLine_skip env lines :
  Forall (λ line, matchLine line = None) lines ->
  foldl loadLine env lines = env.
Proof.
  induction 1 as [|line lines Hl _ IH]; cbn [foldl]; [done|].
  unfold loadLine at 2. by rewrite Hl.
Qed.

(** X17.  A line with a carriage return in it is not read, as no line
    with a line terminator is; so a file in which every line that is
    not empty has one, as every line of a file with Windows line endings
    has at its end, sets nothing. *)
Theorem lines_ending_in_CR_are_skipped env content :
  Forall (λ line, line = [] ∨ 13%N ∈ line) (split_on 10 content) ->
  loadFile env (Some content) = env.
Proof.
  intros Hall. cbn [loadFile]. apply foldl_loadLine_skip.
  eapply Forall_impl; [exact Hall|].
  intros line [->|Hcr]; [done|]. by apply (matchLine_terminator line 13%N).
Qed.

Lemma env_get_set env k v name :
  env_get (env_set env k v) name
  = if streq k name then Some v else env_get env name.
Proof. reflexivity. Qed.

Lemma loadLine_keeps env line name :
  truthy (env_get env name) = true ->
  env_get (loadLine env line) name = env_get env name.
Proof.
  intros Ht. unfold loadLine.
  destruct (matchLine line) as [[n v]|]; [|done].
  destruct (truthy (env_get env n)) eqn:Hn; [done|]. cbn [negb].
  rewrite env_get_set. unfold streq.
  destruct (bool_decide_reflect (n = name)) as [->|]; [|done].
  by rewrite Ht in Hn.
Qed.

Lemma foldl_loadLine_keeps lines : ∀ env name,
  truthy (env_get env name) = true ->
  env_get (foldl loadLine env lines) name = env_get env name.
Proof.
  induction lines as [|line lines IH]; intros env name Ht; cbn [foldl];
    [done|].
  rewrite IH by (by rewrite loadLine_keeps).
  by apply loadLine_keeps.
Qed.

Lemma loadFile_keeps env file name :
  truthy (env_get env name) = true ->
  env_get (loadFile env file) name = env_get env name.
Proof.
  intros Ht. destruct file as [content|]; [|done].
  by apply foldl_loadLine_keeps.
Qed.

(** X18.  [loadEnv] never replaces a non-empty value: a variable that is
    set in the environment keeps its value whatever the files say, and a
    variable the central secrets file has given a non-empty value keeps
    it whatever the local file says. *)
Theorem loadEnv_never_overrides env secrets local name :
  (truthy (env_get env name) = true ->
   env_get (loadEnv env secrets local) name = env_get env name)
  ∧ (truthy (env_get (loadFile env secrets) name) = true ->
     env_get (loadEnv env secrets local) name
     = env_get (loadFile env secrets) name).
Proof.
  unfold loadEnv. split; intros Ht.
  - rewrite loadFile_keeps by (by rewrite loadFile_keeps).
    by apply loadFile_keeps.
  - by apply loadFile_keeps.
Qed.

Lemma foldl_loadLine_from lines : ∀ env name v,
  env_get (foldl loadLine env lines) name = Some v ->
  env_get env name = Some v
  ∨ ∃ line v', line ∈ lines ∧ matchLine line = Some (name, v')
               ∧ v = trim v'.
Proof.
  induction lines as [|line lines IH]; intros env name v Hg; cbn [foldl] in Hg;
    [by left|].
  apply IH in Hg as [Hg | (l & v' & Hl & Hm & ->)].
  2:{ right. exists l, v'. split; [by right | done]. }
  unfold loadLine in Hg.
  destruct (matchLine line) as [[n w]|] eqn:Hm; [|by left].
  destruct (truthy (env_get env n)); [by left|]. cbn [negb] in Hg.
  rewrite env_get_set in Hg. unfold streq in Hg.
  destruct (bool_decide_reflect (n = name)) as [->|]; [|by left].
  injection Hg as <-. right. exists line, w. split; [left | done].
Qed.

(** X19.  Every value in the environment after [loadEnv] was there
    before, or belongs to a variable that was unset or empty and is the
    trimmed text after the [=] of a line of one of the two files that the
    pattern accepts under that name. *)
Theorem loadEnv_values_come_from_lines env secrets local name v :
  env_get (loadEnv env secrets local) name = Some v ->
  env_get env name = Some v
  ∨ (truthy (env_get env name) = false
     ∧ ∃ line v', (line ∈ fileLines secrets ∨ line ∈ fileLines local)
                  ∧ matchLine line = Some (name, v') ∧ v = trim v').
Proof.
  intros Hg. destruct (truthy (env_get env name)) eqn:Ht.
  { left. rewrite <- Hg. unfold loadEnv. symmetry.
    rewrite loadFile_keeps by (by rewrite loadFile_keeps).
    by apply loadFile_keeps. }
  assert (Hfile : ∀ e file w, env_get (loadFile e file) name = Some w ->
            env_get e name = Some w
            ∨ ∃ line v', line ∈ fileLines file
                         ∧ matchLine line = Some (name, v') ∧ w = trim v').
  { intros e [content|] w Hw; [|by left]. by apply foldl_loadLine_from. }
  unfold loadEnv in Hg.
  apply Hfile in Hg as [Hg | (l & v' & Hl & Hm & ->)].
  - apply Hfile in Hg as [Hg | (l & v' & Hl & Hm & ->)]; [by left|].
    right. split; [done|]. exists l, v'. by split; [left|].
  - right. split; [done|]. exists l, v'. by split; [right|].
Qed.

Lemma lines_ending_in_CR_are_skipped_witness :
  Forall (λ line, line = [] ∨ 13%N ∈ line)
    (split_on 10 (lit "A=1" ++ [13; 10]%N ++ lit "B=2" ++ [13; 10]%N))
  ∧ loadFile [] (Some (lit "A=1" ++ [13; 10]%N ++ lit "B=2" ++ [13; 10]%N))
    = [].
Proof.
  assert (Hall : Forall (λ line, line = [] ∨ 13%N ∈ line)
            (split_on 10 (lit "A=1" ++ [13; 10]%N ++ lit "B=2" ++ [13; 10]%N))).
  { assert (split_on 10 (lit "A=1" ++ [13; 10]%N ++ lit "B=2" ++ [13; 10]%N)
            = [[65; 61; 49; 13]; [66; 61; 50; 13]; []]%N) as -> by reflexivity.
    apply Forall_cons. split; [right; do 3 right; left|].
    apply Forall_cons. split; [right; do 3 right; left|].
    apply Forall_cons. split; [by left | done]. }
  split; [exact Hall|].
  exact (lines_ending_in_CR_are_skipped [] _ Hall).
Defined.

Lemma loadEnv_never_overrides_witness :
  truthy (env_get (loadFile [] (Some (lit "CITY=Marburg"))) (lit "CITY")) = true
  ∧ env_get (loadEnv [] (Some (lit "CITY=Marburg")) (Some (lit "CITY=Wetzlar")))
      (lit "CITY")
    = Some (lit "Marburg").
Proof.
  split; [reflexivity|].
  rewrite (proj2 (loadEnv_never_overrides [] (Some (lit "CITY=Marburg"))
                    (Some (lit "CITY=Wetzlar")) (lit "CITY")) eq_refl).
  reflexivity.
Defined.

Lemma loadEnv_values_come_from_lines_witness :
  env_get (loadEnv [] None (Some (lit "RADIUS_KM= 50 "))) (lit "RADIUS_KM")
  = Some (lit "50")
  ∧ ∃ line v', line ∈ fileLines (Some (lit "RADIUS_KM= 50 "))
               ∧ matchLine line = Some (lit "RADIUS_KM", v')
               ∧ lit "50" = trim v'.
Proof.
  assert (Hg : env_get (loadEnv [] None (Some (lit "RADIUS_KM= 50 ")))
                 (lit "RADIUS_KM") = Some (lit "50")) by reflexivity.
  split; [exact Hg|].
  destruct (loadEnv_values_come_from_lines _ _ _ _ _ Hg)
    as [Hold | (_ & line & v' & [Hin|Hin] & Hm & Hv)].
  - discriminate Hold.
  - by apply elem_of_nil in Hin.
  - by exists line, v'.
Defined.

(* ===================================================================== *)
(** ** The cache and the run *)
(* ===================================================================== *)

Lemma dir_get_unlink_same dir f : dir_get (dir_unlink dir f) f = None.
Proof.
  induction dir as [|[k c] dir IH]; [done|]. cbn [dir_unlink List.filter fst].
  destruct (streq k f) eqn:Hk; cbn [negb]; [exact IH|].
  cbn [dir_get]. rewrite Hk. exact IH.
Qed.

Lemma dir_get_unlink_other dir f g :
  g ≠ f -> dir_get (dir_unlink dir f) g = dir_get dir g.
Proof.
  intros Hne. induction dir as [|[k c] dir IH]; [done|].
  cbn [dir_unlink List.filter fst dir_get].
  destruct (streq k f) eqn:Hk; cbn [negb].
  - apply bool_decide_eq_true in Hk as ->.
    by rewrite (streq_false f g) by done.
  - cbn [dir_get]. fold (dir_unlink dir f). by rewrite IH.
Qed.

Section CacheProps.
Variable md5 : jsstr -> jsstr.

Lemma readCache_fresh dir now key ts p :
  dir_get dir (cacheFile md5 key) = Some (Entry ts p) ->
  now - ts <= CACHE_TTL_MS ->
  readCache md5 dir now key = (Some p, dir).
Proof.
  intros Hg Hage. unfold readCache. rewrite Hg.
  by rewrite (proj2 (Z.ltb_ge _ _)) by done.
Qed.

Lemma dir_get_written dir now key p :
  dir_get (writeCache md5 dir now key p) (cacheFile md5 key)
  = Some (Entry now p).
Proof.
  unfold writeCache, dir_write. cbn [dir_get]. unfold streq.
  by rewrite bool_decide_eq_true_2.
Qed.

(** X20.  What [writeCache] stores under a key, [readCache] returns for
    that key as long as no more than thirty minutes have passed, the
    thirtieth minute included, and the read leaves the directory as it
    is.  A read under a key with another digest is not affected by the
    write. *)
Theorem cache_round_trip dir now now' key p key' :
  now' - now <= CACHE_TTL_MS ->
  readCache md5 (writeCache md5 dir now key p) now' key
  = (Some p, writeCache md5 dir now key p)
  ∧ (md5 key' ≠ md5 key ->
     (readCache md5 (writeCache md5 dir now key p) now' key').1
     = (readCache md5 dir now' key').1).
Proof.
  intros Hage. split.
  - exact (readCache_fresh _ now' key now p (dir_get_written dir now key p) Hage).
  - intros Hne. unfold readCache, writeCache, dir_write. cbn [dir_get].
    rewrite streq_false; [|unfold cacheFile; intros E; by apply app_inv_tail in E].
    destruct (dir_get dir (cacheFile md5 key')) as [[ts q|]|]; try done.
    by destruct (CACHE_TTL_MS <? now' - ts).
Qed.

(** X21.  A read that finds an entry older than thirty minutes returns
    nothing and deletes the file: every later read under that key finds
    nothing, at whatever time, until something is written; the other
    files of the directory are as they were. *)
Theorem expired_entry_is_deleted dir now key ts p :
  dir_get dir (cacheFile md5 key) = Some (Entry ts p) ->
  CACHE_TTL_MS < now - ts ->
  let dir' := (readCache md5 dir now key).2 in
  (readCache md5 dir now key).1 = None
  ∧ dir_get dir' (cacheFile md5 key) = None
  ∧ (∀ g, g ≠ cacheFile md5 key -> dir_get dir' g = dir_get dir g)
  ∧ ∀ t, readCache md5 dir' t key = (None, dir').
Proof.
  intros Hg Hage. cbv zeta.
  assert (readCache md5 dir now key
          = (None, dir_unlink dir (cacheFile md5 key))) as ->.
  { unfold readCache. rewrite Hg. by rewrite (proj2 (Z.ltb_lt _ _)) by done. }
  cbn [fst snd].
  split; [done|]. split; [apply dir_get_unlink_same|].
  split; [intros g Hne; by apply dir_get_unlink_other|].
  intros t. unfold readCache. by rewrite dir_get_unlink_same.
Qed.

End CacheProps.

Section MainProps.
Context `{Runtime}.
Variable md5 : jsstr -> jsstr.
Variable formatDay : Z -> jsstr.
Variable numberText : num -> jsstr.

Lemma getDateRange_of_day c1 c2 d :
  clock_ok c1 -> clock_ok c2 -> Day c1 = Day c2 ->
  getDateRange c1 d = getDateRange c2 d.
Proof.
  intros H1 H2 Hday. destruct (truthy d) eqn:Hd.
  2:{ by rewrite !weekly_window, Hday by done. }
  destruct d as [s|]; [|done].
  assert (s ≠ []) as Hne by (by intros ->).
  destruct (includes s (lit ":")) eqn:Hc.
  { by rewrite !getDateRange_pair. }
  destruct (decide (s = lit "today")) as [->|Ht].
  { by rewrite !today_window, Hday by done. }
  destruct (decide (s = lit "weekend")) as [->|Hw].
  { rewrite !weekend_window by done.
    assert (daysUntilSat c1 = daysUntilSat c2) as ->; [|by rewrite Hday].
    unfold daysUntilSat, getDay, WeekDay. by rewrite Hday. }
  by rewrite !getDateRange_single.
Qed.

(** X22.  On two clock readings of the same calendar day the resolver
    returns the same range, whatever the expression: the time of day
    plays no part. *)
Theorem range_depends_on_the_day_only c1 c2 d :
  clock_ok c1 -> clock_ok c2 -> Day c1 = Day c2 ->
  getDateRange c1 d = getDateRange c2 d.
Proof. apply getDateRange_of_day. Qed.

Lemma mainKey_of_day opts1 opts2 c1 c2 :
  o_city opts2 = o_city opts1 -> o_radius opts2 = o_radius opts1 ->
  o_date opts2 = o_date opts1 ->
  clock_ok c1 -> clock_ok c2 -> Day c1 = Day c2 ->
  mainKey formatDay numberText opts2 c2 = mainKey formatDay numberText opts1 c1.
Proof.
  intros Hc Hr Hd H1 H2 Hday. unfold mainKey.
  rewrite Hd, (getDateRange_of_day c2 c1) by done.
  destruct (getDateRange c1 (o_date opts1)) as [range|]; [|done].
  unfold cacheKey. by rewrite Hc, Hr.
Qed.

(** X23.  The cache key is made of the city, the range and the radius
    only.  So after a run that found nothing in the cache, a run on the
    same day within thirty minutes with the same city, date and radius
    prints the list of the first run whatever its own [--type],
    [--limit] and [--json] are and whatever the sources would return
    now: the list filtered for the type of the first run. *)
Theorem second_run_prints_the_first_list
    opts1 opts2 c1 r1 w1 c2 r2 w2 dir results1 results2 key :
  o_city opts2 = o_city opts1 -> o_radius opts2 = o_radius opts1 ->
  o_date opts2 = o_date opts1 ->
  clock_ok c1 -> clock_ok c2 -> Day c1 = Day c2 ->
  mainKey formatDay numberText opts1 c1 = Normal key ->
  (readCache md5 dir r1 key).1 = None ->
  r2 - w1 <= CACHE_TTL_MS ->
  ∃ dir1,
    mainRun md5 formatDay numberText opts1 c1 r1 w1 dir results1
    = Normal (mainEvents (o_type opts1) results1, dir1)
    ∧ mainRun md5 formatDay numberText opts2 c2 r2 w2 dir1 results2
      = Normal (mainEvents (o_type opts1) results1, dir1).
Proof.
  intros Hc Hr Hd H1 H2 Hday Hkey Hmiss Hage.
  pose proof (mainKey_of_day opts1 opts2 c1 c2 Hc Hr Hd H1 H2 Hday) as Hkey2.
  rewrite Hkey in Hkey2.
  unfold mainRun. rewrite Hkey, Hkey2.
  destruct (readCache md5 dir r1 key) as [cached dir0] eqn:Hread.
  cbn [fst] in Hmiss. subst cached.
  eexists. split; [reflexivity|].
  by rewrite (readCache_fresh md5 _ r2 key w1 _
                (dir_get_written md5 dir0 w1 key _) Hage).
Qed.

Lemma deref_keys h ls :
  Forall (λ l, is_Some (h !! l)) ls ->
  identityKey <$> deref h ls = keyAt h <$> ls.
Proof.
  induction 1 as [|l ls [e He] _ IH]; [done|].
  unfold deref, keyAt in *. csimpl. rewrite He. csimpl. by rewrite IH.
Qed.

Lemma deref_elem h ls e :
  e ∈ deref h ls -> ∃ l, l ∈ ls ∧ h !! l = Some e.
Proof.
  unfold deref. induction ls as [|l ls IH]; csimpl.
  { intros He. by apply elem_of_nil in He. }
  destruct (h !! l) as [e'|] eqn:Hl; csimpl.
  - intros [->|He]%elem_of_cons.
    + exists l. split; [left | done].
    + destruct (IH He) as (l0 & Hin & Hl0). exists l0. split; [by right | done].
  - intros He. destruct (IH He) as (l0 & Hin & Hl0).
    exists l0. split; [by right | done].
Qed.

Lemma deref_length h ls : (length (deref h ls) <= length ls)%nat.
Proof.
  unfold deref. induction ls as [|l ls IH]; [done|]. csimpl.
  destruct (h !! l); simpl; lia.
Qed.

Lemma typeFilter_sublist ty l : sublist (typeFilter ty l) l.
Proof.
  unfold typeFilter. destruct (negb _); [|done].
  induction l as [|e l IH]; [done|]. cbn [List.filter].
  destruct (_ || _); by constructor.
Qed.

(** X24.  The list [main] hands on has no two records with the same
    identity key, is not longer than what the sources returned together,
    and each of its records has the name, date, address, type, url and
    description of a record that a source returned. *)
Theorem main_list_has_distinct_keys optsType results :
  let all := concat (events <$> results) in
  let out := mainEvents optsType results in
  NoDup (identityKey <$> out)
  ∧ (length out <= length all)%nat
  ∧ ∀ e, e ∈ out -> ∃ e0, e0 ∈ all ∧ same_identity e0 e.
Proof.
  cbv zeta. unfold mainEvents, dedupFresh.
  set (all := concat (events <$> results)).
  set (refs := seq 0 (length all)).
  pose proof (dedup_loop_inv all refs) as [Hframe _ _ _ Hnd].
  destruct (firsts_keys all refs) as [Hlive Hkeys]. simpl in Hlive, Hkeys.
  pose proof (dedup_perm all refs) as Hp.
  pose proof (firsts_sublist all refs) as Hsub.
  rewrite (dedup_unfold all refs) in *. cbn [fst snd] in *.
  set (h' := (dedup_loop all refs).2) in *.
  set (out := sort (byDate h') (firsts all refs)) in *.
  pose proof (typeFilter_sublist optsType (deref h' out)) as Hfs.
  split; [|split].
  - eapply sublist_NoDup; [|by apply fmap_sublist].
    rewrite deref_keys by (by rewrite Hp). by rewrite Hp, Hkeys.
  - apply sublist_length in Hfs, Hsub.
    pose proof (deref_length h' out) as Hd.
    assert (length out = length (firsts all refs)) as Ho by (by rewrite Hp).
    unfold refs in Hsub at 2. rewrite length_seq in Hsub. lia.
  - intros e He.
    pose proof (elem_of_sublist _ _ _ He Hfs) as He'.
    apply deref_elem in He' as (l & _ & Hl).
    destruct (frame_lookup_back all h' l e Hframe Hl) as (e0 & He0 & Hsame).
    exists e0. split; [by eapply list_elem_of_lookup_2 | done].
Qed.

End MainProps.

Lemma cache_round_trip_witness :
  CACHE_TTL_MS - 0 <= CACHE_TTL_MS
  ∧ readCache plainDigest
      (writeCache plainDigest [] 0 (lit "key") [konzert])
      CACHE_TTL_MS (lit "key")
    = (Some [konzert], writeCache plainDigest [] 0 (lit "key") [konzert]).
Proof.
  assert (Hage : CACHE_TTL_MS - 0 <= CACHE_TTL_MS) by (unfold CACHE_TTL_MS; lia).
  split; [exact Hage|].
  exact (proj1 (cache_round_trip plainDigest [] 0 CACHE_TTL_MS (lit "key")
                  [konzert] (lit "key") Hage)).
Defined.

Lemma expired_entry_is_deleted_witness :
  dir_get (writeCache plainDigest [] 0 (lit "key") [konzert])
    (cacheFile plainDigest (lit "key")) = Some (Entry 0 [konzert])
  ∧ CACHE_TTL_MS < (CACHE_TTL_MS + 1) - 0
  ∧ (readCache plainDigest
       (writeCache plainDigest [] 0 (lit "key") [konzert])
       (CACHE_TTL_MS + 1) (lit "key")).1 = None.
Proof.
  assert (Hage : CACHE_TTL_MS < (CACHE_TTL_MS + 1) - 0)
    by (unfold CACHE_TTL_MS; lia).
  split; [reflexivity|]. split; [exact Hage|].
  exact (proj1 (expired_entry_is_deleted plainDigest
                  (writeCache plainDigest [] 0 (lit "key") [konzert])
                  (CACHE_TTL_MS + 1) (lit "key") 0 [konzert] eq_refl Hage)).
Defined.

Lemma clock_ok_midnight : clock_ok midnight.
Proof. unfold clock_ok, midnight, maxTime, msPerDay. lia. Qed.

Lemma clock_ok_later : clock_ok later.
Proof. unfold clock_ok, later, maxTime, msPerDay. lia. Qed.

Lemma range_depends_on_the_day_only_witness :
  clock_ok midnight ∧ clock_ok later ∧ Day midnight = Day later
  ∧ @getDateRange Latin1.runtime midnight (Some (lit "weekend"))
    = @getDateRange Latin1.runtime later (Some (lit "weekend")).
Proof.
  split; [exact clock_ok_midnight|]. split; [exact clock_ok_later|].
  split; [reflexivity|].
  exact (@range_depends_on_the_day_only Latin1.runtime midnight later
           (Some (lit "weekend")) clock_ok_midnight clock_ok_later eq_refl).
Defined.

Lemma second_run_prints_the_first_list_witness :
  let key := lit "events_" ++ GIESSEN ++ lit "_" ++ dayNumber midnight
             ++ lit "_" ++ dayNumber (midnight + 8 * msPerDay - 1)
             ++ lit "_" ++ numberUnit (Fin 30) in
  let results1 := [{| events := [konzert]; status := StatusOk 1 |}] in
  @mainKey Latin1.runtime dayNumber numberUnit opts_plain midnight = Normal key
  ∧ (readCache plainDigest [] midnight key).1 = None
  ∧ later - (midnight + 1) <= CACHE_TTL_MS
  ∧ ∃ dir1,
      @mainRun Latin1.runtime plainDigest dayNumber numberUnit
        opts_plain midnight midnight (midnight + 1) [] results1
      = Normal (@mainEvents Latin1.runtime (o_type opts_plain) results1, dir1)
      ∧ @mainRun Latin1.runtime plainDigest dayNumber numberUnit
          opts_music later later (later + 1) dir1 []
        = Normal (@mainEvents Latin1.runtime (o_type opts_plain) results1,
                  dir1).
Proof.
  cbv zeta.
  assert (Hage : later - (midnight + 1) <= CACHE_TTL_MS)
    by (unfold later, midnight, CACHE_TTL_MS; lia).
  split; [reflexivity|]. split; [reflexivity|]. split; [exact Hage|].
  exact (@second_run_prints_the_first_list Latin1.runtime plainDigest
           dayNumber numberUnit opts_plain opts_music
           midnight midnight (midnight + 1) later later (later + 1)
           [] _ [] _ eq_refl eq_refl eq_refl
           clock_ok_midnight clock_ok_later eq_refl eq_refl eq_refl Hage).
Defined.

Lemma dedup_keys_distinct_and_cover_witness :
  (1%nat ∈ [0; 1]%nat)
  ∧ [stadtfest_a; stadtfest_b] !! 1%nat = Some stadtfest_b
  ∧ ∃ l0, l0 ∈ (@dedup Latin1.runtime [stadtfest_a; stadtfest_b] [0; 1]%nat).1
          ∧ @keyAt Latin1.runtime
              (@dedup Latin1.runtime [stadtfest_a; stadtfest_b] [0; 1]%nat).2 l0
            = @identityKey Latin1.runtime stadtfest_b.
Proof.
  assert (Hin : 1%nat ∈ [0; 1]%nat) by (right; left).
  split; [exact Hin|]. split; [reflexivity|].
  exact (proj1 (proj2 (@dedup_keys_distinct_and_cover Latin1.runtime
                         [stadtfest_a; stadtfest_b] [0; 1]%nat))
           1%nat stadtfest_b Hin eq_refl).
Defined.

Lemma main_list_has_distinct_keys_witness :
  konzert ∈ @mainEvents Latin1.runtime (lit "all")
              [{| events := [konzert]; status := StatusOk 1 |}]
  ∧ ∃ e0, e0 ∈ concat (events <$>
                         [{| events := [konzert]; status := StatusOk 1 |}])
          ∧ same_identity e0 konzert.
Proof.
  assert (Hin : konzert ∈ @mainEvents Latin1.runtime (lit "all")
                  [{| events := [konzert]; status := StatusOk 1 |}])
    by (change (konzert ∈ [konzert]); left).
  split; [exact Hin|].
  exact (proj2 (proj2 (@main_list_has_distinct_keys Latin1.runtime (lit "all")
                         [{| events := [konzert]; status := StatusOk 1 |}]))
           konzert Hin).
Defined.

(* ===================================================================== *)
(** ** The scraping adapters: fixed fields and fallbacks *)
(* ===================================================================== *)

Lemma or_null_not_empty v : or_null v ≠ Some [].
Proof. unfold or_null. by destruct v as [[|c r]|]. Qed.

Lemma Forall_omap {A B} (P : B -> Prop) (f : A -> option B) l :
  (∀ a b, f a = Some b -> P b) -> Forall P (omap f l).
Proof.
  intros Hf. induction l as [|a l IH]; csimpl; [done|].
  destruct (f a) as [b|] eqn:Hb; csimpl; [|done].
  constructor; [by eapply Hf | done].
Qed.

Lemma or_else_nonempty v d : d ≠ [] -> or_else v d ≠ [].
Proof. intros Hd. unfold or_else. by destruct v as [[|c r]|]. Qed.

(** X25.  Every record of the Meetup adapter has type and source
    "meetup", a date that is null or non-empty, and a price that is null
    or "Kostenlos".  Every record of the rendered-page adapter has type
    "other", no price, the source of its city, and an address that is
    never empty: the city's name stands in where the page gave none. *)
Theorem scraped_records_have_fixed_fields page cityKey session :
  Forall (λ ev, type ev = lit "meetup" ∧ source ev = lit "meetup"
                ∧ date ev ≠ Some []
                ∧ (price ev = None ∨ price ev = Some (lit "Kostenlos")))
    (events (fetchMeetup page))
  ∧ Forall (λ ev, type ev = lit "other" ∧ price ev = None
                  ∧ (∃ a, address ev = Some a ∧ a ≠ [])
                  ∧ ∃ city, CITIES cityKey = Some city
                            ∧ source ev = city_source city)
      (events (fetchDeskline cityKey session)).
Proof.
  split.
  - unfold fetchMeetup. destruct page as [[blocks cards]|]; [|done].
    cbn [events].
    destruct (length (ldEvents meetupLd blocks) =? 0)%nat.
    + apply Forall_omap. intros c ev. unfold meetupCard.
      destruct (truthy (Some _)); [|done]. intros [= <-]. cbn.
      repeat split; try done; [apply or_null_not_empty | by left].
    + apply Forall_omap. intros item ev. unfold meetupLd.
      destruct (_ || _); [|done]. intros [= <-]. cbn.
      repeat split; try done; [apply or_null_not_empty|].
      destruct (ld_free item); [by right | by left].
  - unfold fetchDeskline. destruct (CITIES cityKey) as [city|] eqn:Hcity;
      [|done].
    destruct session as [[frames mainCards]|]; [|done]. cbn [events].
    apply List.Forall_map, Forall_forall. intros e _. cbn.
    split; [done|]. split; [done|]. split.
    + eexists. split; [done|]. apply or_else_nonempty.
      unfold CITIES in Hcity.
      destruct (streq cityKey (lit "marburg")); [by injection Hcity as <-|].
      destruct (streq cityKey (lit "wetzlar")); [by injection Hcity as <-|].
      done.
    + by exists city.
Qed.

(** X26.  The cards are a fallback.  As soon as the structured data of
    the Meetup page gives one record, its cards are not read; as soon as
    the Deskline frames give one record, the cards of the main page are
    not read.  The result is then the same whatever those cards are. *)
Theorem cards_are_read_only_as_a_fallback
    blocks cards cards' cityKey frames mainCards mainCards' :
  (ldEvents meetupLd blocks ≠ [] ->
   fetchMeetup (Normal (blocks, cards)) = fetchMeetup (Normal (blocks, cards')))
  ∧ (concat (map frameExtract frames) ≠ [] ->
     fetchDeskline cityKey (Normal (frames, mainCards))
     = fetchDeskline cityKey (Normal (frames, mainCards'))).
Proof.
  split; intros Hne.
  - unfold fetchMeetup. by destruct (ldEvents meetupLd blocks).
  - unfold fetchDeskline. destruct (CITIES cityKey); [|done].
    by destruct (concat (map frameExtract frames)).
Qed.

Lemma cards_are_read_only_as_a_fallback_witness :
  ldEvents meetupLd [Some [ld_meetup]] ≠ []
  ∧ fetchMeetup (Normal ([Some [ld_meetup]], []))
    = fetchMeetup (Normal ([Some [ld_meetup]],
                           [{| c_title := Some (lit "Stammtisch");
                               c_time := None; c_venue := None;
                               c_link := None |}])).
Proof.
  assert (Hne : ldEvents meetupLd [Some [ld_meetup]] ≠ []) by discriminate.
  split; [exact Hne|].
  exact (proj1 (cards_are_read_only_as_a_fallback [Some [ld_meetup]] [] _
                  [] [] [] []) Hne).
Defined.
